(** * Twelve-tone rows: matrix, combinatoriality detectors, enumerator

    A shallow embedding of [tonerow_analyzer/tonerow_class.py],
    [combinatorial_hexachords.py], [combinatorial_tetrachords.py] and
    [combinatorial_trichords.py].

    Conventions of the embedding:
    - a one-dimensional numpy integer array is a [list Z]; a 12x12 array is
      a [list (list Z)] (a list of rows);
    - Python's [%] with a positive right operand is [Z.modulo] (the result
      takes the sign of the divisor, so it lies in [0, 12));
    - a Python [set] of integers is a [gset Z]; equality of sets is [=];
    - a raised exception is the left injection of a sum;
    - where a claim depends on which array object a name is bound to
      ([transpose_row]), arrays live in a store indexed by locations. *)

From Stdlib Require Import ZArith List Lia Permutation Sorted Factorial.
From stdpp Require Import gmap list list_numbers strings pretty sorting.

Local Open Scope Z_scope.

(** ** Exceptions *)

(** Both failures of the class are Python [ValueError]s, told apart by their
    message.  [NumpyError] stands for the exceptions numpy itself raises on
    arrays of the wrong shape (broadcasting, index out of bounds). *)
Inductive exn : Type :=
  | ValueError (msg : string)
  | NumpyError.

Definition InvalidRow : exn := ValueError "provided tone row is not valid".
Definition RangeError : exn := ValueError "Interval size must be between -11 and 11".

Definition result (A : Type) : Type := exn + A.

#[global] Instance exn_eq_dec : EqDecision exn.
Proof. solve_decision. Defined.

(** ** [itertools.permutations]

    The standard library's generator, with [r] left out (so [r] is the
    length of the pool).  Its documentation fixes the order: the tuples are
    emitted in lexicographic order of the positions of the input, so each
    element of the pool in turn comes first, followed by every permutation
    of the others in the same order. *)

Module itertools.

(** Each element of the pool with the others, in pool order. *)
Fixpoint picks {A} (pool : list A) : list (A * list A) :=
  match pool with
  | [] => []
  | x :: rest => (x, rest) :: ((λ p, (p.1, x :: p.2)) <$> picks rest)
  end.

Fixpoint permutations_len {A} (n : nat) (pool : list A) : list (list A) :=
  match n with
  | O => [[]]
  | S n' => picks pool ≫= λ p, cons p.1 <$> permutations_len n' p.2
  end.

Definition permutations {A} (iterable : list A) : list (list A) :=
  permutations_len (length iterable) iterable.

(** The algorithm that the documentation of [itertools.permutations] gives
    as its equivalent, kept here to test [permutations] against: [indices]
    is a permutation of the positions of the pool and [cycles] counts down
    at each position.  [advance] is the inner loop [for i in
    reversed(range(r))], which ends by a [yield] (the new state is
    returned) or falls through to [return] ([None]). *)
Fixpoint advance (n : nat) (positions indices cycles : list nat)
    : option (list nat * list nat) :=
  match positions with
  | [] => None
  | i :: positions' =>
      let c := (cycles !!! i - 1)%nat in
      if bool_decide (c = 0%nat) then
        (* [indices[i:] = indices[i+1:] + indices[i:i+1]] *)
        let indices := take i indices ++ drop (S i) indices ++ [indices !!! i] in
        let cycles := <[i := (n - i)%nat]> cycles in
        advance n positions' indices cycles
      else
        let cycles := <[i := c]> cycles in
        let j := c in
        (* [indices[i], indices[-j] = indices[-j], indices[i]] *)
        let a := indices !!! (n - j)%nat in
        let b := indices !!! i in
        Some (<[(n - j)%nat := b]> (<[i := a]> indices), cycles)
  end.

Fixpoint reference_loop {A} `{Inhabited A} (fuel : nat) (pool : list A)
    (indices cycles : list nat) : list (list A) :=
  match fuel with
  | O => []
  | S fuel' =>
      match advance (length pool) (reverse (seq 0 (length pool))) indices cycles with
      | None => []
      | Some (indices, cycles) =>
          ((λ i, pool !!! i) <$> indices)
            :: reference_loop fuel' pool indices cycles
      end
  end.

Definition permutations_reference {A} `{Inhabited A} (fuel : nat)
    (iterable : list A) : list (list A) :=
  let pool := iterable in
  let n := length pool in
  let indices := seq 0 n in
  let cycles := reverse (seq 1 n) in
  ((λ i, pool !!! i) <$> indices) :: reference_loop fuel pool indices cycles.

End itertools.

(** ** The class [ToneRow] *)

Module ToneRow.

(** [set(range(12))] *)
Definition pitch_classes : gset Z := list_to_set (seqZ 0 12).

(** [is_valid_tonerow]: [toneRow.size == 12 and set(toneRow) == set(range(12))],
    both operands being computed before the conjunction. *)
Definition is_valid_tonerow (toneRow : list Z) : bool :=
  let has_correct_length := bool_decide (length toneRow = 12%nat) in
  let contains_all_pitch_classes :=
    bool_decide (list_to_set toneRow = pitch_classes) in
  has_correct_length && contains_all_pitch_classes.

(** [np.zeros(shape=(n, m), dtype=int)] *)
Definition zeros2 (n m : nat) : list (list Z) := replicate n (replicate m 0).

(** One iteration of the loop of [twelvetone_matrix]. *)
Definition matrix_step (primeRow inversion_row : list Z)
    (tt_matrix : list (list Z)) (i : nat) : list (list Z) :=
  let transposition_interval :=
    (inversion_row !!! i - inversion_row !!! 0%nat) mod 12 in
  <[i := (λ x, (x + transposition_interval) mod 12) <$> primeRow]> tt_matrix.

(** The body of [twelvetone_matrix] on a row of twelve elements. *)
Definition matrix_of (primeRow : list Z) : list (list Z) :=
  let tt_matrix := zeros2 12 12 in
  let tt_matrix := <[0%nat := primeRow]> tt_matrix in
  let inversion_row := (λ x, (- x) mod 12) <$> primeRow in
  foldl (matrix_step primeRow inversion_row) tt_matrix (seq 1 11).

(** [twelvetone_matrix].  The assignment [tt_matrix[0] = primeRow.copy()]
    needs a right-hand side of shape (12,); an array of one element is
    broadcast but then [inversion_row[1]] is out of bounds, and any other
    length cannot be broadcast: numpy raises in each case. *)
Definition twelvetone_matrix (primeRow : list Z) : result (list (list Z)) :=
  if bool_decide (length primeRow = 12%nat) then inr (matrix_of primeRow)
  else inl NumpyError.

(** An instance holds its matrix only. *)
Record t : Type := Build { matrix : list (list Z) }.

(** [__init__] *)
Definition init (primeRow : list Z) : result t :=
  if negb (is_valid_tonerow primeRow) then inl InvalidRow
  else match twelvetone_matrix primeRow with
       | inl e => inl e
       | inr m => inr (Build m)
       end.

(** [matrix[:, j]] *)
Definition column (m : list (list Z)) (j : nat) : list Z :=
  (λ r : list Z, r !!! j) <$> m.

(** [prime_row]: [self.__matrix[0].copy()] *)
Definition prime_row (self : t) : list Z := matrix self !!! 0%nat.
(** [inversion]: [self.__matrix[:, 0].copy()] *)
Definition inversion (self : t) : list Z := column (matrix self) 0.
(** [retrograde]: [self.__matrix[0, ::-1].copy()] *)
Definition retrograde (self : t) : list Z := reverse (matrix self !!! 0%nat).
(** [retrograde_inversion]: [self.__matrix[::-1, 0].copy()] *)
Definition retrograde_inversion (self : t) : list Z :=
  (λ r : list Z, r !!! 0%nat) <$> reverse (matrix self).

(** *** Arrays as objects: the store

    [transpose_row] binds a second name to the array it is given and then
    updates it in place, so for this method arrays are objects in a store. *)

Definition loc : Type := positive.
Abbreviation store := (gmap loc (list Z)).

Definition M (A : Type) : Type := store → result A * store.

Definition ret {A} (a : A) : M A := λ σ, (inr a, σ).
Definition raise {A} (e : exn) : M A := λ σ, (inl e, σ).
Definition bind {A B} (m : M A) (k : A → M B) : M B :=
  λ σ, match m σ with
       | (inl e, σ') => (inl e, σ')
       | (inr a, σ') => k a σ'
       end.

Notation "'let!' x := m 'in' k" := (bind m (λ x, k))
  (at level 10, x name, m at level 100, k at level 200, only parsing).
Notation "'do!' m 'in' k" := (bind m (λ _, k))
  (at level 10, m at level 100, k at level 200, only parsing).

(** Reading the array a name is bound to.  Every Python name is bound to a
    live object; a location outside the store is answered by [NumpyError]
    so that [read] is total. *)
Definition read (l : loc) : M (list Z) :=
  λ σ, match σ !! l with
       | Some a => (inr a, σ)
       | None => (inl NumpyError, σ)
       end.

(** [a += k] and [a %= k] on an array: the object is updated in place. *)
Definition update_in_place (f : Z → Z) (l : loc) : M () :=
  let! a := read l in λ σ, (inr (), <[l := f <$> a]> σ).
Definition iadd (l : loc) (k : Z) : M () := update_in_place (λ x, x + k) l.
Definition imod (l : loc) (k : Z) : M () := update_in_place (λ x, x mod k) l.

(** [transpose_row] *)
Definition transpose_row (primeRow : loc) (intervalSize : Z) : M loc :=
  let! row := read primeRow in
  if negb (is_valid_tonerow row) then raise InvalidRow
  else if bool_decide (intervalSize < -11) || bool_decide (intervalSize > 11)
  then raise RangeError
  else
    let converted_interval_size := intervalSize in
    let converted_interval_size := converted_interval_size + 12 in
    let converted_interval_size := converted_interval_size mod 12 in
    (* [transposed_tonerow = primeRow]: a second name for the same array *)
    let transposed_tonerow := primeRow in
    do! iadd transposed_tonerow converted_interval_size in
    do! imod transposed_tonerow 12 in
    ret transposed_tonerow.

(** [tonerows_starting_with_zero_iterator]: the generator, as the list of the
    rows it yields, in order.  Each row is a fresh array. *)
Definition tonerows_starting_with_zero_iterator : list (list Z) :=
  let remaining_pitches := seqZ 1 11 in
  (λ perm : list Z,
     let row := replicate 12 0 in
     let row := <[0%nat := 0]> row in
     (* [row[1:] = perm] *)
     take 1 row ++ perm) <$> itertools.permutations remaining_pitches.

End ToneRow.

(** ** [CombinatorialHexachords]

    Each detector is a loop over the rows (or the column indices) of the
    matrix that appends to [combinatorials_list]; [continue] leaves the
    list as it is.  A label [f"P{level}"] is the prefix followed by the
    decimal digits of the level. *)

Module CombinatorialHexachords.

Definition prime_combinatorials (toneRow : ToneRow.t) : list string :=
  let matrix := ToneRow.matrix toneRow in
  let first_note_p0 := ToneRow.prime_row toneRow !!! 0%nat in
  let first_hexachord_p0 : gset Z := list_to_set (take 6 (matrix !!! 0%nat)) in
  foldl (λ combinatorials_list (prime_row : list Z),
    let first_hexachord_prime : gset Z := list_to_set (take 6 prime_row) in
    if negb (bool_decide (first_hexachord_prime ## first_hexachord_p0))
    then combinatorials_list
    else
      let first_note_current := prime_row !!! 0%nat in
      let transposition_level := first_note_current - first_note_p0 in
      let transposition_level := transposition_level + 12 in
      let transposition_level := transposition_level mod 12 in
      if bool_decide (transposition_level = 0) then combinatorials_list
      else combinatorials_list ++ ["P" +:+ pretty transposition_level])
    [] matrix.

(** [prime_row[6:]] is the slice from position 6 on and [prime_row[-1]] the
    last element. *)
Definition retrograde_combinatorials (toneRow : ToneRow.t) : list string :=
  let matrix := ToneRow.matrix toneRow in
  let first_note_r0 := ToneRow.retrograde toneRow !!! 0%nat in
  let first_hexachord_p0 : gset Z := list_to_set (take 6 (matrix !!! 0%nat)) in
  foldl (λ combinatorials_list (prime_row : list Z),
    let first_hexachord_retrograde : gset Z := list_to_set (drop 6 prime_row) in
    if negb (bool_decide (first_hexachord_retrograde ## first_hexachord_p0))
    then combinatorials_list
    else
      let first_note_current := prime_row !!! (length prime_row - 1)%nat in
      let transposition_level := first_note_current - first_note_r0 in
      let transposition_level := transposition_level + 12 in
      let transposition_level := transposition_level mod 12 in
      if bool_decide (transposition_level = 0) then combinatorials_list
      else combinatorials_list ++ ["R" +:+ pretty transposition_level])
    [] matrix.

Definition inversion_combinatorials (toneRow : ToneRow.t) : list string :=
  let matrix := ToneRow.matrix toneRow in
  let first_note_i0 := ToneRow.inversion toneRow !!! 0%nat in
  let first_hexachord_p0 : gset Z := list_to_set (take 6 (matrix !!! 0%nat)) in
  foldl (λ combinatorials_list (col_index : nat),
    let inversion_form := ToneRow.column matrix col_index in
    let first_hexachord_inversion : gset Z := list_to_set (take 6 inversion_form) in
    if negb (bool_decide (first_hexachord_inversion ## first_hexachord_p0))
    then combinatorials_list
    else
      let first_note_current_inversion := inversion_form !!! 0%nat in
      let inversion_level := first_note_current_inversion - first_note_i0 in
      let inversion_level := inversion_level + 12 in
      let inversion_level := inversion_level mod 12 in
      if bool_decide (inversion_level = 0) then combinatorials_list
      else combinatorials_list ++ ["I" +:+ pretty inversion_level])
    [] (seq 0 (length matrix)).

Definition retrograde_inversion_combinatorials (toneRow : ToneRow.t) : list string :=
  let matrix := ToneRow.matrix toneRow in
  let first_note_ri0 := ToneRow.retrograde_inversion toneRow !!! 0%nat in
  let first_hexachord_p0 : gset Z := list_to_set (take 6 (matrix !!! 0%nat)) in
  foldl (λ combinatorials_list (col_index : nat),
    let ri_form := ToneRow.column matrix col_index in
    let ri_form := reverse ri_form in
    let first_hexachord_ri : gset Z := list_to_set (take 6 ri_form) in
    if negb (bool_decide (first_hexachord_ri ## first_hexachord_p0))
    then combinatorials_list
    else
      let first_note_current_ri := ri_form !!! 0%nat in
      let ri_level := first_note_current_ri - first_note_ri0 in
      let ri_level := ri_level + 12 in
      let ri_level := ri_level mod 12 in
      if bool_decide (ri_level = 0) then combinatorials_list
      else combinatorials_list ++ ["RI" +:+ pretty ri_level])
    [] (seq 0 (length matrix)).

Definition all_hexachordal_combinatorials (toneRow : ToneRow.t) : list string :=
  prime_combinatorials toneRow ++ retrograde_combinatorials toneRow
  ++ inversion_combinatorials toneRow
  ++ retrograde_inversion_combinatorials toneRow.

End CombinatorialHexachords.

(** ** The matching loop of the tetrachord and trichord detectors

    Every detector of these two classes repeats, once per reference
    segment but the last, the loop

      [found = False]
      [for x in forms: if ref == x: found = True; forms.remove(ref); break]

    [list.remove] deletes the first element equal to its argument. *)

Fixpoint list_remove (x : gset Z) (l : list (gset Z)) : list (gset Z) :=
  match l with
  | [] => []
  | y :: l' => if bool_decide (y = x) then l' else y :: list_remove x l'
  end.

(** The loop, over what is left to visit of [forms]. *)
Fixpoint find_match_loop (ref : gset Z) (forms rest : list (gset Z))
    : bool * list (gset Z) :=
  match rest with
  | [] => (false, forms)
  | x :: rest' =>
      if bool_decide (ref = x) then (true, list_remove ref forms)
      else find_match_loop ref forms rest'
  end.

(** The flag [found] and the list after the loop. *)
Definition find_match (ref : gset Z) (forms : list (gset Z))
    : bool * list (gset Z) :=
  find_match_loop ref forms forms.

(** ** [CombinatorialTetrachords] *)

Module CombinatorialTetrachords.

Definition prime_combinatorials (toneRow : ToneRow.t) : list string :=
  let matrix := ToneRow.matrix toneRow in
  let first_note_p0 := ToneRow.prime_row toneRow !!! 0%nat in
  let first_tetrachord_p0 : gset Z := list_to_set (take 4 (matrix !!! 0%nat)) in
  let second_tetrachord_p0 : gset Z := list_to_set (take 4 (drop 4 (matrix !!! 0%nat))) in
  let third_tetrachord_p0 : gset Z := list_to_set (take 4 (drop 8 (matrix !!! 0%nat))) in
  foldl (λ combinatorials_list (prime_row_transposition : list Z),
    let first_tetrachord_prime_row_transposition : gset Z := list_to_set (take 4 prime_row_transposition) in
    let second_tetrachord_prime_row_transposition : gset Z := list_to_set (take 4 (drop 4 prime_row_transposition)) in
    let third_tetrachord_prime_row_transposition : gset Z := list_to_set (take 4 (drop 8 prime_row_transposition)) in
    let prime_row_transposition_tetrachords := [first_tetrachord_prime_row_transposition; second_tetrachord_prime_row_transposition; third_tetrachord_prime_row_transposition] in
    let '(found_first_tetrachord_p0_match, prime_row_transposition_tetrachords) :=
      find_match first_tetrachord_p0 prime_row_transposition_tetrachords in
    if negb found_first_tetrachord_p0_match then combinatorials_list else
    let '(found_second_tetrachord_p0_match, prime_row_transposition_tetrachords) :=
      find_match second_tetrachord_p0 prime_row_transposition_tetrachords in
    if negb found_second_tetrachord_p0_match then combinatorials_list else
    if bool_decide (length prime_row_transposition_tetrachords ≠ 1%nat) then combinatorials_list else
    let found_third_tetrachord_p0_match :=
      bool_decide (third_tetrachord_p0 = prime_row_transposition_tetrachords !!! 0%nat) in
    if negb found_third_tetrachord_p0_match then combinatorials_list else
    let first_note_current := prime_row_transposition !!! 0%nat in
    let transposition_level := first_note_current - first_note_p0 in
    let transposition_level := transposition_level + 12 in
    let transposition_level := transposition_level mod 12 in
    if bool_decide (transposition_level = 0) then combinatorials_list else
    combinatorials_list ++ ["P" +:+ pretty transposition_level])
    [] matrix.

Definition retrograde_combinatorials (toneRow : ToneRow.t) : list string :=
  let matrix := ToneRow.matrix toneRow in
  let first_note_r0 := ToneRow.retrograde toneRow !!! 0%nat in
  let first_tetrachord_p0 : gset Z := list_to_set (take 4 (matrix !!! 0%nat)) in
  let second_tetrachord_p0 : gset Z := list_to_set (take 4 (drop 4 (matrix !!! 0%nat))) in
  let third_tetrachord_p0 : gset Z := list_to_set (take 4 (drop 8 (matrix !!! 0%nat))) in
  foldl (λ combinatorials_list (prime_row_transposition : list Z),
    let retrograde_form := reverse prime_row_transposition in
    let first_tetrachord_retrograde : gset Z := list_to_set (take 4 retrograde_form) in
    let second_tetrachord_retrograde : gset Z := list_to_set (take 4 (drop 4 retrograde_form)) in
    let third_tetrachord_retrograde : gset Z := list_to_set (take 4 (drop 8 retrograde_form)) in
    let retrograde_form_tetrachords := [first_tetrachord_retrograde; second_tetrachord_retrograde; third_tetrachord_retrograde] in
    let '(found_first_tetrachord_p0_match, retrograde_form_tetrachords) :=
      find_match first_tetrachord_p0 retrograde_form_tetrachords in
    if negb found_first_tetrachord_p0_match then combinatorials_list else
    let '(found_second_tetrachord_p0_match, retrograde_form_tetrachords) :=
      find_match second_tetrachord_p0 retrograde_form_tetrachords in
    if negb found_second_tetrachord_p0_match then combinatorials_list else
    if bool_decide (length retrograde_form_tetrachords ≠ 1%nat) then combinatorials_list else
    let found_third_tetrachord_p0_match :=
      bool_decide (third_tetrachord_p0 = retrograde_form_tetrachords !!! 0%nat) in
    if negb found_third_tetrachord_p0_match then combinatorials_list else
    let first_note_current_retrograde := retrograde_form !!! 0%nat in
    let retrograde_level := first_note_current_retrograde - first_note_r0 in
    let retrograde_level := (retrograde_level + 12) mod 12 in
    if bool_decide (retrograde_level = 0) then combinatorials_list else
    combinatorials_list ++ ["R" +:+ pretty retrograde_level])
    [] matrix.

Definition inversion_combinatorials (toneRow : ToneRow.t) : list string :=
  let matrix := ToneRow.matrix toneRow in
  let first_note_i0 := ToneRow.inversion toneRow !!! 0%nat in
  let first_tetrachord_p0 : gset Z := list_to_set (take 4 (matrix !!! 0%nat)) in
  let second_tetrachord_p0 : gset Z := list_to_set (take 4 (drop 4 (matrix !!! 0%nat))) in
  let third_tetrachord_p0 : gset Z := list_to_set (take 4 (drop 8 (matrix !!! 0%nat))) in
  foldl (λ combinatorials_list (col_index : nat),
    let inversion_form := ToneRow.column matrix col_index in
    let first_tetrachord_inversion : gset Z := list_to_set (take 4 inversion_form) in
    let second_tetrachord_inversion : gset Z := list_to_set (take 4 (drop 4 inversion_form)) in
    let third_tetrachord_inversion : gset Z := list_to_set (take 4 (drop 8 inversion_form)) in
    let inversion_form_tetrachords := [first_tetrachord_inversion; second_tetrachord_inversion; third_tetrachord_inversion] in
    let '(found_first_tetrachord_p0_match, inversion_form_tetrachords) :=
      find_match first_tetrachord_p0 inversion_form_tetrachords in
    if negb found_first_tetrachord_p0_match then combinatorials_list else
    let '(found_second_tetrachord_p0_match, inversion_form_tetrachords) :=
      find_match second_tetrachord_p0 inversion_form_tetrachords in
    if negb found_second_tetrachord_p0_match then combinatorials_list else
    if bool_decide (length inversion_form_tetrachords ≠ 1%nat) then combinatorials_list else
    let found_third_tetrachord_p0_match :=
      bool_decide (third_tetrachord_p0 = inversion_form_tetrachords !!! 0%nat) in
    if negb found_third_tetrachord_p0_match then combinatorials_list else
    let first_note_current_inversion := inversion_form !!! 0%nat in
    let inversion_level := first_note_current_inversion - first_note_i0 in
    let inversion_level := inversion_level + 12 in
    let inversion_level := inversion_level mod 12 in
    combinatorials_list ++ ["I" +:+ pretty inversion_level])
    [] (seq 0 (length matrix)).

Definition retrograde_inversion_combinatorials (toneRow : ToneRow.t) : list string :=
  let matrix := ToneRow.matrix toneRow in
  let first_note_ri0 := ToneRow.retrograde_inversion toneRow !!! 0%nat in
  let first_tetrachord_p0 : gset Z := list_to_set (take 4 (matrix !!! 0%nat)) in
  let second_tetrachord_p0 : gset Z := list_to_set (take 4 (drop 4 (matrix !!! 0%nat))) in
  let third_tetrachord_p0 : gset Z := list_to_set (take 4 (drop 8 (matrix !!! 0%nat))) in
  foldl (λ combinatorials_list (col_index : nat),
    let inversion_form := ToneRow.column matrix col_index in
    let retrograde_inversion_form := reverse inversion_form in
    let first_tetrachord_ri : gset Z := list_to_set (take 4 retrograde_inversion_form) in
    let second_tetrachord_ri : gset Z := list_to_set (take 4 (drop 4 retrograde_inversion_form)) in
    let third_tetrachord_ri : gset Z := list_to_set (take 4 (drop 8 retrograde_inversion_form)) in
    let retrograde_inversion_form_tetrachords := [first_tetrachord_ri; second_tetrachord_ri; third_tetrachord_ri] in
    let '(found_first_tetrachord_p0_match, retrograde_inversion_form_tetrachords) :=
      find_match first_tetrachord_p0 retrograde_inversion_form_tetrachords in
    if negb found_first_tetrachord_p0_match then combinatorials_list else
    let '(found_second_tetrachord_p0_match, retrograde_inversion_form_tetrachords) :=
      find_match second_tetrachord_p0 retrograde_inversion_form_tetrachords in
    if negb found_second_tetrachord_p0_match then combinatorials_list else
    if bool_decide (length retrograde_inversion_form_tetrachords ≠ 1%nat) then combinatorials_list else
    let found_third_tetrachord_p0_match :=
      bool_decide (third_tetrachord_p0 = retrograde_inversion_form_tetrachords !!! 0%nat) in
    if negb found_third_tetrachord_p0_match then combinatorials_list else
    let first_note_current_ri := retrograde_inversion_form !!! 0%nat in
    let ri_level := first_note_current_ri - first_note_ri0 in
    let ri_level := ri_level + 12 in
    let ri_level := ri_level mod 12 in
    combinatorials_list ++ ["RI" +:+ pretty ri_level])
    [] (seq 0 (length matrix)).

Definition all_tetrachordal_combinatorials (toneRow : ToneRow.t) : list string :=
  prime_combinatorials toneRow ++ retrograde_combinatorials toneRow
  ++ inversion_combinatorials toneRow
  ++ retrograde_inversion_combinatorials toneRow.

End CombinatorialTetrachords.

(** ** [CombinatorialTrichords] *)

Module CombinatorialTrichords.

Definition prime_combinatorials (toneRow : ToneRow.t) : list string :=
  let matrix := ToneRow.matrix toneRow in
  let first_note_p0 := ToneRow.prime_row toneRow !!! 0%nat in
  let first_trichord_p0 : gset Z := list_to_set (take 3 (matrix !!! 0%nat)) in
  let second_trichord_p0 : gset Z := list_to_set (take 3 (drop 3 (matrix !!! 0%nat))) in
  let third_trichord_p0 : gset Z := list_to_set (take 3 (drop 6 (matrix !!! 0%nat))) in
  let fourth_trichord_p0 : gset Z := list_to_set (take 3 (drop 9 (matrix !!! 0%nat))) in
  foldl (λ combinatorials_list (prime_row_transposition : list Z),
    let first_trichord_prime_row_transposition : gset Z := list_to_set (take 3 prime_row_transposition) in
    let second_trichord_prime_row_transposition : gset Z := list_to_set (take 3 (drop 3 prime_row_transposition)) in
    let third_trichord_prime_row_transposition : gset Z := list_to_set (take 3 (drop 6 prime_row_transposition)) in
    let fourth_trichord_prime_row_transposition : gset Z := list_to_set (take 3 (drop 9 prime_row_transposition)) in
    let prime_row_transposition_trichords := [first_trichord_prime_row_transposition; second_trichord_prime_row_transposition; third_trichord_prime_row_transposition; fourth_trichord_prime_row_transposition] in
    let '(found_first_trichord_p0_match, prime_row_transposition_trichords) :=
      find_match first_trichord_p0 prime_row_transposition_trichords in
    if negb found_first_trichord_p0_match then combinatorials_list else
    let '(found_second_trichord_p0_match, prime_row_transposition_trichords) :=
      find_match second_trichord_p0 prime_row_transposition_trichords in
    if negb found_second_trichord_p0_match then combinatorials_list else
    let '(found_third_trichord_p0_match, prime_row_transposition_trichords) :=
      find_match third_trichord_p0 prime_row_transposition_trichords in
    if negb found_third_trichord_p0_match then combinatorials_list else
    if bool_decide (length prime_row_transposition_trichords ≠ 1%nat) then combinatorials_list else
    let found_fourth_trichord_p0_match :=
      bool_decide (fourth_trichord_p0 = prime_row_transposition_trichords !!! 0%nat) in
    if negb found_fourth_trichord_p0_match then combinatorials_list else
    let first_note_current := prime_row_transposition !!! 0%nat in
    let transposition_level := first_note_current - first_note_p0 in
    let transposition_level := transposition_level + 12 in
    let transposition_level := transposition_level mod 12 in
    if bool_decide (transposition_level = 0) then combinatorials_list else
    combinatorials_list ++ ["P" +:+ pretty transposition_level])
    [] matrix.

Definition retrograde_combinatorials (toneRow : ToneRow.t) : list string :=
  let matrix := ToneRow.matrix toneRow in
  let first_note_r0 := ToneRow.retrograde toneRow !!! 0%nat in
  let first_trichord_p0 : gset Z := list_to_set (take 3 (matrix !!! 0%nat)) in
  let second_trichord_p0 : gset Z := list_to_set (take 3 (drop 3 (matrix !!! 0%nat))) in
  let third_trichord_p0 : gset Z := list_to_set (take 3 (drop 6 (matrix !!! 0%nat))) in
  let fourth_trichord_p0 : gset Z := list_to_set (take 3 (drop 9 (matrix !!! 0%nat))) in
  foldl (λ combinatorials_list (prime_row_transposition : list Z),
    let retrograde_form := reverse prime_row_transposition in
    let first_trichord_retrograde : gset Z := list_to_set (take 3 retrograde_form) in
    let second_trichord_retrograde : gset Z := list_to_set (take 3 (drop 3 retrograde_form)) in
    let third_trichord_retrograde : gset Z := list_to_set (take 3 (drop 6 retrograde_form)) in
    let fourth_trichord_retrograde : gset Z := list_to_set (take 3 (drop 9 retrograde_form)) in
    let retrograde_form_trichords := [first_trichord_retrograde; second_trichord_retrograde; third_trichord_retrograde; fourth_trichord_retrograde] in
    let '(found_first_trichord_p0_match, retrograde_form_trichords) :=
      find_match first_trichord_p0 retrograde_form_trichords in
    if negb found_first_trichord_p0_match then combinatorials_list else
    let '(found_second_trichord_p0_match, retrograde_form_trichords) :=
      find_match second_trichord_p0 retrograde_form_trichords in
    if negb found_second_trichord_p0_match then combinatorials_list else
    let '(found_third_trichord_p0_match, retrograde_form_trichords) :=
      find_match third_trichord_p0 retrograde_form_trichords in
    if negb found_third_trichord_p0_match then combinatorials_list else
    if bool_decide (length retrograde_form_trichords ≠ 1%nat) then combinatorials_list else
    let found_fourth_trichord_p0_match :=
      bool_decide (fourth_trichord_p0 = retrograde_form_trichords !!! 0%nat) in
    if negb found_fourth_trichord_p0_match then combinatorials_list else
    let first_note_current_retrograde := retrograde_form !!! 0%nat in
    let retrograde_level := first_note_current_retrograde - first_note_r0 in
    let retrograde_level := (retrograde_level + 12) mod 12 in
    if bool_decide (retrograde_level = 0) then combinatorials_list else
    combinatorials_list ++ ["R" +:+ pretty retrograde_level])
    [] matrix.

Definition inversion_combinatorials (toneRow : ToneRow.t) : list string :=
  let matrix := ToneRow.matrix toneRow in
  let first_note_i0 := ToneRow.inversion toneRow !!! 0%nat in
  let first_trichord_p0 : gset Z := list_to_set (take 3 (matrix !!! 0%nat)) in
  let second_trichord_p0 : gset Z := list_to_set (take 3 (drop 3 (matrix !!! 0%nat))) in
  let third_trichord_p0 : gset Z := list_to_set (take 3 (drop 6 (matrix !!! 0%nat))) in
  let fourth_trichord_p0 : gset Z := list_to_set (take 3 (drop 9 (matrix !!! 0%nat))) in
  foldl (λ combinatorials_list (col_index : nat),
    let inversion_form := ToneRow.column matrix col_index in
    let first_trichord_inversion : gset Z := list_to_set (take 3 inversion_form) in
    let second_trichord_inversion : gset Z := list_to_set (take 3 (drop 3 inversion_form)) in
    let third_trichord_inversion : gset Z := list_to_set (take 3 (drop 6 inversion_form)) in
    let fourth_trichord_inversion : gset Z := list_to_set (take 3 (drop 9 inversion_form)) in
    let inversion_form_trichords := [first_trichord_inversion; second_trichord_inversion; third_trichord_inversion; fourth_trichord_inversion] in
    let '(found_first_trichord_p0_match, inversion_form_trichords) :=
      find_match first_trichord_p0 inversion_form_trichords in
    if negb found_first_trichord_p0_match then combinatorials_list else
    let '(found_second_trichord_p0_match, inversion_form_trichords) :=
      find_match second_trichord_p0 inversion_form_trichords in
    if negb found_second_trichord_p0_match then combinatorials_list else
    let '(found_third_trichord_p0_match, inversion_form_trichords) :=
      find_match third_trichord_p0 inversion_form_trichords in
    if negb found_third_trichord_p0_match then combinatorials_list else
    if bool_decide (length inversion_form_trichords ≠ 1%nat) then combinatorials_list else
    let found_fourth_trichord_p0_match :=
      bool_decide (fourth_trichord_p0 = inversion_form_trichords !!! 0%nat) in
    if negb found_fourth_trichord_p0_match then combinatorials_list else
    let first_note_current_inversion := inversion_form !!! 0%nat in
    let inversion_level := first_note_current_inversion - first_note_i0 in
    let inversion_level := inversion_level + 12 in
    let inversion_level := inversion_level mod 12 in
    combinatorials_list ++ ["I" +:+ pretty inversion_level])
    [] (seq 0 (length matrix)).

Definition retrograde_inversion_combinatorials (toneRow : ToneRow.t) : list string :=
  let matrix := ToneRow.matrix toneRow in
  let first_note_ri0 := ToneRow.retrograde_inversion toneRow !!! 0%nat in
  let first_trichord_p0 : gset Z := list_to_set (take 3 (matrix !!! 0%nat)) in
  let second_trichord_p0 : gset Z := list_to_set (take 3 (drop 3 (matrix !!! 0%nat))) in
  let third_trichord_p0 : gset Z := list_to_set (take 3 (drop 6 (matrix !!! 0%nat))) in
  let fourth_trichord_p0 : gset Z := list_to_set (take 3 (drop 9 (matrix !!! 0%nat))) in
  foldl (λ combinatorials_list (col_index : nat),
    let inversion_form := ToneRow.column matrix col_index in
    let retrograde_inversion_form := reverse inversion_form in
    let first_trichord_ri : gset Z := list_to_set (take 3 retrograde_inversion_form) in
    let second_trichord_ri : gset Z := list_to_set (take 3 (drop 3 retrograde_inversion_form)) in
    let third_trichord_ri : gset Z := list_to_set (take 3 (drop 6 retrograde_inversion_form)) in
    let fourth_trichord_ri : gset Z := list_to_set (take 3 (drop 9 retrograde_inversion_form)) in
    let retrograde_inversion_form_trichords := [first_trichord_ri; second_trichord_ri; third_trichord_ri; fourth_trichord_ri] in
    let '(found_first_trichord_p0_match, retrograde_inversion_form_trichords) :=
      find_match first_trichord_p0 retrograde_inversion_form_trichords in
    if negb found_first_trichord_p0_match then combinatorials_list else
    let '(found_second_trichord_p0_match, retrograde_inversion_form_trichords) :=
      find_match second_trichord_p0 retrograde_inversion_form_trichords in
    if negb found_second_trichord_p0_match then combinatorials_list else
    let '(found_third_trichord_p0_match, retrograde_inversion_form_trichords) :=
      find_match third_trichord_p0 retrograde_inversion_form_trichords in
    if negb found_third_trichord_p0_match then combinatorials_list else
    if bool_decide (length retrograde_inversion_form_trichords ≠ 1%nat) then combinatorials_list else
    let found_fourth_trichord_p0_match :=
      bool_decide (fourth_trichord_p0 = retrograde_inversion_form_trichords !!! 0%nat) in
    if negb found_fourth_trichord_p0_match then combinatorials_list else
    let first_note_current_ri := retrograde_inversion_form !!! 0%nat in
    let ri_level := first_note_current_ri - first_note_ri0 in
    let ri_level := ri_level + 12 in
    let ri_level := ri_level mod 12 in
    combinatorials_list ++ ["RI" +:+ pretty ri_level])
    [] (seq 0 (length matrix)).

Definition all_trichordal_combinatorials (toneRow : ToneRow.t) : list string :=
  prime_combinatorials toneRow ++ retrograde_combinatorials toneRow
  ++ inversion_combinatorials toneRow
  ++ retrograde_inversion_combinatorials toneRow.

End CombinatorialTrichords.

(** ** The vocabulary of the specification *)

(** The inversion row of step 2: [inversion[i] = (-row[i]) mod 12]. *)
Definition inversion_of (row : list Z) : list Z := (λ x, (- x) mod 12) <$> row.

(** A row transposed elementwise by an interval. *)
Definition transposed (row : list Z) (interval : Z) : list Z :=
  (λ x, (x + interval) mod 12) <$> row.

(** The statement "column 0 is [(-R[i]) mod 12] at every [i]", for one row. *)
Definition column0_is_negation (R : list Z) : Prop :=
  ∀ m : list (list Z), ToneRow.twelvetone_matrix R = inr m →
  ∀ i : nat, (i < 12)%nat → (m !!! i) !!! 0%nat = (- R !!! i) mod 12.

(** The four operation kinds, the prefix of their labels, and the label
    [K<t>]. *)
Inductive kind : Type := Prime | Retrograde | Inversion | RetrogradeInversion.

Definition prefix (K : kind) : string :=
  match K with
  | Prime => "P"
  | Retrograde => "R"
  | Inversion => "I"
  | RetrogradeInversion => "RI"
  end.

Definition label (K : kind) (t : Z) : string := prefix K +:+ pretty t.

(** The candidate forms of a kind: the rows of the matrix, the reversed
    rows, the columns, the reversed columns. *)
Definition candidate_form (K : kind) (matrix : list (list Z)) (i : nat) : list Z :=
  match K with
  | Prime => matrix !!! i
  | Retrograde => reverse (matrix !!! i)
  | Inversion => ToneRow.column matrix i
  | RetrogradeInversion => reverse (ToneRow.column matrix i)
  end.

(** The reference forms P0, R0, I0 and RI0. *)
Definition reference_form (K : kind) (toneRow : ToneRow.t) : list Z :=
  match K with
  | Prime => ToneRow.prime_row toneRow
  | Retrograde => ToneRow.retrograde toneRow
  | Inversion => ToneRow.inversion toneRow
  | RetrogradeInversion => ToneRow.retrograde_inversion toneRow
  end.

(** [(firstNoteOfCandidateForm - firstNoteOfReferenceForm + 12) mod 12] *)
Definition level (K : kind) (toneRow : ToneRow.t) (i : nat) : Z :=
  (candidate_form K (ToneRow.matrix toneRow) i !!! 0%nat
   - reference_form K toneRow !!! 0%nat + 12) mod 12.

(** [Partition(row, segmentSize)]: consecutive chunks, each as a set. *)
Fixpoint chunks (size count : nat) (row : list Z) : list (gset Z) :=
  match count with
  | O => []
  | S count' => list_to_set (take size row) :: chunks size count' (drop size row)
  end.

Definition Partition (row : list Z) (segmentSize : nat) : list (gset Z) :=
  chunks segmentSize (12 / segmentSize) row.

(** [MatchesAsMultiset]: the same sets, each as often, in any order. *)
Definition MatchesAsMultiset (candidateSegments referenceSegments : list (gset Z))
    : Prop :=
  candidateSegments ≡ₚ referenceSegments.

(** P and R leave out level 0; I and RI do not. *)
Definition excludes_level_0 (K : kind) : bool :=
  match K with
  | Prime | Retrograde => true
  | Inversion | RetrogradeInversion => false
  end.

(** The detectors, by kind. *)
Definition hexachord_detector (K : kind) : ToneRow.t → list string :=
  match K with
  | Prime => CombinatorialHexachords.prime_combinatorials
  | Retrograde => CombinatorialHexachords.retrograde_combinatorials
  | Inversion => CombinatorialHexachords.inversion_combinatorials
  | RetrogradeInversion => CombinatorialHexachords.retrograde_inversion_combinatorials
  end.

Definition tetrachord_detector (K : kind) : ToneRow.t → list string :=
  match K with
  | Prime => CombinatorialTetrachords.prime_combinatorials
  | Retrograde => CombinatorialTetrachords.retrograde_combinatorials
  | Inversion => CombinatorialTetrachords.inversion_combinatorials
  | RetrogradeInversion => CombinatorialTetrachords.retrograde_inversion_combinatorials
  end.

Definition trichord_detector (K : kind) : ToneRow.t → list string :=
  match K with
  | Prime => CombinatorialTrichords.prime_combinatorials
  | Retrograde => CombinatorialTrichords.retrograde_combinatorials
  | Inversion => CombinatorialTrichords.inversion_combinatorials
  | RetrogradeInversion => CombinatorialTrichords.retrograde_inversion_combinatorials
  end.

(** In the words of the specification, what a hexachord detector emits for
    candidate [i]: its label, if its first hexachord is disjoint from that
    of P0 and its level is not 0. *)
Definition hexachord_label (K : kind) (toneRow : ToneRow.t) (i : nat)
    : option string :=
  let matrix := ToneRow.matrix toneRow in
  if decide ((list_to_set (take 6 (candidate_form K matrix i)) : gset Z)
               ## list_to_set (take 6 (matrix !!! 0%nat))
             ∧ level K toneRow i ≠ 0)
  then Some (label K (level K toneRow i))
  else None.

(** In the words of the specification, what a tetrachord ([size = 4]) or
    trichord ([size = 3]) detector emits for candidate [i]: its label, if
    its partition matches that of P0 and, for P and R, its level is not 0. *)
Definition segment_label (size : nat) (K : kind) (toneRow : ToneRow.t) (i : nat)
    : option string :=
  let matrix := ToneRow.matrix toneRow in
  if decide (MatchesAsMultiset (Partition (candidate_form K matrix i) size)
                               (Partition (matrix !!! 0%nat) size)
             ∧ (excludes_level_0 K = true → level K toneRow i ≠ 0))
  then Some (label K (level K toneRow i))
  else None.

(** The matching part that every tetrachord detector repeats, on its own:
    two runs of the loop, then the test on what is left. *)
Definition greedy3 (first second third : gset Z) (forms : list (gset Z)) : bool :=
  let '(found_first, forms) := find_match first forms in
  if negb found_first then false else
  let '(found_second, forms) := find_match second forms in
  if negb found_second then false else
  if bool_decide (length forms ≠ 1%nat) then false else
  bool_decide (third = forms !!! 0%nat).

(** The same for the trichord detectors, with three runs of the loop. *)
Definition greedy4 (first second third fourth : gset Z) (forms : list (gset Z))
    : bool :=
  let '(found_first, forms) := find_match first forms in
  if negb found_first then false else
  let '(found_second, forms) := find_match second forms in
  if negb found_second then false else
  let '(found_third, forms) := find_match third forms in
  if negb found_third then false else
  if bool_decide (length forms ≠ 1%nat) then false else
  bool_decide (fourth = forms !!! 0%nat).

(** Lexicographic comparison of two sequences, as Python compares lists and
    tuples with [<]. *)
Fixpoint lex_ltb (a b : list Z) : bool :=
  match a, b with
  | _, [] => false
  | [], _ :: _ => true
  | x :: a', y :: b' =>
      if bool_decide (x < y) then true
      else if bool_decide (x = y) then lex_ltb a' b'
      else false
  end.

Definition lex_lt (a b : list Z) : Prop := lex_ltb a b = true.

(** The factorial, as an integer. *)
Fixpoint factZ (n : nat) : Z :=
  match n with
  | O => 1
  | S n' => Z.of_nat n * factZ n'
  end.

(** ** Further vocabulary *)

(** The four kinds, in the order in which the [all_..._combinatorials]
    functions run the detectors. *)
Definition kinds : list kind := [Prime; Retrograde; Inversion; RetrogradeInversion].

(** The labels with a level from [lowest K] to 11. *)
Definition labels_from (lowest : kind → Z) : list string :=
  K ← kinds; label K <$> seqZ (lowest K) (12 - lowest K).

(** The first notes of the twelve candidate forms of a kind, in order, are
    one line of the matrix: column 0 for P, column 11 for R, row 0 for I and
    row 11 for RI. *)
Definition first_notes (K : kind) (matrix : list (list Z)) : list Z :=
  match K with
  | Prime => ToneRow.column matrix 0
  | Retrograde => ToneRow.column matrix 11
  | Inversion => matrix !!! 0%nat
  | RetrogradeInversion => matrix !!! 11%nat
  end.

(** What is shared by the twelve detectors: the output is a filtering map
    over the twelve candidates that gives candidate [i] the label of its
    level or nothing. *)
Definition labels_by_level (K : kind) (toneRow : ToneRow.t) (lowest : Z)
    (output : list string) : Prop :=
  ∃ emit : nat → option string,
    output = omap emit (seq 0 12) ∧
    ∀ i s, emit i = Some s →
      s = label K (level K toneRow i) ∧ lowest ≤ level K toneRow i.

(** The lowest level a detector of a kind reports. *)
Definition lowest_level (K : kind) : Z := if excludes_level_0 K then 1 else 0.

(** The form read backwards of each kind. *)
Definition backwards (K : kind) : kind :=
  match K with
  | Prime => Retrograde
  | Retrograde => Prime
  | Inversion => RetrogradeInversion
  | RetrogradeInversion => Inversion
  end.

(** ** Strings: [str.join] and [sorted] *)

(** [sep.join(items)] *)
Fixpoint str_join (sep : string) (items : list string) : string :=
  match items with
  | [] => EmptyString
  | [x] => x
  | x :: rest => x +:+ sep +:+ str_join sep rest
  end.

(** Python orders strings by the code points of their characters, a proper
    prefix coming first; [String.leb] does so on the characters of [string]. *)
Definition str_le (a b : string) : Prop := String.leb a b = true.

#[global] Instance str_le_dec : RelDecision str_le :=
  λ a b, decide (String.leb a b = true).

(** [sorted(items)] on a list of strings *)
Definition sorted (items : list string) : list string := merge_sort str_le items.

(** ** [CombinatorialTableEntry] *)

Module CombinatorialTableEntry.

Record t : Type := Build { tone_row : ToneRow.t }.

(** [' '.join(str(pitch) for pitch in prime_array)] *)
Definition prime_row_string (self : t) : string :=
  let prime_array := ToneRow.prime_row (tone_row self) in
  str_join " " (pretty <$> prime_array).

Definition hexachordal_combinatorials_string (self : t) : string :=
  let combinatorials :=
    CombinatorialHexachords.all_hexachordal_combinatorials (tone_row self) in
  str_join " " (sorted combinatorials).

Definition tetrachordal_combinatorials_string (self : t) : string :=
  let combinatorials :=
    CombinatorialTetrachords.all_tetrachordal_combinatorials (tone_row self) in
  str_join " " (sorted combinatorials).

Definition trichordal_combinatorials_string (self : t) : string :=
  let combinatorials :=
    CombinatorialTrichords.all_trichordal_combinatorials (tone_row self) in
  str_join " " (sorted combinatorials).

(** The double quote character. *)
Definition quote : string := String (Ascii.ascii_of_nat 34) EmptyString.

(** [to_csv_row]: each field between double quotes, the fields joined by
    commas. *)
Definition to_csv_row (self : t) : string :=
  let fields :=
    [ quote +:+ prime_row_string self +:+ quote;
      quote +:+ hexachordal_combinatorials_string self +:+ quote;
      quote +:+ tetrachordal_combinatorials_string self +:+ quote;
      quote +:+ trichordal_combinatorials_string self +:+ quote ] in
  str_join "," fields.

Definition get_csv_header (self : t) : string :=
  "prime_row,hexachordal_combinatorials,tetrachordal_combinatorials,trichordal_combinatorials".

(** [to_dict]: a dictionary with four keys. *)
Definition to_dict (self : t) : gmap string string :=
  <["trichordal_combinatorials" := trichordal_combinatorials_string self]>
  (<["tetrachordal_combinatorials" := tetrachordal_combinatorials_string self]>
  (<["hexachordal_combinatorials" := hexachordal_combinatorials_string self]>
  (<["prime_row" := prime_row_string self]> ∅))).

End CombinatorialTableEntry.

(** The sizes of the columns in the [CREATE TABLE] statement of
    [DatabaseWriter.create_combinatorials_table]: [tone_row VARCHAR2(25)]
    and [VARCHAR2(250)] for each list of combinatorials. *)
Definition TONE_ROW_SIZE : nat := 25.
Definition COMBINATORIALS_SIZE : nat := 250.

(** The number of occurrences of a character in a string. *)
Fixpoint count_char (c : Ascii.ascii) (s : string) : nat :=
  match s with
  | EmptyString => 0
  | String c' s' => (if bool_decide (c' = c) then 1 else 0) + count_char c s'
  end.

Definition comma : Ascii.ascii := Ascii.ascii_of_nat 44.
Definition quote_char : Ascii.ascii := Ascii.ascii_of_nat 34.

(** ** [DatabaseWriter]

    The database is outside the program.  What is modelled of the writer is
    the sequence of calls it makes on the driver, on a run in which no call
    on the driver raises; printing is left out. *)

Module DatabaseWriter.

Definition COMBINATORIAL_TABLE_NAME : string := "twelvetone_combinatorials".

Inductive call : Type :=
  | Connect
  | DropTableIfExists (name : string)
  | CreateTable (name : string)
  | Insert (name tone_row hexachordal tetrachordal trichordal : string)
  | Commit
  | Rollback
  | Close.

(** What the loop of [populate_combinatorials_table] can raise: the
    constructor's exception, or [StopIteration] from [next] on an exhausted
    generator. *)
Inductive raised : Type :=
  | Exception (e : exn)
  | StopIteration.

(** [create_combinatorials_table] *)
Definition create_combinatorials_table : list call :=
  [Connect;
   DropTableIfExists COMBINATORIAL_TABLE_NAME;
   CreateTable COMBINATORIAL_TABLE_NAME;
   Commit;
   Close].

(** The [for _ in range(iteration_range)] loop, [n] iterations from the
    state given: the generator, [batch_count] and [total_processed].  It
    gives the calls made and either the final counters or what was raised. *)
Fixpoint populate_loop (n : nat) (permutation_iterator : list (list Z))
    (batchSize batch_count total_processed : Z)
    : (raised + Z * Z) * list call :=
  match n with
  | O => (inr (batch_count, total_processed), [])
  | S n' =>
      match permutation_iterator with
      | [] => (inl StopIteration, [])
      | prime_row_array :: permutation_iterator =>
          match ToneRow.init prime_row_array with
          | inl e => (inl (Exception e), [])
          | inr new_tonerow =>
              let new_table_entry := CombinatorialTableEntry.Build new_tonerow in
              let insert :=
                Insert COMBINATORIAL_TABLE_NAME
                  (CombinatorialTableEntry.prime_row_string new_table_entry)
                  (CombinatorialTableEntry.hexachordal_combinatorials_string
                     new_table_entry)
                  (CombinatorialTableEntry.tetrachordal_combinatorials_string
                     new_table_entry)
                  (CombinatorialTableEntry.trichordal_combinatorials_string
                     new_table_entry) in
              let batch_count := batch_count + 1 in
              let total_processed := total_processed + 1 in
              let commit := bool_decide (batch_count >= batchSize) in
              let batch_count := if commit then 0 else batch_count in
              let '(outcome, calls) :=
                populate_loop n' permutation_iterator batchSize batch_count
                  total_processed in
              (outcome, insert :: (if commit then [Commit] else []) ++ calls)
          end
      end
  end.

(** [populate_combinatorials_table]: the result ([None] on return, the
    exception on a raise, which the [except] clause passes on after the
    rollback) and the calls made. *)
Definition iteration_range (limitForTesting : Z) : Z :=
  if bool_decide (limitForTesting ≠ 0) then limitForTesting else factZ 11.

Definition populate_combinatorials_table (batchSize limitForTesting : Z)
    : option raised * list call :=
  let created := create_combinatorials_table in
  let permutation_iterator := ToneRow.tonerows_starting_with_zero_iterator in
  let '(outcome, calls) :=
    populate_loop (Z.to_nat (iteration_range limitForTesting))
      permutation_iterator batchSize 0 0 in
  match outcome with
  | inr (batch_count, total_processed) =>
      let last_commit := if bool_decide (batch_count > 0) then [Commit] else [] in
      (None, created ++ [Connect] ++ calls ++ last_commit ++ [Close])
  | inl e =>
      (Some e, created ++ [Connect] ++ calls ++ [Rollback] ++ [Close])
  end.

(** [remove_combinatorials_table] *)
Definition remove_combinatorials_table : list call :=
  [Connect; DropTableIfExists COMBINATORIAL_TABLE_NAME; Commit; Close].

End DatabaseWriter.

(** The keys inserted by a sequence of calls, in order. *)
Definition inserted_keys (calls : list DatabaseWriter.call) : list string :=
  omap (λ c, match c with
             | DatabaseWriter.Insert _ key _ _ _ => Some key
             | _ => None
             end) calls.

(** The number of rows inserted and not yet committed after a sequence of
    calls, when [pending] were before it. *)
Definition uncommitted (pending : nat) (calls : list DatabaseWriter.call) : nat :=
  foldl (λ pending c,
           match c with
           | DatabaseWriter.Insert _ _ _ _ _ => S pending
           | DatabaseWriter.Commit | DatabaseWriter.Rollback => O
           | _ => pending
           end) pending calls.

(** The key of a row: the prime row as a string. *)
Definition key_of (row : list Z) : string := str_join " " (pretty <$> row).

(** The number of commits in a sequence of calls. *)
Definition is_commit (c : DatabaseWriter.call) : bool :=
  match c with DatabaseWriter.Commit => true | _ => false end.

Definition commits (calls : list DatabaseWriter.call) : nat :=
  length (List.filter is_commit calls).

(** ** Sample rows *)

Definition identity_row : list Z := seqZ 0 12.
Definition webern_row : list Z := [0; 11; 3; 4; 8; 7; 9; 5; 6; 1; 2; 10].
Definition row_6_20 : list Z := [0; 1; 4; 5; 8; 9; 2; 3; 6; 7; 10; 11].
(** A valid row that does not start on pitch class 0. *)
Definition row_from_one : list Z := [1; 0; 2; 3; 4; 5; 6; 7; 8; 9; 10; 11].

(** A valid row whose inversion I0 has the trichords of the row itself. *)
Definition trichord_symmetric_row : list Z :=
  [0; 1; 11; 6; 5; 7; 2; 3; 4; 10; 9; 8].

(** * Properties *)

(** Case analysis on a pitch class. *)
Ltac cases12 t :=
  let H := fresh in
  assert (t = 0 ∨ t = 1 ∨ t = 2 ∨ t = 3 ∨ t = 4 ∨ t = 5 ∨ t = 6 ∨ t = 7
          ∨ t = 8 ∨ t = 9 ∨ t = 10 ∨ t = 11) as H by lia;
  repeat (destruct H as [-> | H]); [..| subst t].


(** ** Validity *)

Lemma is_valid_tonerow_spec (toneRow : list Z) :
  ToneRow.is_valid_tonerow toneRow = true ↔
  length toneRow = 12%nat ∧ list_to_set toneRow = ToneRow.pitch_classes.
Proof.
  unfold ToneRow.is_valid_tonerow.
  rewrite andb_true_iff, !bool_decide_eq_true. reflexivity.
Qed.

Lemma is_valid_tonerow_Permutation (toneRow : list Z) :
  ToneRow.is_valid_tonerow toneRow = true ↔ toneRow ≡ₚ seqZ 0 12.
Proof.
  rewrite is_valid_tonerow_spec. split.
  - intros [Hlen Hset]. symmetry.
    apply submseteq_length_Permutation.
    + apply NoDup_submseteq; [apply NoDup_seqZ|].
      intros x Hx.
      apply (elem_of_list_to_set (C := gset Z)).
      rewrite Hset. apply elem_of_list_to_set, Hx.
    + rewrite Hlen. reflexivity.
  - intros Hp. split.
    + rewrite Hp. reflexivity.
    + unfold ToneRow.pitch_classes. apply set_eq. intros x.
      rewrite !elem_of_list_to_set, Hp. reflexivity.
Qed.

Lemma valid_length (toneRow : list Z) :
  ToneRow.is_valid_tonerow toneRow = true → length toneRow = 12%nat.
Proof. rewrite is_valid_tonerow_spec. tauto. Qed.

Lemma valid_range (toneRow : list Z) (x : Z) :
  ToneRow.is_valid_tonerow toneRow = true → x ∈ toneRow → 0 ≤ x < 12.
Proof.
  rewrite is_valid_tonerow_Permutation. intros Hp Hx. rewrite Hp in Hx.
  apply elem_of_seqZ in Hx. lia.
Qed.

Lemma valid_NoDup (toneRow : list Z) :
  ToneRow.is_valid_tonerow toneRow = true → NoDup toneRow.
Proof.
  rewrite is_valid_tonerow_Permutation. intros Hp. rewrite Hp. apply NoDup_seqZ.
Qed.

Lemma valid_lookup_total_range (toneRow : list Z) (i : nat) :
  ToneRow.is_valid_tonerow toneRow = true → (i < 12)%nat →
  0 ≤ toneRow !!! i < 12.
Proof.
  intros Hv Hi. apply (valid_range toneRow); [done|].
  apply list_elem_of_lookup_total_2. rewrite (valid_length _ Hv). done.
Qed.

(** ** The matrix *)

Lemma matrix_of_rows (primeRow : list Z) :
  ToneRow.matrix_of primeRow =
  primeRow ::
    ((λ i : nat,
        transposed primeRow
          ((inversion_of primeRow !!! i - inversion_of primeRow !!! 0%nat) mod 12))
       <$> seq 1 11).
Proof. reflexivity. Qed.

Lemma twelvetone_matrix_valid (primeRow : list Z) :
  ToneRow.is_valid_tonerow primeRow = true →
  ToneRow.twelvetone_matrix primeRow = inr (ToneRow.matrix_of primeRow).
Proof.
  intros Hv. unfold ToneRow.twelvetone_matrix.
  rewrite bool_decide_eq_true_2 by (by apply valid_length). reflexivity.
Qed.

Lemma init_valid (primeRow : list Z) :
  ToneRow.is_valid_tonerow primeRow = true →
  ToneRow.init primeRow = inr (ToneRow.Build (ToneRow.matrix_of primeRow)).
Proof.
  intros Hv. unfold ToneRow.init. rewrite Hv. simpl.
  rewrite twelvetone_matrix_valid by done. reflexivity.
Qed.

Lemma init_inv (primeRow : list Z) (tr : ToneRow.t) :
  ToneRow.init primeRow = inr tr →
  ToneRow.is_valid_tonerow primeRow = true ∧
  ToneRow.matrix tr = ToneRow.matrix_of primeRow.
Proof.
  unfold ToneRow.init.
  destruct (ToneRow.is_valid_tonerow primeRow) eqn:Hv; simpl; [|done].
  rewrite twelvetone_matrix_valid by done. intros [= <-]. done.
Qed.

Lemma length_matrix_of (primeRow : list Z) :
  length (ToneRow.matrix_of primeRow) = 12%nat.
Proof. reflexivity. Qed.

Lemma inversion_of_lookup_total (row : list Z) (i : nat) :
  (i < length row)%nat → inversion_of row !!! i = (- row !!! i) mod 12.
Proof.
  intros Hi. unfold inversion_of. apply list_lookup_total_correct.
  rewrite list_lookup_fmap, (list_lookup_lookup_total_lt row i Hi). reflexivity.
Qed.

Lemma transposed_lookup_total (row : list Z) (t : Z) (j : nat) :
  (j < length row)%nat → transposed row t !!! j = (row !!! j + t) mod 12.
Proof.
  intros Hj. unfold transposed. apply list_lookup_total_correct.
  rewrite list_lookup_fmap, (list_lookup_lookup_total_lt row j Hj). reflexivity.
Qed.

Lemma length_transposed (row : list Z) (t : Z) :
  length (transposed row t) = length row.
Proof. apply length_fmap. Qed.

(** Row [i] of the matrix, for every index. *)
Lemma matrix_of_lookup (primeRow : list Z) (i : nat) :
  (1 ≤ i ≤ 11)%nat →
  ToneRow.matrix_of primeRow !! i =
  Some (transposed primeRow
          ((inversion_of primeRow !!! i - inversion_of primeRow !!! 0%nat) mod 12)).
Proof.
  intros Hi. rewrite matrix_of_rows.
  do 12 (destruct i as [|i]; [first [lia | reflexivity]|]). lia.
Qed.

Lemma mod12_interval (a b c : Z) :
  (a + ((- b) mod 12 - (- c) mod 12) mod 12) mod 12 = (a + c - b) mod 12.
Proof.
  rewrite Zplus_mod_idemp_r, Z.add_sub_assoc, Zminus_mod_idemp_r.
  replace (a + (- b) mod 12 - - c) with ((a + c) + (- b) mod 12) by lia.
  rewrite Zplus_mod_idemp_r. reflexivity.
Qed.

(** The interval of row [i] brings the first note of the row onto the
    [i]-th note of the inversion about the first note. *)
Lemma matrix_of_entry (primeRow : list Z) (i j : nat) :
  length primeRow = 12%nat → (1 ≤ i ≤ 11)%nat → (j < 12)%nat →
  (ToneRow.matrix_of primeRow !!! i) !!! j =
  (primeRow !!! j + primeRow !!! 0%nat - primeRow !!! i) mod 12.
Proof.
  intros Hlen Hi Hj.
  rewrite (list_lookup_total_correct _ _ _ (matrix_of_lookup primeRow i Hi)).
  rewrite transposed_lookup_total, !inversion_of_lookup_total by lia.
  apply mod12_interval.
Qed.

(** C3.  For a valid row the matrix has twelve rows; row 0 is the prime row
    itself; and for [i] from 1 to 11 row [i] is the prime row transposed by
    [(inversion[i] - inversion[0]) mod 12], that is
    [matrix[i][j] = (R[j] + ((-R[i]) mod 12 - (-R[0]) mod 12)) mod 12]. *)
Theorem matrix_construction (R : list Z) :
  ToneRow.is_valid_tonerow R = true →
  ∃ m : list (list Z),
    ToneRow.twelvetone_matrix R = inr m ∧
    length m = 12%nat ∧
    m !! 0%nat = Some R ∧
    ∀ i : nat, (1 ≤ i ≤ 11)%nat →
      m !! i = Some (transposed R
                       ((inversion_of R !!! i - inversion_of R !!! 0%nat) mod 12)) ∧
      inversion_of R !!! i = (- R !!! i) mod 12 ∧
      inversion_of R !!! 0%nat = (- R !!! 0%nat) mod 12 ∧
      ∀ j : nat, (j < 12)%nat →
        (m !!! i) !!! j =
        (R !!! j + ((- R !!! i) mod 12 - (- R !!! 0%nat) mod 12)) mod 12.
Proof.
  intros Hv. pose proof (valid_length R Hv) as Hlen.
  exists (ToneRow.matrix_of R). split; [by apply twelvetone_matrix_valid|].
  split; [reflexivity|]. split; [reflexivity|].
  intros i Hi. split; [by apply matrix_of_lookup|].
  split; [apply inversion_of_lookup_total; lia|].
  split; [apply inversion_of_lookup_total; lia|].
  intros j Hj.
  rewrite (list_lookup_total_correct _ _ _ (matrix_of_lookup R i Hi)).
  rewrite transposed_lookup_total, !inversion_of_lookup_total by lia.
  rewrite Zplus_mod_idemp_r. reflexivity.
Qed.

Lemma matrix_construction_witness :
  ToneRow.is_valid_tonerow webern_row = true ∧
  ∃ m : list (list Z),
    ToneRow.twelvetone_matrix webern_row = inr m ∧
    m !! 1%nat = Some [1; 0; 4; 5; 9; 8; 10; 6; 7; 2; 3; 11].
Proof.
  split; [vm_compute; reflexivity|].
  destruct (matrix_construction webern_row) as (m & Hm & _ & _ & Hrows);
    [vm_compute; reflexivity|].
  exists m. split; [exact Hm|].
  destruct (Hrows 1%nat) as [-> _]; [lia|]. vm_compute. reflexivity.
Defined.

(** ** Rows and columns are tone rows *)

Lemma list_as_lookups {A} `{Inhabited A} (l : list A) :
  l = (λ i : nat, l !!! i) <$> seq 0 (length l).
Proof.
  apply list_eq. intros i. rewrite list_lookup_fmap.
  destruct (decide (i < length l)%nat) as [Hi | Hi].
  - rewrite lookup_seq_lt by done. simpl.
    by apply list_lookup_lookup_total_lt.
  - rewrite lookup_seq_ge by lia. simpl. apply lookup_ge_None. lia.
Qed.

Lemma transposed_mod (row : list Z) (t : Z) :
  transposed row t = transposed row (t mod 12).
Proof.
  unfold transposed. apply list_fmap_ext. intros _ x _.
  by rewrite Zplus_mod_idemp_r.
Qed.

Lemma valid_transposed (row : list Z) (t : Z) :
  ToneRow.is_valid_tonerow row = true →
  ToneRow.is_valid_tonerow (transposed row t) = true.
Proof.
  rewrite !is_valid_tonerow_Permutation. intros Hp.
  rewrite transposed_mod. unfold transposed. rewrite Hp.
  pose proof (Z.mod_pos_bound t 12 ltac:(lia)) as Ht.
  generalize dependent (t mod 12). clear t. intros t Ht.
  apply is_valid_tonerow_Permutation.
  cases12 t; vm_compute; reflexivity.
Qed.

(** The mirror image of a row about a centre: [x ↦ (c - x) mod 12]. *)
Lemma valid_mirrored (row : list Z) (c : Z) :
  ToneRow.is_valid_tonerow row = true →
  ToneRow.is_valid_tonerow ((λ x, (c - x) mod 12) <$> row) = true.
Proof.
  rewrite !is_valid_tonerow_Permutation. intros Hp.
  assert ((λ x, (c - x) mod 12) <$> row = (λ x, (c mod 12 - x) mod 12) <$> row)
    as -> by (apply list_fmap_ext; intros _ x _; by rewrite Zminus_mod_idemp_l).
  rewrite Hp.
  pose proof (Z.mod_pos_bound c 12 ltac:(lia)) as Hc.
  generalize dependent (c mod 12). clear c. intros c Hc.
  apply is_valid_tonerow_Permutation.
  cases12 c; vm_compute; reflexivity.
Qed.

Lemma column_matrix_of (primeRow : list Z) (j : nat) :
  ToneRow.is_valid_tonerow primeRow = true → (j < 12)%nat →
  ToneRow.column (ToneRow.matrix_of primeRow) j =
  (λ x, (primeRow !!! j + primeRow !!! 0%nat - x) mod 12) <$> primeRow.
Proof.
  intros Hv Hj. pose proof (valid_length _ Hv) as Hlen.
  assert (∀ g : Z → Z,
            g <$> primeRow = (λ i : nat, g (primeRow !!! i)) <$> seq 0 12) as Hg.
  { intros g. rewrite (list_as_lookups primeRow) at 1.
    by rewrite <- list_fmap_compose, Hlen. }
  rewrite Hg.
  rewrite (list_as_lookups (ToneRow.matrix_of primeRow)), length_matrix_of.
  unfold ToneRow.column. rewrite <- list_fmap_compose.
  apply list_fmap_ext. intros _ i Hi%list_elem_of_lookup_2.
  apply elem_of_seq in Hi. simpl.
  destruct (decide (i = 0%nat)) as [-> | Hne].
  - change (ToneRow.matrix_of primeRow !!! 0%nat) with primeRow.
    replace (primeRow !!! j + primeRow !!! 0%nat - primeRow !!! 0%nat)
      with (primeRow !!! j) by lia.
    symmetry. apply Z.mod_small. by apply valid_lookup_total_range.
  - apply matrix_of_entry; lia.
Qed.

(** C5.  Every row and every column of the matrix of a valid row is a valid
    tone row. *)
Theorem matrix_rows_columns_valid (R : list Z) :
  ToneRow.is_valid_tonerow R = true →
  ∃ m : list (list Z),
    ToneRow.twelvetone_matrix R = inr m ∧
    length m = 12%nat ∧
    (∀ i : nat, (i < 12)%nat → ToneRow.is_valid_tonerow (m !!! i) = true) ∧
    (∀ j : nat, (j < 12)%nat →
       ToneRow.is_valid_tonerow (ToneRow.column m j) = true).
Proof.
  intros Hv. exists (ToneRow.matrix_of R).
  split; [by apply twelvetone_matrix_valid|]. split; [reflexivity|]. split.
  - intros i Hi. destruct (decide (i = 0%nat)) as [-> | Hne]; [exact Hv|].
    assert (1 ≤ i ≤ 11)%nat as Hi' by lia.
    rewrite (list_lookup_total_correct _ _ _ (matrix_of_lookup R i Hi')).
    by apply valid_transposed.
  - intros j Hj. rewrite column_matrix_of by done. by apply valid_mirrored.
Qed.

Lemma matrix_rows_columns_valid_witness :
  ToneRow.is_valid_tonerow webern_row = true ∧
  ∃ m : list (list Z),
    ToneRow.twelvetone_matrix webern_row = inr m ∧
    ToneRow.is_valid_tonerow (m !!! 3%nat) = true ∧
    ToneRow.is_valid_tonerow (ToneRow.column m 5) = true.
Proof.
  split; [vm_compute; reflexivity|].
  destruct (matrix_rows_columns_valid webern_row) as (m & Hm & _ & Hr & Hc);
    [vm_compute; reflexivity|].
  exists m. split; [exact Hm|]. split; [apply Hr | apply Hc]; lia.
Defined.

(** ** Column 0 *)

(** C4, as stated, fails on a valid row that starts on pitch class 1: the
    first entry of column 0 is the first note of the row, 1, and not
    [(-1) mod 12 = 11]. *)
Lemma column0_negation_counterexample :
  ToneRow.is_valid_tonerow row_from_one = true ∧
  ¬ column0_is_negation row_from_one.
Proof.
  split; [vm_compute; reflexivity|].
  intros H.
  specialize (H (ToneRow.matrix_of row_from_one) eq_refl 0%nat).
  vm_compute in H. assert (1 = 11) as Habs by (apply H; lia). discriminate Habs.
Qed.

Lemma self_inverse_pitch (r : Z) :
  0 ≤ r < 12 → r = (- r) mod 12 → r = 0 ∨ r = 6.
Proof.
  intros Hr H. cases12 r; first [lia | vm_compute in H; discriminate H].
Qed.

(** C4, amended.  Column 0 of the matrix of a valid row is the inversion of
    the row about its first note, [matrix[i][0] = (2 R[0] - R[i]) mod 12],
    so it starts on [R[0]]; it is [(-R[i]) mod 12] at every [i] exactly
    when [R[0]] is 0 or 6. *)
Theorem column0_inversion (R : list Z) :
  ToneRow.is_valid_tonerow R = true →
  ∃ m : list (list Z),
    ToneRow.twelvetone_matrix R = inr m ∧
    ToneRow.column m 0 = (λ x, (2 * R !!! 0%nat - x) mod 12) <$> R ∧
    (∀ i : nat, (i < 12)%nat →
       (m !!! i) !!! 0%nat = (2 * R !!! 0%nat - R !!! i) mod 12) ∧
    (m !!! 0%nat) !!! 0%nat = R !!! 0%nat ∧
    (column0_is_negation R ↔ R !!! 0%nat = 0 ∨ R !!! 0%nat = 6).
Proof.
  intros Hv. pose proof (valid_length R Hv) as Hlen.
  pose proof (valid_lookup_total_range R 0 Hv ltac:(lia)) as H0.
  assert (∀ i : nat, (i < 12)%nat →
            (ToneRow.matrix_of R !!! i) !!! 0%nat
            = (2 * R !!! 0%nat - R !!! i) mod 12) as Hcol.
  { intros i Hi. destruct (decide (i = 0%nat)) as [-> | Hne].
    - change (ToneRow.matrix_of R !!! 0%nat) with R.
      replace (2 * R !!! 0%nat - R !!! 0%nat) with (R !!! 0%nat) by lia.
      symmetry. by apply Z.mod_small.
    - rewrite matrix_of_entry by lia. f_equal. lia. }
  exists (ToneRow.matrix_of R).
  split; [by apply twelvetone_matrix_valid|]. split.
  { rewrite column_matrix_of by (done || lia).
    apply list_fmap_ext. intros _ x _. f_equal. lia. }
  split; [exact Hcol|]. split; [reflexivity|].
  unfold column0_is_negation. rewrite twelvetone_matrix_valid by done. split.
  - intros H. specialize (H _ eq_refl 0%nat ltac:(lia)).
    change (ToneRow.matrix_of R !!! 0%nat) with R in H.
    by apply self_inverse_pitch.
  - intros H06 m [= <-] i Hi. rewrite Hcol by done.
    destruct H06 as [-> | ->].
    + reflexivity.
    + replace (2 * 6 - R !!! i) with (- R !!! i + 1 * 12) by lia.
      apply Z_mod_plus_full.
Qed.

Lemma column0_inversion_witness :
  ToneRow.is_valid_tonerow row_from_one = true ∧
  ∃ m : list (list Z),
    ToneRow.twelvetone_matrix row_from_one = inr m ∧
    ToneRow.column m 0 = [1; 2; 0; 11; 10; 9; 8; 7; 6; 5; 4; 3].
Proof.
  split; [vm_compute; reflexivity|].
  destruct (column0_inversion row_from_one) as (m & Hm & Hcol & _);
    [vm_compute; reflexivity|].
  exists m. split; [exact Hm|]. rewrite Hcol. vm_compute. reflexivity.
Defined.

(** ** Construction *)

(** C7.  Construction succeeds exactly on the sequences of twelve elements
    whose set of values is {0, ..., 11}; on every other input, and so on
    every input of another length, with a repeated value or with a value
    outside 0..11, it raises the invalid-row error. *)
Theorem construct_contract (row : list Z) :
  ((∃ tr : ToneRow.t, ToneRow.init row = inr tr) ↔
     length row = 12%nat ∧
     (list_to_set row : gset Z) = list_to_set (seqZ 0 12)) ∧
  (ToneRow.init row = inl InvalidRow ↔
     ¬ (length row = 12%nat ∧
        (list_to_set row : gset Z) = list_to_set (seqZ 0 12))) ∧
  (length row ≠ 12%nat → ToneRow.init row = inl InvalidRow) ∧
  (¬ NoDup row → ToneRow.init row = inl InvalidRow) ∧
  ((∃ x : Z, x ∈ row ∧ (x < 0 ∨ 11 < x)) → ToneRow.init row = inl InvalidRow).
Proof.
  fold ToneRow.pitch_classes.
  assert (ToneRow.is_valid_tonerow row = false →
          ToneRow.init row = inl InvalidRow) as Hfail.
  { intros Hv. unfold ToneRow.init. rewrite Hv. reflexivity. }
  destruct (ToneRow.is_valid_tonerow row) eqn:Hv.
  - pose proof (proj1 (is_valid_tonerow_spec row) Hv) as Hspec.
    rewrite init_valid by done.
    split; [split; [done | eauto]|].
    split; [split; [discriminate | tauto]|].
    split; [tauto|]. split.
    + intros Hdup. destruct Hdup. by apply valid_NoDup.
    + intros (x & Hx & Hout). pose proof (valid_range row x Hv Hx). lia.
  - assert (¬ (length row = 12%nat ∧ list_to_set row = ToneRow.pitch_classes))
      as Hspec.
    { rewrite <- is_valid_tonerow_spec, Hv. discriminate. }
    rewrite Hfail by done.
    split; [split; [intros [tr [=]] | tauto]|].
    split; [tauto|]. tauto.
Qed.

Lemma construct_contract_witness :
  ToneRow.init [0; 1; 2; 3] = inl InvalidRow ∧
  ToneRow.init [0; 1; 2; 3; 4; 5; 6; 7; 8; 9; 10; 10] = inl InvalidRow ∧
  ToneRow.init [0; 1; 2; 3; 4; 5; 6; 7; 8; 9; 10; 12] = inl InvalidRow ∧
  ∃ tr : ToneRow.t, ToneRow.init identity_row = inr tr.
Proof.
  split; [|split; [|split]].
  - destruct (construct_contract [0; 1; 2; 3]) as (_ & _ & Hlen & _ & _).
    apply Hlen. simpl. lia.
  - destruct (construct_contract [0; 1; 2; 3; 4; 5; 6; 7; 8; 9; 10; 10])
      as (_ & _ & _ & Hdup & _).
    apply Hdup. intros Hnd. apply NoDup_ListNoDup in Hnd.
    repeat match goal with
           | H : List.NoDup (_ :: _) |- _ => inversion_clear H
           end.
    match goal with H : ¬ List.In 10 [10] |- _ => apply H; left; reflexivity end.
  - destruct (construct_contract [0; 1; 2; 3; 4; 5; 6; 7; 8; 9; 10; 12])
      as (_ & _ & _ & _ & Hout).
    apply Hout. exists 12. split; [|lia]. do 11 apply list_elem_of_further. apply list_elem_of_here.
  - destruct (construct_contract identity_row) as (Hok & _).
    apply Hok. split; [reflexivity | vm_compute; reflexivity].
Defined.

(** ** Transposition *)

Lemma normalised_interval (i : Z) :
  (i + 12) mod 12 = (i mod 12 + 12) mod 12 ∧
  (i + 12) mod 12 = (Z.rem i 12 + 12) mod 12.
Proof.
  split.
  - rewrite Zplus_mod_idemp_l. reflexivity.
  - Z.to_euclidean_division_equations. lia.
Qed.

(** What a run of [transpose_row] on a valid row and an interval within
    bounds does: it returns the location it was given, and the array at
    that location has been overwritten with the transposed row. *)
Lemma transpose_row_run (σ : gmap ToneRow.loc (list Z)) (primeRow : ToneRow.loc)
    (R : list Z) (intervalSize : Z) :
  σ !! primeRow = Some R →
  ToneRow.is_valid_tonerow R = true →
  -11 ≤ intervalSize ≤ 11 →
  ToneRow.transpose_row primeRow intervalSize σ =
  (inr primeRow,
   <[primeRow := transposed R ((intervalSize + 12) mod 12)]>
     (<[primeRow := (λ x, x + (intervalSize + 12) mod 12) <$> R]> σ)).
Proof.
  intros Hσ Hv Hi.
  unfold ToneRow.transpose_row, ToneRow.bind, ToneRow.read at 1.
  rewrite Hσ, Hv. simpl.
  rewrite !bool_decide_eq_false_2 by lia. simpl.
  unfold ToneRow.iadd, ToneRow.imod, ToneRow.update_in_place, ToneRow.bind,
    ToneRow.read, ToneRow.ret.
  rewrite Hσ, lookup_insert_eq.
  unfold transposed. rewrite <- list_fmap_compose. reflexivity.
Qed.

Lemma transpose_row_out_of_range (σ : gmap ToneRow.loc (list Z))
    (primeRow : ToneRow.loc) (R : list Z) (intervalSize : Z) :
  σ !! primeRow = Some R →
  ToneRow.is_valid_tonerow R = true →
  intervalSize < -11 ∨ 11 < intervalSize →
  ToneRow.transpose_row primeRow intervalSize σ = (inl RangeError, σ).
Proof.
  intros Hσ Hv Hi.
  unfold ToneRow.transpose_row, ToneRow.bind, ToneRow.read.
  rewrite Hσ, Hv. simpl.
  destruct Hi.
  - rewrite (bool_decide_eq_true_2 (intervalSize < -11)) by lia. reflexivity.
  - rewrite (bool_decide_eq_true_2 (intervalSize > 11)) by lia.
    rewrite orb_true_r. reflexivity.
Qed.

Lemma transpose_row_invalid (σ : gmap ToneRow.loc (list Z))
    (primeRow : ToneRow.loc) (R : list Z) (intervalSize : Z) :
  σ !! primeRow = Some R →
  ToneRow.is_valid_tonerow R = false →
  ToneRow.transpose_row primeRow intervalSize σ = (inl InvalidRow, σ).
Proof.
  intros Hσ Hv.
  unfold ToneRow.transpose_row, ToneRow.bind, ToneRow.read.
  rewrite Hσ, Hv. reflexivity.
Qed.

(** C8.  On a valid row, [transpose_row] raises the range error exactly
    when the interval is outside [-11, 11]; within these bounds it returns
    the row whose element at each position is
    [(R[j] + ((interval mod 12) + 12) mod 12) mod 12], whether [mod] in the
    normalisation is read as the floored or as the truncated remainder; on
    an invalid row it raises the invalid-row error. *)
Theorem transpose_contract (σ : gmap ToneRow.loc (list Z))
    (primeRow : ToneRow.loc) (R : list Z) (intervalSize : Z) :
  σ !! primeRow = Some R →
  (ToneRow.is_valid_tonerow R = true →
     ((ToneRow.transpose_row primeRow intervalSize σ).1 = inl RangeError ↔
        intervalSize < -11 ∨ 11 < intervalSize) ∧
     (-11 ≤ intervalSize ≤ 11 →
        ∃ q : ToneRow.loc,
          (ToneRow.transpose_row primeRow intervalSize σ).1 = inr q ∧
          (ToneRow.transpose_row primeRow intervalSize σ).2 !! q =
            Some ((λ x, (x + (intervalSize mod 12 + 12) mod 12) mod 12) <$> R) ∧
          (ToneRow.transpose_row primeRow intervalSize σ).2 !! q =
            Some ((λ x, (x + (Z.rem intervalSize 12 + 12) mod 12) mod 12) <$> R))) ∧
  (ToneRow.is_valid_tonerow R = false →
     (ToneRow.transpose_row primeRow intervalSize σ).1 = inl InvalidRow).
Proof.
  intros Hσ. split.
  - intros Hv.
    destruct (decide (intervalSize < -11 ∨ 11 < intervalSize)) as [Hout | Hin].
    + rewrite (transpose_row_out_of_range σ primeRow R) by done.
      split; [done | lia].
    + rewrite (transpose_row_run σ primeRow R) by (done || lia). simpl.
      split; [split; [discriminate | tauto]|].
      intros _. exists primeRow. rewrite lookup_insert_eq.
      destruct (normalised_interval intervalSize) as [<- <-]. done.
  - intros Hv. by rewrite (transpose_row_invalid σ primeRow R).
Qed.

Lemma transpose_contract_witness :
  ∃ q : ToneRow.loc,
    (ToneRow.transpose_row 1%positive (-5) {[ 1%positive := webern_row ]}).1 = inr q ∧
    (ToneRow.transpose_row 1%positive (-5) {[ 1%positive := webern_row ]}).2 !! q =
      Some [7; 6; 10; 11; 3; 2; 4; 0; 1; 8; 9; 5].
Proof.
  destruct (transpose_contract {[ 1%positive := webern_row ]} 1%positive
              webern_row (-5)) as [Hvalid _]; [reflexivity|].
  destruct Hvalid as [_ Hin]; [vm_compute; reflexivity|].
  destruct Hin as (q & Hq & Hrow & _); [lia|].
  exists q. split; [exact Hq|]. rewrite Hrow. vm_compute. reflexivity.
Defined.

(** C9 fails on the code.  [transposed_tonerow] is bound to the very array
    passed as [primeRow], and [+=] and [%=] update that array in place:
    after the call the caller's array holds the transposed row, and the
    array returned is the caller's array, not a separate one. *)
Theorem transpose_row_overwrites_input :
  let σ : gmap ToneRow.loc (list Z) := {[ 1%positive := identity_row ]} in
  σ !! 1%positive = Some [0; 1; 2; 3; 4; 5; 6; 7; 8; 9; 10; 11] ∧
  (ToneRow.transpose_row 1%positive 1 σ).1 = inr 1%positive ∧
  (ToneRow.transpose_row 1%positive 1 σ).2 !! 1%positive
    = Some [1; 2; 3; 4; 5; 6; 7; 8; 9; 10; 11; 0] ∧
  (ToneRow.transpose_row 1%positive 1 σ).2 !! 1%positive ≠ σ !! 1%positive.
Proof.
  intros σ.
  assert ((ToneRow.transpose_row 1%positive 1 σ).2 !! 1%positive
          = Some [1; 2; 3; 4; 5; 6; 7; 8; 9; 10; 11; 0]) as Hafter.
  { unfold σ.
    rewrite (transpose_row_run _ 1%positive identity_row)
      by (reflexivity || (vm_compute; reflexivity) || lia).
    simpl. rewrite lookup_insert_eq. vm_compute. reflexivity. }
  split; [reflexivity|]. split.
  - unfold σ.
    rewrite (transpose_row_run _ 1%positive identity_row)
      by (reflexivity || (vm_compute; reflexivity) || lia).
    reflexivity.
  - split; [exact Hafter|]. rewrite Hafter. discriminate.
Qed.

(** The same in general: the input array is left as it was only by the
    interval 0. *)
Lemma transpose_row_aliases_input (σ : gmap ToneRow.loc (list Z))
    (primeRow : ToneRow.loc) (R : list Z) (intervalSize : Z) :
  σ !! primeRow = Some R →
  ToneRow.is_valid_tonerow R = true →
  -11 ≤ intervalSize ≤ 11 →
  (ToneRow.transpose_row primeRow intervalSize σ).1 = inr primeRow ∧
  ((ToneRow.transpose_row primeRow intervalSize σ).2 !! primeRow = Some R ↔
     intervalSize = 0).
Proof.
  intros Hσ Hv Hi. rewrite (transpose_row_run σ primeRow R) by done. simpl.
  split; [reflexivity|]. rewrite lookup_insert_eq.
  pose proof (valid_length R Hv) as Hlen.
  pose proof (valid_lookup_total_range R 0 Hv ltac:(lia)) as H0.
  split.
  - intros [= Heq].
    assert (transposed R ((intervalSize + 12) mod 12) !!! 0%nat = R !!! 0%nat)
      as Hhd by (by rewrite Heq).
    rewrite transposed_lookup_total in Hhd by lia.
    revert Hhd. Z.to_euclidean_division_equations. lia.
  - intros ->. f_equal. unfold transposed.
    rewrite <- (list_fmap_id R) at 2.
    apply list_fmap_ext. intros i x Hx. simpl.
    change ((0 + 12) mod 12) with 0. rewrite Z.add_0_r.
    apply Z.mod_small, (valid_range R); [done|]. by eapply list_elem_of_lookup_2.
Qed.

(** ** The enumerator *)

Section picks.
Context {A : Type}.
Implicit Types (pool rest : list A) (p : A * list A).

Lemma picks_fst pool : (itertools.picks pool).*1 = pool.
Proof.
  induction pool as [|x rest IH]; [reflexivity|]. simpl.
  rewrite <- list_fmap_compose. f_equal. exact IH.
Qed.

Lemma length_picks pool : length (itertools.picks pool) = length pool.
Proof. rewrite <- (picks_fst pool) at 2. by rewrite length_fmap. Qed.

Lemma elem_of_picks pool p :
  p ∈ itertools.picks pool ↔
  ∃ l1 l2, pool = l1 ++ p.1 :: l2 ∧ p.2 = l1 ++ l2.
Proof.
  revert p. induction pool as [|x rest IH]; intros p; simpl.
  - split; [by intros ?%elem_of_nil|].
    intros (l1 & l2 & Heq & _). by destruct l1.
  - rewrite elem_of_cons, list_elem_of_fmap. split.
    + intros [-> | (q & -> & Hq)].
      * by exists [], rest.
      * apply IH in Hq as (l1 & l2 & -> & Hq2). simpl. rewrite Hq2.
        by exists (x :: l1), l2.
    + intros (l1 & l2 & Heq & Hp2). destruct l1 as [|y l1]; simplify_eq/=.
      * left. destruct p; simpl in *; by subst.
      * right. exists (p.1, l1 ++ l2). split.
        -- destruct p; simpl in *; by subst.
        -- apply IH. by exists l1, l2.
Qed.

Lemma picks_Permutation pool p :
  p ∈ itertools.picks pool → pool ≡ₚ p.1 :: p.2.
Proof.
  intros (l1 & l2 & -> & ->)%elem_of_picks. by rewrite Permutation_middle.
Qed.

Lemma picks_length_snd pool p :
  p ∈ itertools.picks pool → length pool = S (length p.2).
Proof. intros Hp%picks_Permutation. by rewrite Hp. Qed.
End picks.

Lemma length_bind_const {A B} (f : A → list B) (l : list A) (k : nat) :
  (∀ x, x ∈ l → length (f x) = k) → length (l ≫= f) = (length l * k)%nat.
Proof.
  induction l as [|x l IH]; intros Hf; [reflexivity|].
  rewrite bind_cons, length_app, Hf, IH by set_solver. reflexivity.
Qed.

Section permutations.
Context {A : Type}.
Implicit Types (pool perm : list A).

Lemma length_permutations_len n pool :
  length pool = n →
  Z.of_nat (length (itertools.permutations_len n pool)) = factZ n.
Proof.
  revert pool. induction n as [|n IH]; intros pool Hlen; [reflexivity|].
  cbn [itertools.permutations_len factZ].
  rewrite (length_bind_const _ _ (Z.to_nat (factZ n))).
  - rewrite length_picks, Hlen.
    assert (0 ≤ factZ n) by (rewrite <- (IH (drop 1 pool)); [lia|];
                             rewrite length_drop; lia).
    lia.
  - intros p Hp. rewrite length_fmap, <- (IH p.2), Nat2Z.id; [done|].
    apply picks_length_snd in Hp. lia.
Qed.

Lemma permutations_len_sound n pool perm :
  length pool = n →
  perm ∈ itertools.permutations_len n pool → perm ≡ₚ pool.
Proof.
  revert pool perm. induction n as [|n IH]; intros pool perm Hlen.
  - destruct pool; [|done]. simpl. by intros ->%list_elem_of_singleton.
  - cbn [itertools.permutations_len].
    intros (p & Hperm & Hp)%list_elem_of_bind.
    apply list_elem_of_fmap in Hperm as (perm' & -> & Hperm').
    rewrite (picks_Permutation pool p Hp). f_equiv.
    apply IH; [|done]. apply picks_length_snd in Hp. lia.
Qed.

Lemma permutations_len_complete n pool perm :
  length pool = n →
  perm ≡ₚ pool → perm ∈ itertools.permutations_len n pool.
Proof.
  revert pool perm. induction n as [|n IH]; intros pool perm Hlen Hperm.
  - destruct pool; [|done]. apply Permutation_nil_r in Hperm as ->.
    simpl. by apply list_elem_of_singleton.
  - cbn [itertools.permutations_len].
    destruct perm as [|x perm].
    { apply Permutation_length in Hperm. simpl in Hperm. lia. }
    assert (x ∈ pool) as Hx by (rewrite <- Hperm; left).
    apply list_elem_of_split in Hx as (l1 & l2 & ->).
    apply list_elem_of_bind. exists (x, l1 ++ l2). split.
    + simpl. apply list_elem_of_fmap_2. apply IH.
      * rewrite length_app in *. simpl in Hlen. lia.
      * rewrite <- Permutation_middle in Hperm.
        by apply Permutation_cons_inv in Hperm.
    + apply elem_of_picks. by exists l1, l2.
Qed.

Lemma permutations_len_head n pool :
  length pool = n → head (itertools.permutations_len n pool) = Some pool.
Proof.
  revert pool. induction n as [|n IH]; intros pool Hlen.
  - by destruct pool.
  - destruct pool as [|x rest]; [done|].
    cbn [itertools.permutations_len itertools.picks].
    rewrite bind_cons. cbn [fst snd].
    specialize (IH rest ltac:(by simplify_eq/=)).
    destruct (itertools.permutations_len n rest); by simplify_eq/=.
Qed.
End permutations.

(** *** Lexicographic order *)

Lemma lex_lt_cons_lt (x y : Z) (a b : list Z) : x < y → lex_lt (x :: a) (y :: b).
Proof. intros Hxy. unfold lex_lt. simpl. by rewrite bool_decide_eq_true_2. Qed.

Lemma lex_lt_cons_eq (x : Z) (a b : list Z) : lex_lt a b → lex_lt (x :: a) (x :: b).
Proof.
  intros Hab. unfold lex_lt. simpl.
  rewrite bool_decide_eq_false_2 by lia. by rewrite bool_decide_eq_true_2.
Qed.

Lemma lex_lt_irrefl (a : list Z) : ¬ lex_lt a a.
Proof.
  unfold lex_lt. induction a as [|x a IH]; simpl; [done|].
  rewrite bool_decide_eq_false_2 by lia. by rewrite bool_decide_eq_true_2.
Qed.

Lemma StronglySorted_bind {A B} (R' : relation A) (R : relation B)
    (f : A → list B) (l : list A) :
  StronglySorted R' l →
  (∀ x, x ∈ l → StronglySorted R (f x)) →
  (∀ x y a b, R' x y → a ∈ f x → b ∈ f y → R a b) →
  StronglySorted R (l ≫= f).
Proof.
  intros Hl Hf Hcross. induction Hl as [|x l Hl IH Hx]; [constructor|].
  rewrite bind_cons. apply StronglySorted_app_2.
  - intros a b Ha (y & Hb & Hy)%list_elem_of_bind.
    rewrite Forall_forall in Hx. eauto.
  - apply Hf. left.
  - apply IH. intros y Hy. apply Hf. by right.
Qed.

Lemma StronglySorted_lookup {A} (R : relation A) (l : list A) (i j : nat) (a b : A) :
  StronglySorted R l → (i < j)%nat → l !! i = Some a → l !! j = Some b → R a b.
Proof.
  intros Hl. revert i j. induction Hl as [|x l Hl IH Hx]; intros i j Hij Hi Hj.
  - done.
  - destruct j as [|j]; [lia|]. destruct i as [|i]; simplify_eq/=.
    + rewrite Forall_forall in Hx. apply Hx. by eapply list_elem_of_lookup_2.
    + apply (IH i j); [lia|done..].
Qed.

Lemma StronglySorted_irrefl_NoDup {A} (R : relation A) (l : list A) :
  (∀ a, ¬ R a a) → StronglySorted R l → NoDup l.
Proof.
  intros Hirr. induction 1 as [|x l Hl IH Hx]; constructor; [|done].
  intros Hin. rewrite Forall_forall in Hx. by apply (Hirr x), Hx.
Qed.

Lemma picks_sorted (pool : list Z) :
  StronglySorted Z.lt pool →
  StronglySorted (λ p q : Z * list Z, p.1 < q.1) (itertools.picks pool).
Proof.
  induction 1 as [|x rest Hrest IH Hx]; simpl; constructor.
  - apply (StronglySorted_fmap _ (λ p q : Z * list Z, p.1 < q.1)); [|done].
    by intros [] [].
  - rewrite Forall_fmap, Forall_forall. intros p Hp. simpl.
    rewrite Forall_forall in Hx. apply Hx.
    rewrite <- (picks_fst rest). by apply list_elem_of_fmap_2.
Qed.

Lemma picks_snd_sorted (pool : list Z) (p : Z * list Z) :
  StronglySorted Z.lt pool → p ∈ itertools.picks pool → StronglySorted Z.lt p.2.
Proof.
  intros Hpool (l1 & l2 & -> & ->)%elem_of_picks.
  apply StronglySorted_app in Hpool as (Hcross & H1 & H2).
  apply StronglySorted_cons in H2 as [_ H2].
  apply StronglySorted_app_2; [|done..].
  intros a b Ha Hb. apply Hcross; [done|]. by right.
Qed.

(** On a strictly increasing pool the permutations come out in strictly
    increasing lexicographic order. *)
Lemma permutations_len_sorted (n : nat) (pool : list Z) :
  length pool = n → StronglySorted Z.lt pool →
  StronglySorted lex_lt (itertools.permutations_len n pool).
Proof.
  revert pool. induction n as [|n IH]; intros pool Hlen Hpool.
  - simpl. repeat constructor.
  - cbn [itertools.permutations_len].
    apply (StronglySorted_bind (λ p q : Z * list Z, p.1 < q.1)).
    + by apply picks_sorted.
    + intros p Hp. apply (StronglySorted_fmap _ lex_lt).
      * intros a b. apply lex_lt_cons_eq.
      * apply IH; [|by eapply picks_snd_sorted].
        apply picks_length_snd in Hp. lia.
    + intros p q a b Hpq (a' & -> & _)%list_elem_of_fmap (b' & -> & _)%list_elem_of_fmap.
      by apply lex_lt_cons_lt.
Qed.

Lemma seqZ_sorted (m : Z) (n : nat) : StronglySorted Z.lt (seqZ m (Z.of_nat n)).
Proof.
  revert m. induction n as [|n IH]; intros m.
  - rewrite seqZ_nil by lia. constructor.
  - rewrite seqZ_cons by lia.
    replace (Z.pred (Z.of_nat (S n))) with (Z.of_nat n) by lia.
    constructor; [apply IH|].
    rewrite Forall_forall. intros x Hx%elem_of_seqZ. lia.
Qed.

(** *** The rows yielded *)

Lemma iterator_rows :
  ToneRow.tonerows_starting_with_zero_iterator =
  cons 0 <$> itertools.permutations_len 11 (seqZ 1 11).
Proof. reflexivity. Qed.

Example iterator_second_row :
  ToneRow.tonerows_starting_with_zero_iterator !! 1%nat
  = Some [0; 1; 2; 3; 4; 5; 6; 7; 8; 9; 11; 10].
Proof. lazy. reflexivity. Qed.

(** C6.  The generator yields 39,916,800 = 11! rows; each is a valid tone
    row that starts on 0; no row is yielded twice; and every permutation of
    1..11 is the tail of a yielded row. *)
Theorem enumerator_complete :
  Z.of_nat (length ToneRow.tonerows_starting_with_zero_iterator) = 39916800 ∧
  factZ 11 = 39916800 ∧
  (∀ row : list Z, row ∈ ToneRow.tonerows_starting_with_zero_iterator →
     ToneRow.is_valid_tonerow row = true ∧ row !! 0%nat = Some 0) ∧
  NoDup ToneRow.tonerows_starting_with_zero_iterator ∧
  (∀ perm : list Z, perm ≡ₚ seqZ 1 11 →
     ∃ row : list Z,
       row ∈ ToneRow.tonerows_starting_with_zero_iterator ∧ drop 1 row = perm).
Proof.
  rewrite iterator_rows. split; [|split; [|split; [|split]]].
  - rewrite length_fmap, length_permutations_len by reflexivity. reflexivity.
  - reflexivity.
  - intros row (perm & -> & Hperm)%list_elem_of_fmap. split; [|reflexivity].
    apply permutations_len_sound in Hperm; [|reflexivity].
    apply is_valid_tonerow_Permutation. rewrite Hperm. reflexivity.
  - apply (NoDup_fmap_2 _).
    apply (StronglySorted_irrefl_NoDup lex_lt); [apply lex_lt_irrefl|].
    apply permutations_len_sorted; [reflexivity|]. apply (seqZ_sorted 1 11).
  - intros perm Hperm. exists (0 :: perm). split; [|reflexivity].
    apply list_elem_of_fmap_2. by apply permutations_len_complete.
Qed.

Lemma enumerator_complete_witness :
  ∃ row : list Z,
    row ∈ ToneRow.tonerows_starting_with_zero_iterator ∧
    drop 1 row = [11; 10; 9; 8; 7; 6; 5; 4; 3; 2; 1].
Proof.
  destruct enumerator_complete as (_ & _ & _ & _ & Hall).
  apply Hall. symmetry.
  change (seqZ 1 11) with (reverse [11; 10; 9; 8; 7; 6; 5; 4; 3; 2; 1]).
  apply reverse_Permutation.
Defined.

(** C10.  The first row yielded is the identity row, and of any two rows
    the one yielded later is lexicographically greater, on positions 1..11
    and so as a whole row. *)
Theorem enumerator_lexicographic :
  head ToneRow.tonerows_starting_with_zero_iterator
    = Some [0; 1; 2; 3; 4; 5; 6; 7; 8; 9; 10; 11] ∧
  ∀ (i j : nat) (earlier later : list Z),
    (i < j)%nat →
    ToneRow.tonerows_starting_with_zero_iterator !! i = Some earlier →
    ToneRow.tonerows_starting_with_zero_iterator !! j = Some later →
    lex_ltb (drop 1 earlier) (drop 1 later) = true ∧
    lex_ltb earlier later = true.
Proof.
  rewrite iterator_rows.
  pose proof (permutations_len_head 11 (seqZ 1 11) eq_refl) as Hhd.
  pose proof (permutations_len_sorted 11 (seqZ 1 11) eq_refl (seqZ_sorted 1 11))
    as Hsorted.
  revert Hhd Hsorted. generalize (itertools.permutations_len 11 (seqZ 1 11)).
  intros perms Hhd Hsorted. split.
  - destruct perms as [|first rest]; [done|]. injection Hhd as ->. reflexivity.
  - intros i j earlier later Hij Hi Hj.
    rewrite list_lookup_fmap in Hi, Hj.
    destruct (perms !! i) as [a|] eqn:Ha; [|done].
    destruct (perms !! j) as [b|] eqn:Hb; [|done].
    injection Hi as <-. injection Hj as <-.
    assert (lex_lt a b) as Hab
      by (by eapply (StronglySorted_lookup lex_lt perms i j)).
    split; [exact Hab|]. by apply lex_lt_cons_eq.
Qed.

Lemma enumerator_lexicographic_witness :
  lex_ltb [1; 2; 3; 4; 5; 6; 7; 8; 9; 10; 11]
          [1; 2; 3; 4; 5; 6; 7; 8; 9; 11; 10] = true.
Proof.
  destruct enumerator_lexicographic as [_ Hlt].
  destruct (Hlt 0%nat 1%nat
              [0; 1; 2; 3; 4; 5; 6; 7; 8; 9; 10; 11]
              [0; 1; 2; 3; 4; 5; 6; 7; 8; 9; 11; 10]) as [Htail _];
    [lia | lazy; reflexivity | lazy; reflexivity |].
  exact Htail.
Defined.

(** ** The detectors *)

(** A loop that appends at most one label per item is a filtering map. *)
Lemma foldl_emit {A} (body : list string → A → list string)
    (emit : A → option string) (l : list A) (acc : list string) :
  (∀ acc x, x ∈ l → body acc x = acc ++ option_list (emit x)) →
  foldl body acc l = acc ++ omap emit l.
Proof.
  revert acc. induction l as [|x l IH]; intros acc Hbody; simpl.
  - by rewrite app_nil_r.
  - rewrite Hbody by left. rewrite IH by (intros; apply Hbody; by right).
    rewrite <- app_assoc. f_equal. by destruct (emit x).
Qed.

Lemma foldl_emit_rows {A} `{Inhabited A} (body : list string → A → list string)
    (emit : nat → option string) (l : list A) :
  (∀ acc i, (i < length l)%nat → body acc (l !!! i) = acc ++ option_list (emit i)) →
  foldl body [] l = omap emit (seq 0 (length l)).
Proof.
  intros Hbody. rewrite (list_as_lookups l) at 1. rewrite foldl_fmap.
  rewrite (foldl_emit _ emit); [reflexivity|].
  intros acc i Hi%elem_of_seq. apply Hbody. lia.
Qed.

Lemma foldl_emit_indices (body : list string → nat → list string)
    (emit : nat → option string) (n : nat) :
  (∀ acc i, (i < n)%nat → body acc i = acc ++ option_list (emit i)) →
  foldl body [] (seq 0 n) = omap emit (seq 0 n).
Proof.
  intros Hbody. rewrite (foldl_emit _ emit); [reflexivity|].
  intros acc i Hi%elem_of_seq. apply Hbody. lia.
Qed.

Lemma elem_of_omap_seq (emit : nat → option string) (n : nat) (s : string) :
  s ∈ omap emit (seq 0 n) ↔ ∃ i : nat, (i < n)%nat ∧ emit i = Some s.
Proof.
  rewrite list_elem_of_omap. split.
  - intros (i & Hi%elem_of_seq & Hs). exists i. split; [lia | done].
  - intros (i & Hi & Hs). exists i. split; [apply elem_of_seq; lia | done].
Qed.

Lemma length_matrix_of_row (primeRow : list Z) (i : nat) :
  length primeRow = 12%nat → (i < 12)%nat →
  length (ToneRow.matrix_of primeRow !!! i) = 12%nat.
Proof.
  intros Hlen Hi. destruct (decide (i = 0%nat)) as [-> | Hne]; [exact Hlen|].
  assert (1 ≤ i ≤ 11)%nat as Hi' by lia.
  rewrite (list_lookup_total_correct _ _ _ (matrix_of_lookup primeRow i Hi')).
  by rewrite length_transposed.
Qed.

(** The first six notes of a reversed row of twelve are its last six, and
    its first note is the last note of the row. *)
Lemma first_hexachord_reverse (row : list Z) :
  length row = 12%nat →
  (list_to_set (take 6 (reverse row)) : gset Z) = list_to_set (drop 6 row).
Proof.
  intros Hlen. rewrite take_reverse, Hlen. simpl.
  apply set_eq. intros x. rewrite !elem_of_list_to_set. apply elem_of_reverse.
Qed.

Lemma first_note_reverse (row : list Z) :
  length row = 12%nat →
  reverse row !!! 0%nat = row !!! (length row - 1)%nat.
Proof.
  intros Hlen. rewrite !list_lookup_total_alt.
  rewrite reverse_lookup by (rewrite Hlen; lia). reflexivity.
Qed.

Lemma label_inj (K : kind) (t t' : Z) : label K t = label K t' → t = t'.
Proof.
  unfold label. intros Heq%(inj (String.append (prefix K))).
  by apply (inj pretty).
Qed.

Lemma hexachord_body (acc : list string) (S1 S0 S1' S0' : gset Z) (t t' : Z)
    (pre : string) :
  S1 = S1' → S0 = S0' → t = t' →
  (if negb (bool_decide (S1 ## S0)) then acc
   else if bool_decide (t = 0) then acc else acc ++ [pre +:+ pretty t])
  = acc ++ option_list (if decide (S1' ## S0' ∧ t' ≠ 0)
                        then Some (pre +:+ pretty t') else None).
Proof.
  intros <- <- <-. destruct (decide (S1 ## S0 ∧ t ≠ 0)) as [[Hd Ht] | Hd]; simpl.
  - by rewrite bool_decide_eq_true_2, bool_decide_eq_false_2.
  - rewrite app_nil_r.
    repeat case_bool_decide; simpl; try done. destruct Hd. done.
Qed.

Lemma hexachord_detector_emit (row : list Z) (toneRow : ToneRow.t) (K : kind) :
  ToneRow.init row = inr toneRow →
  hexachord_detector K toneRow = omap (hexachord_label K toneRow) (seq 0 12).
Proof.
  intros [Hv Hm]%init_inv. pose proof (valid_length row Hv) as Hlen.
  destruct toneRow as [m]. cbn [ToneRow.matrix] in Hm. subst m.
  destruct K; cbn [hexachord_detector].
  - unfold CombinatorialHexachords.prime_combinatorials. cbv zeta.
    apply (foldl_emit_rows _ (hexachord_label Prime _)).
    intros acc i Hi. by apply hexachord_body.
  - unfold CombinatorialHexachords.retrograde_combinatorials. cbv zeta.
    apply (foldl_emit_rows _ (hexachord_label Retrograde _)).
    intros acc i Hi. cbn [ToneRow.matrix] in *.
    apply hexachord_body; [|done|].
    + symmetry. by apply first_hexachord_reverse, length_matrix_of_row.
    + unfold level, candidate_form. cbn [ToneRow.matrix].
      rewrite first_note_reverse by (by apply length_matrix_of_row).
      reflexivity.
  - unfold CombinatorialHexachords.inversion_combinatorials. cbv zeta.
    apply (foldl_emit_indices _ (hexachord_label Inversion _)).
    intros acc i Hi. by apply hexachord_body.
  - unfold CombinatorialHexachords.retrograde_inversion_combinatorials. cbv zeta.
    apply (foldl_emit_indices _ (hexachord_label RetrogradeInversion _)).
    intros acc i Hi. by apply hexachord_body.
Qed.

(** C1.  For a valid row, each hexachord detector runs through the twelve
    candidate forms of its kind in order and appends the label [K<t>] of a
    candidate exactly when the set of its first six notes is disjoint from
    the set of the first six notes of P0 and its level [t] is not 0. *)
Theorem hexachord_detection (row : list Z) (toneRow : ToneRow.t) (K : kind) :
  ToneRow.init row = inr toneRow →
  ToneRow.matrix toneRow !!! 0%nat = row ∧
  hexachord_detector K toneRow = omap (hexachord_label K toneRow) (seq 0 12) ∧
  (∀ i : nat,
     hexachord_label K toneRow i = Some (label K (level K toneRow i)) ↔
     (list_to_set (take 6 (candidate_form K (ToneRow.matrix toneRow) i)) : gset Z)
       ## list_to_set (take 6 row)
     ∧ level K toneRow i ≠ 0) ∧
  (∀ s : string,
     s ∈ hexachord_detector K toneRow ↔
     ∃ i : nat, (i < 12)%nat ∧
       (list_to_set (take 6 (candidate_form K (ToneRow.matrix toneRow) i)) : gset Z)
         ## list_to_set (take 6 row)
       ∧ level K toneRow i ≠ 0
       ∧ s = label K (level K toneRow i)) ∧
  (∀ t : Z, label K t ∈ hexachord_detector K toneRow → t ≠ 0).
Proof.
  intros Hinit. pose proof (hexachord_detector_emit row toneRow K Hinit) as Hdet.
  apply init_inv in Hinit as [Hv Hm].
  assert (ToneRow.matrix toneRow !!! 0%nat = row) as Hp0 by (by rewrite Hm).
  assert (∀ i s, hexachord_label K toneRow i = Some s ↔
            ((list_to_set (take 6 (candidate_form K (ToneRow.matrix toneRow) i))
                : gset Z) ## list_to_set (take 6 row)
             ∧ level K toneRow i ≠ 0)
            ∧ s = label K (level K toneRow i)) as Hlabel.
  { intros i s. unfold hexachord_label. cbv zeta. rewrite Hp0.
    case_decide as Hd.
    - split; [by intros [= <-] | by intros [_ ->]].
    - split; [done | by intros [? _]]. }
  split; [exact Hp0|]. split; [exact Hdet|]. split; [|split].
  - intros i. rewrite Hlabel. tauto.
  - intros s. rewrite Hdet, elem_of_omap_seq.
    split.
    + intros (i & Hi & [[Hd Ht] ->]%Hlabel). by exists i.
    + intros (i & Hi & Hd & Ht & ->). exists i. split; [done|]. by apply Hlabel.
  - intros t. rewrite Hdet, elem_of_omap_seq.
    intros (i & _ & [[_ Hne] Heq]%Hlabel).
    apply label_inj in Heq. by subst t.
Qed.

Lemma hexachord_detection_witness :
  "P6" ∈ hexachord_detector Prime (ToneRow.Build (ToneRow.matrix_of identity_row)).
Proof.
  destruct (hexachord_detection identity_row
              (ToneRow.Build (ToneRow.matrix_of identity_row)) Prime)
    as (_ & _ & _ & Hmem & _); [vm_compute; reflexivity|].
  apply Hmem. exists 6%nat.
  split; [lia|].
  split; [apply (bool_decide_eq_true_1 _); vm_compute; reflexivity|].
  split; [vm_compute; discriminate | vm_compute; reflexivity].
Defined.

(** *** The matching loop *)

Lemma list_remove_Permutation (ref : gset Z) (forms : list (gset Z)) :
  ref ∈ forms → forms ≡ₚ ref :: list_remove ref forms.
Proof.
  induction forms as [|x forms IH]; [by intros ?%elem_of_nil|].
  intros Hin. simpl. case_bool_decide as Hx; [by subst|].
  apply elem_of_cons in Hin as [-> | Hin]; [done|].
  rewrite (IH Hin) at 1. apply perm_swap.
Qed.

Lemma find_match_loop_spec (ref : gset Z) (forms rest : list (gset Z)) :
  find_match_loop ref forms rest =
  if decide (ref ∈ rest) then (true, list_remove ref forms) else (false, forms).
Proof.
  induction rest as [|x rest IH]; cbn [find_match_loop].
  - destruct (decide (ref ∈ [])) as [Hin%elem_of_nil | _]; done.
  - case_bool_decide as Hx.
    + subst. destruct (decide (x ∈ x :: rest)) as [_ | Hnin]; [done|].
      destruct Hnin. left.
    + rewrite IH. destruct (decide (ref ∈ rest)) as [Hin | Hin].
      * destruct (decide (ref ∈ x :: rest)) as [_ | Hnin]; [done|].
        destruct Hnin. by right.
      * destruct (decide (ref ∈ x :: rest)) as [[?|?]%elem_of_cons | _]; done.
Qed.

Lemma find_match_found (ref : gset Z) (forms forms' : list (gset Z)) :
  find_match ref forms = (true, forms') → forms ≡ₚ ref :: forms'.
Proof.
  unfold find_match. rewrite find_match_loop_spec.
  case_decide; [|done]. intros [= <-]. by apply list_remove_Permutation.
Qed.

Lemma find_match_not_found (ref : gset Z) (forms forms' : list (gset Z)) :
  find_match ref forms = (false, forms') → ref ∉ forms.
Proof.
  unfold find_match. rewrite find_match_loop_spec. by case_decide.
Qed.

Lemma find_match_elem_of (ref : gset Z) (forms : list (gset Z)) :
  ref ∈ forms → ∃ forms', find_match ref forms = (true, forms').
Proof.
  intros Hin. destruct (find_match ref forms) as [[] forms'] eqn:Hf; [eauto|].
  by apply find_match_not_found in Hf.
Qed.

(** The greedy removal decides equality as collections of sets. *)
Lemma greedy3_spec (a b c : gset Z) (forms : list (gset Z)) :
  greedy3 a b c forms = true ↔ forms ≡ₚ [a; b; c].
Proof.
  unfold greedy3. split.
  - destruct (find_match a forms) as [[] l1] eqn:H1; simpl; [|done].
    destruct (find_match b l1) as [[] l2] eqn:H2; simpl; [|done].
    apply find_match_found in H1, H2.
    case_bool_decide as Hlen; [done|]. intros Hc%bool_decide_eq_true.
    destruct l2 as [|x [|??]]; simplify_eq/=; try lia.
    by rewrite H1, H2.
  - intros Hp.
    destruct (find_match_elem_of a forms) as [l1 H1]; [rewrite Hp; left|].
    rewrite H1. simpl. apply find_match_found in H1.
    rewrite H1 in Hp. apply Permutation_cons_inv in Hp.
    destruct (find_match_elem_of b l1) as [l2 H2]; [rewrite Hp; left|].
    rewrite H2. simpl. apply find_match_found in H2.
    rewrite H2 in Hp. apply Permutation_cons_inv in Hp.
    apply Permutation_singleton_r in Hp as ->. simpl.
    by rewrite bool_decide_eq_true_2.
Qed.

Lemma greedy4_spec (a b c d : gset Z) (forms : list (gset Z)) :
  greedy4 a b c d forms = true ↔ forms ≡ₚ [a; b; c; d].
Proof.
  unfold greedy4. split.
  - destruct (find_match a forms) as [[] l1] eqn:H1; simpl; [|done].
    destruct (find_match b l1) as [[] l2] eqn:H2; simpl; [|done].
    destruct (find_match c l2) as [[] l3] eqn:H3; simpl; [|done].
    apply find_match_found in H1, H2, H3.
    case_bool_decide as Hlen; [done|]. intros Hd%bool_decide_eq_true.
    destruct l3 as [|x [|??]]; simplify_eq/=; try lia.
    by rewrite H1, H2, H3.
  - intros Hp.
    destruct (find_match_elem_of a forms) as [l1 H1]; [rewrite Hp; left|].
    rewrite H1. simpl. apply find_match_found in H1.
    rewrite H1 in Hp. apply Permutation_cons_inv in Hp.
    destruct (find_match_elem_of b l1) as [l2 H2]; [rewrite Hp; left|].
    rewrite H2. simpl. apply find_match_found in H2.
    rewrite H2 in Hp. apply Permutation_cons_inv in Hp.
    destruct (find_match_elem_of c l2) as [l3 H3]; [rewrite Hp; left|].
    rewrite H3. simpl. apply find_match_found in H3.
    rewrite H3 in Hp. apply Permutation_cons_inv in Hp.
    apply Permutation_singleton_r in Hp as ->. simpl.
    by rewrite bool_decide_eq_true_2.
Qed.

(** *** Tetrachords and trichords *)

Lemma segment_emit (acc : list string) (matched excl : bool) (t : Z) (pre : string)
    (M : Prop) `{Decision M} :
  (matched = true ↔ M) →
  (if matched
   then if excl && bool_decide (t = 0) then acc else acc ++ [pre +:+ pretty t]
   else acc)
  = acc ++ option_list (if decide (M ∧ (excl = true → t ≠ 0))
                        then Some (pre +:+ pretty t) else None).
Proof.
  intros HM. destruct matched.
  - destruct excl; simpl.
    + case_bool_decide as Ht.
      * rewrite decide_False by (intros [_ Hn]; by apply Hn).
        simpl. by rewrite app_nil_r.
      * rewrite decide_True; [done|]. split; [by apply HM | done].
    + rewrite decide_True; [done|]. split; [by apply HM | done].
  - rewrite decide_False; [simpl; by rewrite app_nil_r|].
    intros [Hm _]. by apply HM in Hm.
Qed.

Lemma Partition_4 (row : list Z) :
  Partition row 4 =
  [list_to_set (take 4 row); list_to_set (take 4 (drop 4 row));
   list_to_set (take 4 (drop 8 row))].
Proof. unfold Partition. simpl. by rewrite !drop_drop. Qed.

Lemma Partition_3 (row : list Z) :
  Partition row 3 =
  [list_to_set (take 3 row); list_to_set (take 3 (drop 3 row));
   list_to_set (take 3 (drop 6 row)); list_to_set (take 3 (drop 9 row))].
Proof. unfold Partition. simpl. by rewrite !drop_drop. Qed.

Lemma tetrachord_body (acc : list string) (p0 form : list Z)
    (excl : bool) (t : Z) (pre : string) :
  (let '(found_first, forms) :=
     find_match (list_to_set (take 4 p0))
       [list_to_set (take 4 form); list_to_set (take 4 (drop 4 form));
        list_to_set (take 4 (drop 8 form))] in
   if negb found_first then acc else
   let '(found_second, forms) :=
     find_match (list_to_set (take 4 (drop 4 p0))) forms in
   if negb found_second then acc else
   if bool_decide (length forms ≠ 1%nat) then acc else
   if negb (bool_decide ((list_to_set (take 4 (drop 8 p0)) : gset Z)
                         = forms !!! 0%nat))
   then acc
   else if excl && bool_decide (t = 0) then acc else acc ++ [pre +:+ pretty t])
  = acc ++ option_list
             (if decide (MatchesAsMultiset (Partition form 4) (Partition p0 4)
                         ∧ (excl = true → t ≠ 0))
              then Some (pre +:+ pretty t) else None).
Proof.
  rewrite <- (segment_emit acc
    (greedy3 (list_to_set (take 4 p0)) (list_to_set (take 4 (drop 4 p0)))
             (list_to_set (take 4 (drop 8 p0)))
             [list_to_set (take 4 form); list_to_set (take 4 (drop 4 form));
              list_to_set (take 4 (drop 8 form))])).
  - unfold greedy3.
    destruct (find_match _ _) as [[] l1]; simpl; [|done].
    destruct (find_match _ l1) as [[] l2]; simpl; [|done].
    case_bool_decide; [done|]. by case_bool_decide.
  - rewrite greedy3_spec, !Partition_4. reflexivity.
Qed.

Lemma trichord_body (acc : list string) (p0 form : list Z)
    (excl : bool) (t : Z) (pre : string) :
  (let '(found_first, forms) :=
     find_match (list_to_set (take 3 p0))
       [list_to_set (take 3 form); list_to_set (take 3 (drop 3 form));
        list_to_set (take 3 (drop 6 form)); list_to_set (take 3 (drop 9 form))] in
   if negb found_first then acc else
   let '(found_second, forms) :=
     find_match (list_to_set (take 3 (drop 3 p0))) forms in
   if negb found_second then acc else
   let '(found_third, forms) :=
     find_match (list_to_set (take 3 (drop 6 p0))) forms in
   if negb found_third then acc else
   if bool_decide (length forms ≠ 1%nat) then acc else
   if negb (bool_decide ((list_to_set (take 3 (drop 9 p0)) : gset Z)
                         = forms !!! 0%nat))
   then acc
   else if excl && bool_decide (t = 0) then acc else acc ++ [pre +:+ pretty t])
  = acc ++ option_list
             (if decide (MatchesAsMultiset (Partition form 3) (Partition p0 3)
                         ∧ (excl = true → t ≠ 0))
              then Some (pre +:+ pretty t) else None).
Proof.
  rewrite <- (segment_emit acc
    (greedy4 (list_to_set (take 3 p0)) (list_to_set (take 3 (drop 3 p0)))
             (list_to_set (take 3 (drop 6 p0))) (list_to_set (take 3 (drop 9 p0)))
             [list_to_set (take 3 form); list_to_set (take 3 (drop 3 form));
              list_to_set (take 3 (drop 6 form));
              list_to_set (take 3 (drop 9 form))])).
  - unfold greedy4.
    destruct (find_match _ _) as [[] l1]; simpl; [|done].
    destruct (find_match _ l1) as [[] l2]; simpl; [|done].
    destruct (find_match _ l2) as [[] l3]; simpl; [|done].
    case_bool_decide; [done|]. by case_bool_decide.
  - rewrite greedy4_spec, !Partition_3. reflexivity.
Qed.

Lemma tetrachord_detector_emit (row : list Z) (toneRow : ToneRow.t) (K : kind) :
  ToneRow.init row = inr toneRow →
  tetrachord_detector K toneRow = omap (segment_label 4 K toneRow) (seq 0 12).
Proof.
  intros [Hv Hm]%init_inv.
  destruct toneRow as [m]. cbn [ToneRow.matrix] in Hm. subst m.
  destruct K; cbn [tetrachord_detector].
  - unfold CombinatorialTetrachords.prime_combinatorials. cbv zeta.
    apply (foldl_emit_rows _ (segment_label 4 Prime _)).
    intros acc i Hi. apply (tetrachord_body acc _ _ true).
  - unfold CombinatorialTetrachords.retrograde_combinatorials. cbv zeta.
    apply (foldl_emit_rows _ (segment_label 4 Retrograde _)).
    intros acc i Hi. apply (tetrachord_body acc _ _ true).
  - unfold CombinatorialTetrachords.inversion_combinatorials. cbv zeta.
    apply (foldl_emit_indices _ (segment_label 4 Inversion _)).
    intros acc i Hi. apply (tetrachord_body acc _ _ false).
  - unfold CombinatorialTetrachords.retrograde_inversion_combinatorials. cbv zeta.
    apply (foldl_emit_indices _ (segment_label 4 RetrogradeInversion _)).
    intros acc i Hi. apply (tetrachord_body acc _ _ false).
Qed.

Lemma trichord_detector_emit (row : list Z) (toneRow : ToneRow.t) (K : kind) :
  ToneRow.init row = inr toneRow →
  trichord_detector K toneRow = omap (segment_label 3 K toneRow) (seq 0 12).
Proof.
  intros [Hv Hm]%init_inv.
  destruct toneRow as [m]. cbn [ToneRow.matrix] in Hm. subst m.
  destruct K; cbn [trichord_detector].
  - unfold CombinatorialTrichords.prime_combinatorials. cbv zeta.
    apply (foldl_emit_rows _ (segment_label 3 Prime _)).
    intros acc i Hi. apply (trichord_body acc _ _ true).
  - unfold CombinatorialTrichords.retrograde_combinatorials. cbv zeta.
    apply (foldl_emit_rows _ (segment_label 3 Retrograde _)).
    intros acc i Hi. apply (trichord_body acc _ _ true).
  - unfold CombinatorialTrichords.inversion_combinatorials. cbv zeta.
    apply (foldl_emit_indices _ (segment_label 3 Inversion _)).
    intros acc i Hi. apply (trichord_body acc _ _ false).
  - unfold CombinatorialTrichords.retrograde_inversion_combinatorials. cbv zeta.
    apply (foldl_emit_indices _ (segment_label 3 RetrogradeInversion _)).
    intros acc i Hi. apply (trichord_body acc _ _ false).
Qed.

(** C2.  For a valid row, each tetrachord (size 4) and trichord (size 3)
    detector runs through the twelve candidate forms of its kind in order
    and appends the label [K<t>] of a candidate exactly when the partition
    of the candidate is the same collection of sets as the partition of P0
    and, for P and R only, the level [t] is not 0.  The greedy removal that
    the detectors perform decides that equality of collections. *)
Theorem segment_detection (row : list Z) (toneRow : ToneRow.t) (K : kind) :
  ToneRow.init row = inr toneRow →
  ToneRow.matrix toneRow !!! 0%nat = row ∧
  tetrachord_detector K toneRow = omap (segment_label 4 K toneRow) (seq 0 12) ∧
  trichord_detector K toneRow = omap (segment_label 3 K toneRow) (seq 0 12) ∧
  (∀ (size i : nat) (s : string),
     segment_label size K toneRow i = Some s ↔
     MatchesAsMultiset
       (Partition (candidate_form K (ToneRow.matrix toneRow) i) size)
       (Partition row size)
     ∧ (excludes_level_0 K = true → level K toneRow i ≠ 0)
     ∧ s = label K (level K toneRow i)) ∧
  (∀ s : string,
     s ∈ tetrachord_detector K toneRow ↔
     ∃ i : nat, (i < 12)%nat ∧
       Partition (candidate_form K (ToneRow.matrix toneRow) i) 4
         ≡ₚ Partition row 4
       ∧ (K = Prime ∨ K = Retrograde → level K toneRow i ≠ 0)
       ∧ s = label K (level K toneRow i)) ∧
  (∀ s : string,
     s ∈ trichord_detector K toneRow ↔
     ∃ i : nat, (i < 12)%nat ∧
       Partition (candidate_form K (ToneRow.matrix toneRow) i) 3
         ≡ₚ Partition row 3
       ∧ (K = Prime ∨ K = Retrograde → level K toneRow i ≠ 0)
       ∧ s = label K (level K toneRow i)) ∧
  (∀ t : Z,
     K = Prime ∨ K = Retrograde →
     label K t ∈ tetrachord_detector K toneRow
     ∨ label K t ∈ trichord_detector K toneRow →
     t ≠ 0) ∧
  (∀ (a b c : gset Z) (forms : list (gset Z)),
     greedy3 a b c forms = true ↔ forms ≡ₚ [a; b; c]) ∧
  (∀ (a b c d : gset Z) (forms : list (gset Z)),
     greedy4 a b c d forms = true ↔ forms ≡ₚ [a; b; c; d]).
Proof.
  intros Hinit.
  pose proof (tetrachord_detector_emit row toneRow K Hinit) as Htet.
  pose proof (trichord_detector_emit row toneRow K Hinit) as Htri.
  apply init_inv in Hinit as [Hv Hm].
  assert (ToneRow.matrix toneRow !!! 0%nat = row) as Hp0 by (by rewrite Hm).
  assert (∀ (size i : nat) (s : string),
     segment_label size K toneRow i = Some s ↔
     MatchesAsMultiset
       (Partition (candidate_form K (ToneRow.matrix toneRow) i) size)
       (Partition row size)
     ∧ (excludes_level_0 K = true → level K toneRow i ≠ 0)
     ∧ s = label K (level K toneRow i)) as Hlabel.
  { intros size i s. unfold segment_label. cbv zeta. rewrite Hp0.
    case_decide as Hd.
    - destruct Hd. split; [by intros [= <-] | by intros (_ & _ & ->)].
    - split; [done|]. intros (? & ? & _). by destruct Hd. }
  assert (excludes_level_0 K = true ↔ K = Prime ∨ K = Retrograde) as Hexcl.
  { destruct K; simpl; split; auto; intros H; try discriminate H;
      destruct H as [H | H]; discriminate H. }
  assert (∀ size s,
     s ∈ omap (segment_label size K toneRow) (seq 0 12) ↔
     ∃ i : nat, (i < 12)%nat ∧
       Partition (candidate_form K (ToneRow.matrix toneRow) i) size
         ≡ₚ Partition row size
       ∧ (K = Prime ∨ K = Retrograde → level K toneRow i ≠ 0)
       ∧ s = label K (level K toneRow i)) as Hmem.
  { intros size s. rewrite elem_of_omap_seq. split.
    - intros (i & Hi & (Hp & Ht & ->)%Hlabel). exists i.
      rewrite <- Hexcl. done.
    - intros (i & Hi & Hp & Ht & ->). exists i. split; [done|].
      apply Hlabel. rewrite Hexcl. done. }
  split; [exact Hp0|]. split; [exact Htet|]. split; [exact Htri|].
  split; [exact Hlabel|].
  split; [intros s; rewrite Htet; apply Hmem|].
  split; [intros s; rewrite Htri; apply Hmem|].
  split; [|split; [apply greedy3_spec | apply greedy4_spec]].
  intros t HK Hin.
  assert (∃ size, label K t ∈ omap (segment_label size K toneRow) (seq 0 12))
    as [size (i & _ & _ & Ht & Heq)%Hmem].
  { destruct Hin as [Hin | Hin]; [exists 4%nat; by rewrite <- Htet
                                 | exists 3%nat; by rewrite <- Htri]. }
  apply label_inj in Heq. subst t. by apply Ht.
Qed.

Lemma segment_detection_witness :
  "I0" ∈ trichord_detector Inversion
           (ToneRow.Build (ToneRow.matrix_of trichord_symmetric_row)).
Proof.
  destruct (segment_detection trichord_symmetric_row
              (ToneRow.Build (ToneRow.matrix_of trichord_symmetric_row))
              Inversion)
    as (_ & _ & _ & _ & _ & Hmem & _); [vm_compute; reflexivity|].
  apply Hmem. exists 0%nat.
  split; [lia|].
  split; [apply (bool_decide_eq_true_1 _); vm_compute; reflexivity|].
  split; [intros [?|?]; discriminate | vm_compute; reflexivity].
Defined.


Example trichord_identity_level_emitted :
  CombinatorialTrichords.inversion_combinatorials
    (ToneRow.Build (ToneRow.matrix_of trichord_symmetric_row))
  = ["I0"; "I6"; "I3"; "I9"].
Proof. vm_compute. reflexivity. Qed.

(** ** Tests

    The expected values of the unit tests of the repository, and the model
    of [itertools.permutations] against the algorithm of its documentation. *)

Example test_webern_matrix :
  ToneRow.twelvetone_matrix webern_row = inr
    [ [ 0; 11;  3;  4;  8;  7;  9;  5;  6;  1;  2; 10];
      [ 1;  0;  4;  5;  9;  8; 10;  6;  7;  2;  3; 11];
      [ 9;  8;  0;  1;  5;  4;  6;  2;  3; 10; 11;  7];
      [ 8;  7; 11;  0;  4;  3;  5;  1;  2;  9; 10;  6];
      [ 4;  3;  7;  8;  0; 11;  1;  9; 10;  5;  6;  2];
      [ 5;  4;  8;  9;  1;  0;  2; 10; 11;  6;  7;  3];
      [ 3;  2;  6;  7; 11; 10;  0;  8;  9;  4;  5;  1];
      [ 7;  6; 10; 11;  3;  2;  4;  0;  1;  8;  9;  5];
      [ 6;  5;  9; 10;  2;  1;  3; 11;  0;  7;  8;  4];
      [11; 10;  2;  3;  7;  6;  8;  4;  5;  0;  1;  9];
      [10;  9;  1;  2;  6;  5;  7;  3;  4; 11;  0;  8];
      [ 2;  1;  5;  6; 10;  9; 11;  7;  8;  3;  4;  0] ].
Proof. vm_compute. reflexivity. Qed.

Example test_webern_forms :
  let tr := ToneRow.Build (ToneRow.matrix_of webern_row) in
  ToneRow.inversion tr = [0; 1; 9; 8; 4; 5; 3; 7; 6; 11; 10; 2] ∧
  ToneRow.retrograde tr = [10; 2; 1; 6; 5; 9; 7; 8; 4; 3; 11; 0] ∧
  ToneRow.retrograde_inversion tr = [2; 10; 11; 6; 7; 3; 5; 4; 8; 9; 1; 0].
Proof. vm_compute. repeat split. Qed.

Example test_hexachords_identity :
  CombinatorialHexachords.all_hexachordal_combinatorials
    (ToneRow.Build (ToneRow.matrix_of identity_row)) = ["P6"; "I11"; "RI5"].
Proof. vm_compute. reflexivity. Qed.

Example test_hexachords_row_6_20 :
  CombinatorialHexachords.all_hexachordal_combinatorials
    (ToneRow.Build (ToneRow.matrix_of row_6_20))
  = ["P10"; "P6"; "P2"; "R8"; "R4"; "I3"; "I7"; "I11"; "RI1"; "RI5"; "RI9"].
Proof. vm_compute. reflexivity. Qed.

Example test_tetrachords_identity :
  CombinatorialTetrachords.all_tetrachordal_combinatorials
    (ToneRow.Build (ToneRow.matrix_of identity_row))
  = ["P8"; "P4"; "R8"; "R4"; "I3"; "I7"; "I11"; "RI3"; "RI7"; "RI11"].
Proof. vm_compute. reflexivity. Qed.

Example test_trichords_identity :
  CombinatorialTrichords.all_trichordal_combinatorials
    (ToneRow.Build (ToneRow.matrix_of identity_row))
  = ["P9"; "P6"; "P3"; "R9"; "R6"; "R3"; "I2"; "I5"; "I8"; "I11";
     "RI2"; "RI5"; "RI8"; "RI11"].
Proof. vm_compute. reflexivity. Qed.

Example permutations_3 :
  itertools.permutations [1; 2; 3]
  = [[1; 2; 3]; [1; 3; 2]; [2; 1; 3]; [2; 3; 1]; [3; 1; 2]; [3; 2; 1]].
Proof. reflexivity. Qed.

Example permutations_reference_agrees :
  Forall (λ pool : list Z,
            itertools.permutations_reference 1000 pool
            = itertools.permutations pool)
    [[]; [1]; [1; 2]; [1; 2; 3]; [1; 2; 3; 4]; [1; 2; 3; 4; 5];
     [1; 2; 3; 4; 5; 6]; [3; 1; 2]; [2; 2; 1]].
Proof. repeat constructor; vm_compute; reflexivity. Qed.

(** ** The canonical forms *)

(** Every entry of the matrix, row 0 included. *)
Lemma matrix_of_entry_all (primeRow : list Z) (i j : nat) :
  ToneRow.is_valid_tonerow primeRow = true → (i < 12)%nat → (j < 12)%nat →
  (ToneRow.matrix_of primeRow !!! i) !!! j =
  (primeRow !!! j + primeRow !!! 0%nat - primeRow !!! i) mod 12.
Proof.
  intros Hv Hi Hj. pose proof (valid_length _ Hv) as Hlen.
  destruct (decide (i = 0%nat)) as [-> | Hne].
  - change (ToneRow.matrix_of primeRow !!! 0%nat) with primeRow.
    replace (primeRow !!! j + primeRow !!! 0%nat - primeRow !!! 0%nat)
      with (primeRow !!! j) by lia.
    symmetry. apply Z.mod_small. by apply valid_lookup_total_range.
  - apply matrix_of_entry; lia.
Qed.

Lemma column_lookup_total (m : list (list Z)) (i j : nat) :
  (i < length m)%nat → ToneRow.column m j !!! i = (m !!! i) !!! j.
Proof.
  intros Hi. unfold ToneRow.column. apply list_lookup_total_correct.
  rewrite list_lookup_fmap, (list_lookup_lookup_total_lt m i Hi). reflexivity.
Qed.

Lemma valid_reverse (row : list Z) :
  ToneRow.is_valid_tonerow row = true →
  ToneRow.is_valid_tonerow (reverse row) = true.
Proof.
  rewrite !is_valid_tonerow_Permutation. by rewrite reverse_Permutation.
Qed.

(** X1.  The four accessors of an instance built from a valid row: P0 is the row
    given, R0 is P0 read backwards, RI0 is I0 read backwards, and P0 and I0
    start on the same note. *)
Theorem canonical_forms (row : list Z) (toneRow : ToneRow.t) :
  ToneRow.init row = inr toneRow →
  ToneRow.prime_row toneRow = row ∧
  ToneRow.retrograde toneRow = reverse (ToneRow.prime_row toneRow) ∧
  ToneRow.retrograde_inversion toneRow = reverse (ToneRow.inversion toneRow) ∧
  ToneRow.prime_row toneRow !!! 0%nat = ToneRow.inversion toneRow !!! 0%nat.
Proof.
  intros [Hv Hm]%init_inv. pose proof (valid_length _ Hv) as Hlen.
  destruct toneRow as [m]. cbn [ToneRow.matrix] in Hm. subst m.
  unfold ToneRow.prime_row, ToneRow.retrograde, ToneRow.retrograde_inversion,
    ToneRow.inversion. cbn [ToneRow.matrix].
  split; [reflexivity|]. split; [reflexivity|].
  split; [unfold ToneRow.column; by rewrite fmap_reverse|].
  rewrite column_lookup_total by (rewrite length_matrix_of; lia). reflexivity.
Qed.

Lemma canonical_forms_witness :
  ToneRow.retrograde_inversion (ToneRow.Build (ToneRow.matrix_of webern_row))
  = reverse (ToneRow.inversion (ToneRow.Build (ToneRow.matrix_of webern_row))).
Proof.
  destruct (canonical_forms webern_row
              (ToneRow.Build (ToneRow.matrix_of webern_row)))
    as (_ & _ & Hri & _); [vm_compute; reflexivity|].
  exact Hri.
Defined.

(** X2.  Each of the four canonical forms is itself a valid tone row, so each can
    be given to the constructor or to [transpose_row]. *)
Theorem canonical_forms_valid (row : list Z) (toneRow : ToneRow.t) :
  ToneRow.init row = inr toneRow →
  ToneRow.is_valid_tonerow (ToneRow.prime_row toneRow) = true ∧
  ToneRow.is_valid_tonerow (ToneRow.inversion toneRow) = true ∧
  ToneRow.is_valid_tonerow (ToneRow.retrograde toneRow) = true ∧
  ToneRow.is_valid_tonerow (ToneRow.retrograde_inversion toneRow) = true.
Proof.
  intros [Hv Hm]%init_inv.
  destruct toneRow as [m]. cbn [ToneRow.matrix] in Hm. subst m.
  assert (ToneRow.is_valid_tonerow
            (ToneRow.inversion (ToneRow.Build (ToneRow.matrix_of row))) = true)
    as Hinv.
  { unfold ToneRow.inversion. cbn [ToneRow.matrix].
    rewrite column_matrix_of by (done || lia). by apply valid_mirrored. }
  split; [exact Hv|]. split; [exact Hinv|]. split.
  - by apply valid_reverse.
  - unfold ToneRow.retrograde_inversion. rewrite fmap_reverse.
    by apply valid_reverse.
Qed.

Lemma canonical_forms_valid_witness :
  ToneRow.is_valid_tonerow
    (ToneRow.retrograde_inversion (ToneRow.Build (ToneRow.matrix_of webern_row)))
  = true.
Proof.
  destruct (canonical_forms_valid webern_row
              (ToneRow.Build (ToneRow.matrix_of webern_row)))
    as (_ & _ & _ & Hri); [vm_compute; reflexivity|].
  exact Hri.
Defined.

(** ** The shape of the matrix *)

(** X3.  The main diagonal of the matrix holds the first note of the row
    throughout, and entries mirrored in the diagonal are inversions of one
    another about that note: they add up to twice the first note, modulo 12. *)
Theorem matrix_diagonal (row : list Z) (m : list (list Z)) :
  ToneRow.twelvetone_matrix row = inr m →
  ToneRow.is_valid_tonerow row = true →
  (∀ i : nat, (i < 12)%nat → (m !!! i) !!! i = row !!! 0%nat) ∧
  (∀ i j : nat, (i < 12)%nat → (j < 12)%nat →
     ((m !!! i) !!! j + (m !!! j) !!! i) mod 12 = (2 * row !!! 0%nat) mod 12).
Proof.
  intros Hm Hv. rewrite twelvetone_matrix_valid in Hm by done.
  injection Hm as <-. split.
  - intros i Hi. rewrite matrix_of_entry_all by done.
    replace (row !!! i + row !!! 0%nat - row !!! i) with (row !!! 0%nat) by lia.
    apply Z.mod_small. apply valid_lookup_total_range; [done | lia].
  - intros i j Hi Hj. rewrite !matrix_of_entry_all by done.
    rewrite <- Z.add_mod by lia. f_equal. lia.
Qed.

Lemma matrix_diagonal_witness :
  (ToneRow.matrix_of webern_row !!! 7%nat) !!! 7%nat = 0.
Proof.
  destruct (matrix_diagonal webern_row (ToneRow.matrix_of webern_row))
    as [Hdiag _]; [reflexivity | vm_compute; reflexivity |].
  rewrite Hdiag by lia. reflexivity.
Defined.

(** ** More on transposition *)

Lemma transposed_transposed (row : list Z) (a b : Z) :
  transposed (transposed row a) b = transposed row (a + b).
Proof.
  unfold transposed. rewrite <- list_fmap_compose.
  apply list_fmap_ext. intros _ x _. simpl.
  rewrite Zplus_mod_idemp_l. f_equal. lia.
Qed.

Lemma transposed_0 (row : list Z) :
  ToneRow.is_valid_tonerow row = true → transposed row 0 = row.
Proof.
  intros Hv. unfold transposed. rewrite <- (list_fmap_id row) at 2.
  apply list_fmap_ext. intros i x Hx. simpl. rewrite Z.add_0_r.
  apply Z.mod_small, (valid_range row); [done|]. by eapply list_elem_of_lookup_2.
Qed.

Lemma transpose_row_result (σ : gmap ToneRow.loc (list Z))
    (primeRow : ToneRow.loc) (R : list Z) (intervalSize : Z) :
  σ !! primeRow = Some R →
  ToneRow.is_valid_tonerow R = true →
  -11 ≤ intervalSize ≤ 11 →
  (ToneRow.transpose_row primeRow intervalSize σ).1 = inr primeRow ∧
  (ToneRow.transpose_row primeRow intervalSize σ).2 !! primeRow
    = Some (transposed R intervalSize).
Proof.
  intros Hσ Hv Hi. rewrite (transpose_row_run σ primeRow R) by done. simpl.
  split; [reflexivity|]. rewrite lookup_insert_eq. f_equal.
  rewrite <- transposed_mod.
  unfold transposed. apply list_fmap_ext. intros _ x _. simpl.
  replace (x + (intervalSize + 12)) with (x + intervalSize + 1 * 12) by lia.
  apply Z_mod_plus_full.
Qed.

(** X4.  The array that [transpose_row] hands back is again a valid tone row, so
    a further call on it does not fail on validation. *)
Theorem transpose_row_keeps_valid (σ : gmap ToneRow.loc (list Z))
    (primeRow : ToneRow.loc) (R : list Z) (intervalSize : Z) :
  σ !! primeRow = Some R →
  ToneRow.is_valid_tonerow R = true →
  -11 ≤ intervalSize ≤ 11 →
  ∃ (q : ToneRow.loc) (R' : list Z),
    (ToneRow.transpose_row primeRow intervalSize σ).1 = inr q ∧
    (ToneRow.transpose_row primeRow intervalSize σ).2 !! q = Some R' ∧
    ToneRow.is_valid_tonerow R' = true.
Proof.
  intros Hσ Hv Hi.
  destruct (transpose_row_result σ primeRow R intervalSize) as [Hq HR];
    [done..|].
  exists primeRow, (transposed R intervalSize).
  split; [exact Hq|]. split; [exact HR|]. by apply valid_transposed.
Qed.

Lemma transpose_row_keeps_valid_witness :
  ∃ (q : ToneRow.loc) (R' : list Z),
    (ToneRow.transpose_row 3%positive 7 {[ 3%positive := webern_row ]}).1 = inr q ∧
    (ToneRow.transpose_row 3%positive 7 {[ 3%positive := webern_row ]}).2 !! q
      = Some R' ∧
    ToneRow.is_valid_tonerow R' = true.
Proof.
  apply (transpose_row_keeps_valid _ _ webern_row);
    [reflexivity | vm_compute; reflexivity | lia].
Defined.

(** X5.  Two calls in a row, on the array the first returns, transpose by the sum
    of the two intervals. *)
Theorem transpose_row_twice (σ : gmap ToneRow.loc (list Z))
    (primeRow : ToneRow.loc) (R : list Z) (i j : Z) :
  σ !! primeRow = Some R →
  ToneRow.is_valid_tonerow R = true →
  -11 ≤ i ≤ 11 → -11 ≤ j ≤ 11 →
  ∃ q : ToneRow.loc,
    (ToneRow.transpose_row primeRow i σ).1 = inr q ∧
    (ToneRow.transpose_row q j (ToneRow.transpose_row primeRow i σ).2).1 = inr q ∧
    (ToneRow.transpose_row q j (ToneRow.transpose_row primeRow i σ).2).2 !! q
      = Some ((λ x, (x + (i + j)) mod 12) <$> R).
Proof.
  intros Hσ Hv Hi Hj.
  destruct (transpose_row_result σ primeRow R i) as [Hq HR]; [done..|].
  exists primeRow. split; [exact Hq|].
  destruct (transpose_row_result (ToneRow.transpose_row primeRow i σ).2
              primeRow (transposed R i) j) as [Hq' HR'];
    [done | by apply valid_transposed | done |].
  split; [exact Hq'|]. rewrite HR', transposed_transposed. reflexivity.
Qed.

Lemma transpose_row_twice_witness :
  ∃ q : ToneRow.loc,
    (ToneRow.transpose_row 1%positive 9 {[ 1%positive := identity_row ]}).1 = inr q ∧
    (ToneRow.transpose_row q 8
       (ToneRow.transpose_row 1%positive 9 {[ 1%positive := identity_row ]}).2).2
      !! q
    = Some [5; 6; 7; 8; 9; 10; 11; 0; 1; 2; 3; 4].
Proof.
  destruct (transpose_row_twice {[ 1%positive := identity_row ]} 1%positive
              identity_row 9 8) as (q & Hq & _ & Hrow);
    [reflexivity | vm_compute; reflexivity | lia | lia |].
  exists q. split; [exact Hq|]. rewrite Hrow. vm_compute. reflexivity.
Defined.

(** X6.  Transposing by an interval and then by its opposite gives the array its
    original values back. *)
Theorem transpose_row_round_trip (σ : gmap ToneRow.loc (list Z))
    (primeRow : ToneRow.loc) (R : list Z) (intervalSize : Z) :
  σ !! primeRow = Some R →
  ToneRow.is_valid_tonerow R = true →
  -11 ≤ intervalSize ≤ 11 →
  ∃ q : ToneRow.loc,
    (ToneRow.transpose_row primeRow intervalSize σ).1 = inr q ∧
    (ToneRow.transpose_row q (- intervalSize)
       (ToneRow.transpose_row primeRow intervalSize σ).2).1 = inr q ∧
    (ToneRow.transpose_row q (- intervalSize)
       (ToneRow.transpose_row primeRow intervalSize σ).2).2 !! q = Some R.
Proof.
  intros Hσ Hv Hi.
  destruct (transpose_row_result σ primeRow R intervalSize) as [Hq HR];
    [done..|].
  exists primeRow. split; [exact Hq|].
  destruct (transpose_row_result
              (ToneRow.transpose_row primeRow intervalSize σ).2
              primeRow (transposed R intervalSize) (- intervalSize))
    as [Hq' HR']; [done | by apply valid_transposed | lia |].
  split; [exact Hq'|]. rewrite HR', transposed_transposed.
  replace (intervalSize + - intervalSize) with 0 by lia.
  by rewrite transposed_0.
Qed.

Lemma transpose_row_round_trip_witness :
  ∃ q : ToneRow.loc,
    (ToneRow.transpose_row 1%positive 4 {[ 1%positive := webern_row ]}).1 = inr q ∧
    (ToneRow.transpose_row q (-4)
       (ToneRow.transpose_row 1%positive 4 {[ 1%positive := webern_row ]}).2).2
      !! q
    = Some webern_row.
Proof.
  destruct (transpose_row_round_trip {[ 1%positive := webern_row ]} 1%positive
              webern_row 4) as (q & Hq & _ & Hrow);
    [reflexivity | vm_compute; reflexivity | lia |].
  exists q. split; [exact Hq | exact Hrow].
Defined.




(** X8.  Row [i] of the matrix is what [transpose_row] makes of a copy of the
    prime row, for the interval [(inversion[i] - inversion[0]) mod 12],
    which is always within the bounds of [transpose_row]. *)
Theorem matrix_row_is_transposition (σ : gmap ToneRow.loc (list Z))
    (copy : ToneRow.loc) (R : list Z) (i : nat) :
  σ !! copy = Some R →
  ToneRow.is_valid_tonerow R = true →
  (1 ≤ i ≤ 11)%nat →
  let interval := ((- R !!! i) mod 12 - (- R !!! 0%nat) mod 12) mod 12 in
  0 ≤ interval ≤ 11 ∧
  (ToneRow.transpose_row copy interval σ).1 = inr copy ∧
  (ToneRow.transpose_row copy interval σ).2 !! copy
    = Some (ToneRow.matrix_of R !!! i).
Proof.
  intros Hσ Hv Hi interval. pose proof (valid_length R Hv) as Hlen.
  assert (0 ≤ interval ≤ 11) as Hint.
  { pose proof (Z.mod_pos_bound ((- R !!! i) mod 12 - (- R !!! 0%nat) mod 12) 12).
    unfold interval. lia. }
  split; [exact Hint|].
  destruct (transpose_row_result σ copy R interval) as [Hq HR]; [done | done | lia |].
  split; [exact Hq|]. rewrite HR. f_equal.
  rewrite (list_lookup_total_correct _ _ _ (matrix_of_lookup R i Hi)).
  rewrite !inversion_of_lookup_total by lia. reflexivity.
Qed.

Lemma matrix_row_is_transposition_witness :
  (ToneRow.transpose_row 1%positive 9 {[ 1%positive := webern_row ]}).2 !! 1%positive
  = Some [9; 8; 0; 1; 5; 4; 6; 2; 3; 10; 11; 7].
Proof.
  destruct (matrix_row_is_transposition {[ 1%positive := webern_row ]}
              1%positive webern_row 2) as (_ & _ & Hrow);
    [reflexivity | vm_compute; reflexivity | lia |].
  exact Hrow.
Defined.

(** ** More on validity *)

(** X9.  The validator accepts exactly the sequences of twelve pairwise distinct
    values between 0 and 11; it does not look at the order, so any
    rearrangement of a valid row, its reversal among them, is valid. *)
Theorem is_valid_tonerow_characterisation (toneRow : list Z) :
  (ToneRow.is_valid_tonerow toneRow = true ↔
     length toneRow = 12%nat ∧ NoDup toneRow ∧ ∀ x : Z, x ∈ toneRow → 0 ≤ x ≤ 11) ∧
  (∀ other : list Z, other ≡ₚ toneRow →
     ToneRow.is_valid_tonerow other = ToneRow.is_valid_tonerow toneRow) ∧
  ToneRow.is_valid_tonerow (reverse toneRow) = ToneRow.is_valid_tonerow toneRow.
Proof.
  assert (∀ a b : list Z, a ≡ₚ b →
            ToneRow.is_valid_tonerow a = ToneRow.is_valid_tonerow b) as Hperm.
  { intros a b Hab. apply eq_true_iff_eq.
    by rewrite !is_valid_tonerow_Permutation, Hab. }
  split; [|split; [exact (λ other, Hperm other toneRow)|]].
  - split.
    + intros Hv. split; [by apply valid_length|]. split; [by apply valid_NoDup|].
      intros x Hx. pose proof (valid_range toneRow x Hv Hx). lia.
    + intros (Hlen & Hnd & Hrange). apply is_valid_tonerow_Permutation.
      apply submseteq_length_Permutation.
      * apply NoDup_submseteq; [done|].
        intros x Hx. apply elem_of_seqZ. specialize (Hrange x Hx). lia.
      * rewrite Hlen. reflexivity.
  - apply Hperm, reverse_Permutation.
Qed.

Lemma is_valid_tonerow_characterisation_witness :
  ToneRow.is_valid_tonerow [0; 1; 2; 3; 4; 5; 6; 7; 8; 9; 10; 0] = false.
Proof.
  destruct (is_valid_tonerow_characterisation
              [0; 1; 2; 3; 4; 5; 6; 7; 8; 9; 10; 0]) as [Hiff _].
  destruct (ToneRow.is_valid_tonerow [0; 1; 2; 3; 4; 5; 6; 7; 8; 9; 10; 0]);
    [|reflexivity].
  destruct Hiff as [Hnd _]. destruct (Hnd eq_refl) as (_ & Hnd' & _).
  apply NoDup_cons_1_1 in Hnd'. destruct Hnd'.
  do 10 apply list_elem_of_further. apply list_elem_of_here.
Defined.

(** ** The enumerator feeds the constructor *)

(** X10.  Every row the generator yields is accepted by the constructor; the
    instance has that row as P0, and its I0 is the row negated modulo 12. *)
Theorem enumerated_rows_construct (row : list Z) :
  row ∈ ToneRow.tonerows_starting_with_zero_iterator →
  ∃ toneRow : ToneRow.t,
    ToneRow.init row = inr toneRow ∧
    ToneRow.prime_row toneRow = row ∧
    ToneRow.inversion toneRow = (λ x, (- x) mod 12) <$> row.
Proof.
  rewrite iterator_rows. intros (perm & -> & Hperm)%list_elem_of_fmap.
  apply permutations_len_sound in Hperm; [|reflexivity].
  assert (ToneRow.is_valid_tonerow (0 :: perm) = true) as Hv.
  { apply is_valid_tonerow_Permutation. rewrite Hperm. reflexivity. }
  exists (ToneRow.Build (ToneRow.matrix_of (0 :: perm))).
  split; [by apply init_valid|]. split; [reflexivity|].
  unfold ToneRow.inversion. cbn [ToneRow.matrix].
  rewrite column_matrix_of by (done || lia).
  apply list_fmap_ext. intros _ x _. reflexivity.
Qed.

Lemma enumerated_rows_construct_witness :
  ∃ toneRow : ToneRow.t,
    ToneRow.init [0; 1; 2; 3; 4; 5; 6; 7; 8; 9; 11; 10] = inr toneRow ∧
    ToneRow.inversion toneRow = [0; 11; 10; 9; 8; 7; 6; 5; 4; 3; 1; 2].
Proof.
  destruct (enumerated_rows_construct [0; 1; 2; 3; 4; 5; 6; 7; 8; 9; 11; 10])
    as (toneRow & Hinit & _ & Hinv).
  - apply (list_elem_of_lookup_2 _ 1%nat). lazy. reflexivity.
  - exists toneRow. split; [exact Hinit|]. rewrite Hinv. reflexivity.
Defined.


(** ** The labels that the detectors emit *)

Lemma level_range (K : kind) (toneRow : ToneRow.t) (i : nat) :
  0 ≤ level K toneRow i ≤ 11.
Proof.
  unfold level.
  pose proof (Z.mod_pos_bound
    (candidate_form K (ToneRow.matrix toneRow) i !!! 0%nat
     - reference_form K toneRow !!! 0%nat + 12) 12). lia.
Qed.

Lemma pretty_pitch_not_I (t : Z) (s : string) :
  0 ≤ t ≤ 11 → pretty t ≠ "I" +:+ s.
Proof. intros Ht. cases12 t; vm_compute; discriminate. Qed.

Lemma label_inj_kind (K K' : kind) (t t' : Z) :
  0 ≤ t ≤ 11 → 0 ≤ t' ≤ 11 → label K t = label K' t' → K = K'.
Proof.
  intros Ht Ht' Heq. unfold label in Heq.
  destruct K, K'; try reflexivity; cbn [prefix] in Heq;
    try discriminate Heq; injection Heq as Heq.
  - by apply pretty_pitch_not_I in Heq.
  - symmetry in Heq. by apply pretty_pitch_not_I in Heq.
Qed.

Lemma length_column (m : list (list Z)) (j : nat) :
  length (ToneRow.column m j) = length m.
Proof. apply length_fmap. Qed.

Lemma candidate_first_note (K : kind) (row : list Z) (i : nat) :
  ToneRow.is_valid_tonerow row = true → (i < 12)%nat →
  candidate_form K (ToneRow.matrix_of row) i !!! 0%nat
  = first_notes K (ToneRow.matrix_of row) !!! i.
Proof.
  intros Hv Hi. pose proof (valid_length _ Hv) as Hlen.
  destruct K; unfold candidate_form, first_notes.
  - by rewrite column_lookup_total by (rewrite length_matrix_of; lia).
  - rewrite column_lookup_total by (rewrite length_matrix_of; lia).
    rewrite first_note_reverse by (by apply length_matrix_of_row).
    by rewrite length_matrix_of_row.
  - by rewrite column_lookup_total by (rewrite length_matrix_of; lia).
  - rewrite first_note_reverse by (by rewrite length_column, length_matrix_of).
    rewrite length_column, length_matrix_of.
    by rewrite column_lookup_total by (rewrite length_matrix_of; lia).
Qed.

Lemma matrix_of_row_valid (row : list Z) (i : nat) :
  ToneRow.is_valid_tonerow row = true → (i < 12)%nat →
  ToneRow.is_valid_tonerow (ToneRow.matrix_of row !!! i) = true.
Proof.
  intros Hv Hi. destruct (decide (i = 0%nat)) as [-> | Hne]; [exact Hv|].
  assert (1 ≤ i ≤ 11)%nat as Hi' by lia.
  rewrite (list_lookup_total_correct _ _ _ (matrix_of_lookup row i Hi')).
  by apply valid_transposed.
Qed.

Lemma matrix_of_column_valid (row : list Z) (j : nat) :
  ToneRow.is_valid_tonerow row = true → (j < 12)%nat →
  ToneRow.is_valid_tonerow (ToneRow.column (ToneRow.matrix_of row) j) = true.
Proof.
  intros Hv Hj. rewrite column_matrix_of by done. by apply valid_mirrored.
Qed.

Lemma first_notes_valid (K : kind) (row : list Z) :
  ToneRow.is_valid_tonerow row = true →
  ToneRow.is_valid_tonerow (first_notes K (ToneRow.matrix_of row)) = true.
Proof.
  intros Hv.
  destruct K; unfold first_notes.
  - apply matrix_of_column_valid; done || lia.
  - apply matrix_of_column_valid; done || lia.
  - apply matrix_of_row_valid; done || lia.
  - apply matrix_of_row_valid; done || lia.
Qed.

(** Distinct candidates of one kind have distinct levels. *)
Lemma level_inj (K : kind) (row : list Z) (i j : nat) :
  ToneRow.is_valid_tonerow row = true → (i < 12)%nat → (j < 12)%nat →
  level K (ToneRow.Build (ToneRow.matrix_of row)) i
  = level K (ToneRow.Build (ToneRow.matrix_of row)) j →
  i = j.
Proof.
  intros Hv Hi Hj. unfold level. cbn [ToneRow.matrix].
  rewrite !candidate_first_note by done.
  pose proof (first_notes_valid K row Hv) as Hfv.
  pose proof (valid_length _ Hfv) as Hlen.
  pose proof (valid_lookup_total_range _ i Hfv Hi) as Hri.
  pose proof (valid_lookup_total_range _ j Hfv Hj) as Hrj.
  intros Heq.
  assert (first_notes K (ToneRow.matrix_of row) !!! i
          = first_notes K (ToneRow.matrix_of row) !!! j) as Hnotes.
  { revert Heq Hri Hrj.
    generalize (first_notes K (ToneRow.matrix_of row) !!! i).
    generalize (first_notes K (ToneRow.matrix_of row) !!! j).
    generalize (reference_form K (ToneRow.Build (ToneRow.matrix_of row)) !!! 0%nat).
    intros c b a Heq Ha Hb. revert Heq. Z.div_mod_to_equations. lia. }
  eapply (NoDup_lookup _ i j); [by apply valid_NoDup | |].
  - apply list_lookup_lookup_total_lt. lia.
  - rewrite Hnotes. apply list_lookup_lookup_total_lt. lia.
Qed.

Lemma NoDup_omap_inj {A B} (f : A → option B) (l : list A) :
  NoDup l →
  (∀ x y z, x ∈ l → y ∈ l → f x = Some z → f y = Some z → x = y) →
  NoDup (omap f l).
Proof.
  induction 1 as [|x l Hx Hl IH]; intros Hinj; [constructor|].
  cbn [omap list_omap]. destruct (f x) as [z|] eqn:Hfx.
  - constructor.
    + intros (y & Hy & Hfy)%list_elem_of_omap.
      assert (x = y) as -> by (eapply Hinj; [left | by right | done..]).
      done.
    + apply IH. intros a b c Ha Hb. apply Hinj; by right.
  - apply IH. intros a b c Ha Hb. apply Hinj; by right.
Qed.

Lemma hexachord_label_Some (K : kind) (toneRow : ToneRow.t) (i : nat) (s : string) :
  hexachord_label K toneRow i = Some s →
  s = label K (level K toneRow i) ∧ level K toneRow i ≠ 0.
Proof.
  unfold hexachord_label. cbv zeta. case_decide as Hd; [|done].
  intros [= <-]. by destruct Hd.
Qed.

Lemma segment_label_Some (size : nat) (K : kind) (toneRow : ToneRow.t) (i : nat)
    (s : string) :
  segment_label size K toneRow i = Some s →
  s = label K (level K toneRow i) ∧
  (excludes_level_0 K = true → level K toneRow i ≠ 0).
Proof.
  unfold segment_label. cbv zeta. case_decide as Hd; [|done].
  intros [= <-]. by destruct Hd.
Qed.

Lemma labels_by_level_elem_of K toneRow lowest output s :
  labels_by_level K toneRow lowest output → 0 ≤ lowest → s ∈ output →
  ∃ t, lowest ≤ t ≤ 11 ∧ s = label K t.
Proof.
  intros (emit & -> & Hemit) Hlow (i & _ & [-> Ht]%Hemit)%list_elem_of_omap.
  exists (level K toneRow i). split; [|done].
  pose proof (level_range K toneRow i). lia.
Qed.

Lemma labels_by_level_NoDup K row lowest output :
  ToneRow.is_valid_tonerow row = true →
  labels_by_level K (ToneRow.Build (ToneRow.matrix_of row)) lowest output →
  NoDup output.
Proof.
  intros Hv (emit & -> & Hemit). apply NoDup_omap_inj; [apply NoDup_seq|].
  intros i j s Hi%elem_of_seq Hj%elem_of_seq [-> _]%Hemit [Heq _]%Hemit.
  apply label_inj in Heq. apply (level_inj K row); [done | lia | lia | done].
Qed.

Lemma hexachord_labels_by_level (K : kind) (row : list Z) (toneRow : ToneRow.t) :
  ToneRow.init row = inr toneRow →
  labels_by_level K toneRow 1 (hexachord_detector K toneRow).
Proof.
  intros Hinit. exists (hexachord_label K toneRow).
  split; [by apply (hexachord_detector_emit row)|].
  intros i s [-> Ht]%hexachord_label_Some. split; [done|].
  pose proof (level_range K toneRow i). lia.
Qed.

Lemma segment_labels_by_level (K : kind) (row : list Z) (toneRow : ToneRow.t) :
  ToneRow.init row = inr toneRow →
  labels_by_level K toneRow (lowest_level K) (tetrachord_detector K toneRow) ∧
  labels_by_level K toneRow (lowest_level K) (trichord_detector K toneRow).
Proof.
  intros Hinit.
  assert (∀ size i s, segment_label size K toneRow i = Some s →
            s = label K (level K toneRow i)
            ∧ lowest_level K ≤ level K toneRow i) as Hlab.
  { intros size i s [-> Ht]%segment_label_Some. split; [done|].
    pose proof (level_range K toneRow i). unfold lowest_level.
    destruct (excludes_level_0 K); [specialize (Ht eq_refl)|]; lia. }
  split.
  - exists (segment_label 4 K toneRow).
    split; [by apply (tetrachord_detector_emit row) | apply Hlab].
  - exists (segment_label 3 K toneRow).
    split; [by apply (trichord_detector_emit row) | apply Hlab].
Qed.

Lemma elem_of_labels_from (lowest : kind → Z) (s : string) :
  s ∈ labels_from lowest ↔
  ∃ (K : kind) (t : Z), lowest K ≤ t ≤ 11 ∧ s = label K t.
Proof.
  unfold labels_from. rewrite list_elem_of_bind. split.
  - intros (K & (t & -> & Ht%elem_of_seqZ)%list_elem_of_fmap & _).
    exists K, t. split; [lia | done].
  - intros (K & t & Ht & ->). exists K. split.
    + apply list_elem_of_fmap_2, elem_of_seqZ. lia.
    + unfold kinds. destruct K; rewrite !elem_of_cons; tauto.
Qed.

Lemma all_hexachordal_elem_of (toneRow : ToneRow.t) (s : string) :
  s ∈ CombinatorialHexachords.all_hexachordal_combinatorials toneRow ↔
  ∃ K : kind, s ∈ hexachord_detector K toneRow.
Proof.
  unfold CombinatorialHexachords.all_hexachordal_combinatorials.
  rewrite !elem_of_app. split.
  - intros [H | [H | [H | H]]];
      [by exists Prime | by exists Retrograde | by exists Inversion
      | by exists RetrogradeInversion].
  - intros [[] H]; simpl in H; tauto.
Qed.

Lemma all_tetrachordal_elem_of (toneRow : ToneRow.t) (s : string) :
  s ∈ CombinatorialTetrachords.all_tetrachordal_combinatorials toneRow ↔
  ∃ K : kind, s ∈ tetrachord_detector K toneRow.
Proof.
  unfold CombinatorialTetrachords.all_tetrachordal_combinatorials.
  rewrite !elem_of_app. split.
  - intros [H | [H | [H | H]]];
      [by exists Prime | by exists Retrograde | by exists Inversion
      | by exists RetrogradeInversion].
  - intros [[] H]; simpl in H; tauto.
Qed.

Lemma all_trichordal_elem_of (toneRow : ToneRow.t) (s : string) :
  s ∈ CombinatorialTrichords.all_trichordal_combinatorials toneRow ↔
  ∃ K : kind, s ∈ trichord_detector K toneRow.
Proof.
  unfold CombinatorialTrichords.all_trichordal_combinatorials.
  rewrite !elem_of_app. split.
  - intros [H | [H | [H | H]]];
      [by exists Prime | by exists Retrograde | by exists Inversion
      | by exists RetrogradeInversion].
  - intros [[] H]; simpl in H; tauto.
Qed.

Lemma all_combinatorials_labels_aux_hex (row : list Z) (toneRow : ToneRow.t)
    (s : string) :
  ToneRow.init row = inr toneRow →
  s ∈ CombinatorialHexachords.all_hexachordal_combinatorials toneRow →
  ∃ (K : kind) (t : Z), 1 ≤ t ≤ 11 ∧ s = label K t.
Proof.
  intros Hinit [K Hs]%all_hexachordal_elem_of. exists K.
  apply (labels_by_level_elem_of K toneRow 1 (hexachord_detector K toneRow));
    [by apply (hexachord_labels_by_level K row) | lia | done].
Qed.

Lemma all_combinatorials_labels_aux_seg (row : list Z) (toneRow : ToneRow.t)
    (s : string) :
  ToneRow.init row = inr toneRow →
  s ∈ CombinatorialTetrachords.all_tetrachordal_combinatorials toneRow
  ∨ s ∈ CombinatorialTrichords.all_trichordal_combinatorials toneRow →
  ∃ (K : kind) (t : Z), lowest_level K ≤ t ≤ 11 ∧ s = label K t.
Proof.
  intros Hinit Hs.
  assert (∃ K, s ∈ tetrachord_detector K toneRow
               ∨ s ∈ trichord_detector K toneRow) as [K HK].
  { destruct Hs as [[K Hs]%all_tetrachordal_elem_of
                   | [K Hs]%all_trichordal_elem_of]; exists K; tauto. }
  exists K. destruct (segment_labels_by_level K row toneRow Hinit) as [Htet Htri].
  assert (0 ≤ lowest_level K) by (unfold lowest_level; destruct K; simpl; lia).
  destruct HK as [HK | HK];
    [apply (labels_by_level_elem_of K toneRow _ _ s Htet)
    | apply (labels_by_level_elem_of K toneRow _ _ s Htri)]; done.
Qed.

(** X11.  Every label in the combined lists is a prefix P, R, I or RI followed by
    a level in decimal: from 1 to 11 in the hexachordal list and, in the
    tetrachordal and trichordal lists, from 1 to 11 after P and R and from
    0 to 11 after I and RI. *)
Theorem all_combinatorials_labels (row : list Z) (toneRow : ToneRow.t) (s : string) :
  ToneRow.init row = inr toneRow →
  (s ∈ CombinatorialHexachords.all_hexachordal_combinatorials toneRow →
     ∃ (K : kind) (t : Z), 1 ≤ t ≤ 11 ∧ s = prefix K +:+ pretty t) ∧
  (s ∈ CombinatorialTetrachords.all_tetrachordal_combinatorials toneRow
   ∨ s ∈ CombinatorialTrichords.all_trichordal_combinatorials toneRow →
     ∃ (K : kind) (t : Z),
       (if excludes_level_0 K then 1 else 0) ≤ t ≤ 11 ∧ s = prefix K +:+ pretty t).
Proof.
  intros Hinit. split.
  - by apply (all_combinatorials_labels_aux_hex row).
  - by apply (all_combinatorials_labels_aux_seg row).
Qed.

Lemma all_combinatorials_labels_witness :
  ∃ (K : kind) (t : Z), 1 ≤ t ≤ 11 ∧ "RI5" = prefix K +:+ pretty t.
Proof.
  destruct (all_combinatorials_labels identity_row
              (ToneRow.Build (ToneRow.matrix_of identity_row)) "RI5")
    as [Hhex _]; [vm_compute; reflexivity|].
  apply Hhex. vm_compute. do 2 apply list_elem_of_further. apply list_elem_of_here.
Defined.

Lemma NoDup_all (K_out : kind → list string) :
  (∀ K, NoDup (K_out K)) →
  (∀ K s, s ∈ K_out K → ∃ t, 0 ≤ t ≤ 11 ∧ s = label K t) →
  NoDup (K_out Prime ++ K_out Retrograde ++ K_out Inversion
         ++ K_out RetrogradeInversion).
Proof.
  intros Hnd Hlab.
  assert (∀ K K' s, K ≠ K' → s ∈ K_out K → s ∉ K_out K') as Hdisj.
  { intros K K' s Hne (t & Ht & ->)%Hlab (t' & Ht' & Heq)%Hlab.
    by apply label_inj_kind in Heq. }
  rewrite !NoDup_app. repeat split; try apply Hnd.
  all: intros s Hs Hin;
    repeat (apply elem_of_app in Hin as [Hin | Hin]);
    (eapply (Hdisj _ _ s); [|exact Hs|exact Hin]; discriminate).
Qed.

Lemma all_combinatorials_NoDup_aux (row : list Z) (toneRow : ToneRow.t) :
  ToneRow.init row = inr toneRow →
  NoDup (CombinatorialHexachords.all_hexachordal_combinatorials toneRow) ∧
  NoDup (CombinatorialTetrachords.all_tetrachordal_combinatorials toneRow) ∧
  NoDup (CombinatorialTrichords.all_trichordal_combinatorials toneRow).
Proof.
  intros Hinit. pose proof Hinit as [Hv Hm]%init_inv.
  assert (toneRow = ToneRow.Build (ToneRow.matrix_of row)) as Htr
    by (destruct toneRow; simpl in Hm; by subst).
  assert (NoDup (CombinatorialHexachords.all_hexachordal_combinatorials toneRow))
    as Hhex.
  { apply (NoDup_all (λ K, hexachord_detector K toneRow)).
    - intros K. rewrite Htr. apply (labels_by_level_NoDup K row 1); [done|].
      rewrite <- Htr. by apply (hexachord_labels_by_level K row).
    - intros K s Hs.
      destruct (labels_by_level_elem_of K toneRow 1 _ s
                  (hexachord_labels_by_level K row toneRow Hinit) ltac:(lia) Hs)
        as (t & Ht & ->).
      exists t. split; [lia | done]. }
  assert (∀ K, 0 ≤ lowest_level K) as Hlow
    by (intros K; unfold lowest_level; destruct K; simpl; lia).
  assert (NoDup (CombinatorialTetrachords.all_tetrachordal_combinatorials toneRow))
    as Htet.
  { apply (NoDup_all (λ K, tetrachord_detector K toneRow)).
    - intros K. rewrite Htr. apply (labels_by_level_NoDup K row (lowest_level K)); [done|].
      rewrite <- Htr. by apply (segment_labels_by_level K row).
    - intros K s Hs.
      destruct (segment_labels_by_level K row toneRow Hinit) as [HK _].
      destruct (labels_by_level_elem_of K toneRow _ _ s HK (Hlow K) Hs)
        as (t & Ht & ->).
      exists t. specialize (Hlow K). split; [lia | done]. }
  assert (NoDup (CombinatorialTrichords.all_trichordal_combinatorials toneRow))
    as Htri.
  { apply (NoDup_all (λ K, trichord_detector K toneRow)).
    - intros K. rewrite Htr. apply (labels_by_level_NoDup K row (lowest_level K)); [done|].
      rewrite <- Htr. by apply (segment_labels_by_level K row).
    - intros K s Hs.
      destruct (segment_labels_by_level K row toneRow Hinit) as [_ HK].
      destruct (labels_by_level_elem_of K toneRow _ _ s HK (Hlow K) Hs)
        as (t & Ht & ->).
      exists t. specialize (Hlow K). split; [lia | done]. }
  done.
Qed.

Lemma all_combinatorials_length_aux (row : list Z) (toneRow : ToneRow.t) :
  ToneRow.init row = inr toneRow →
  (length (CombinatorialHexachords.all_hexachordal_combinatorials toneRow) ≤ 44)%nat ∧
  (length (CombinatorialTetrachords.all_tetrachordal_combinatorials toneRow) ≤ 46)%nat ∧
  (length (CombinatorialTrichords.all_trichordal_combinatorials toneRow) ≤ 46)%nat.
Proof.
  intros Hinit.
  destruct (all_combinatorials_NoDup_aux row toneRow Hinit) as (Hhex & Htet & Htri).
  split; [|split].
  - change 44%nat with (length (labels_from (λ _, 1))).
    apply submseteq_length, NoDup_submseteq; [done|].
    intros s Hs. apply elem_of_labels_from.
    by apply (all_combinatorials_labels_aux_hex row toneRow s).
  - change 46%nat with (length (labels_from lowest_level)).
    apply submseteq_length, NoDup_submseteq; [done|].
    intros s Hs. apply elem_of_labels_from.
    apply (all_combinatorials_labels_aux_seg row toneRow s); [done | by left].
  - change 46%nat with (length (labels_from lowest_level)).
    apply submseteq_length, NoDup_submseteq; [done|].
    intros s Hs. apply elem_of_labels_from.
    apply (all_combinatorials_labels_aux_seg row toneRow s); [done | by right].
Qed.

(** X12.  No label occurs twice in a combined list, and a combined list has at
    most 44 (hexachordal) or 46 (tetrachordal, trichordal) labels. *)
Theorem all_combinatorials_NoDup (row : list Z) (toneRow : ToneRow.t) :
  ToneRow.init row = inr toneRow →
  NoDup (CombinatorialHexachords.all_hexachordal_combinatorials toneRow) ∧
  NoDup (CombinatorialTetrachords.all_tetrachordal_combinatorials toneRow) ∧
  NoDup (CombinatorialTrichords.all_trichordal_combinatorials toneRow) ∧
  (length (CombinatorialHexachords.all_hexachordal_combinatorials toneRow) ≤ 44)%nat ∧
  (length (CombinatorialTetrachords.all_tetrachordal_combinatorials toneRow) ≤ 46)%nat ∧
  (length (CombinatorialTrichords.all_trichordal_combinatorials toneRow) ≤ 46)%nat.
Proof.
  intros Hinit.
  destruct (all_combinatorials_NoDup_aux row toneRow Hinit) as (H1 & H2 & H3).
  destruct (all_combinatorials_length_aux row toneRow Hinit) as (H4 & H5 & H6).
  done.
Qed.

Lemma all_combinatorials_NoDup_witness :
  NoDup (CombinatorialTrichords.all_trichordal_combinatorials
           (ToneRow.Build (ToneRow.matrix_of identity_row))).
Proof.
  destruct (all_combinatorials_NoDup identity_row
              (ToneRow.Build (ToneRow.matrix_of identity_row)))
    as (_ & _ & Htri & _); [vm_compute; reflexivity|].
  exact Htri.
Defined.


(** ** The table entries *)

Lemma length_append (a b : string) :
  String.length (a +:+ b) = (String.length a + String.length b)%nat.
Proof. induction a as [|c a IH]; simpl; [done | by rewrite IH]. Qed.

Lemma count_char_append (c : Ascii.ascii) (a b : string) :
  count_char c (a +:+ b) = (count_char c a + count_char c b)%nat.
Proof. induction a as [|c' a IH]; simpl; [done | rewrite IH; lia]. Qed.

Lemma length_str_join (sep : string) (items : list string) :
  String.length (str_join sep items)
  = (sum_list_with String.length items
     + String.length sep * (length items - 1))%nat.
Proof.
  induction items as [|x [|y items] IH]; [simpl; lia | simpl; lia |].
  change (str_join sep (x :: y :: items))
    with (x +:+ sep +:+ str_join sep (y :: items)).
  rewrite !length_append, IH. simpl. lia.
Qed.

Lemma count_char_str_join (c : Ascii.ascii) (sep : string) (items : list string) :
  count_char c (str_join sep items)
  = (sum_list_with (count_char c) items
     + count_char c sep * (length items - 1))%nat.
Proof.
  induction items as [|x [|y items] IH]; [simpl; lia | simpl; lia |].
  change (str_join sep (x :: y :: items))
    with (x +:+ sep +:+ str_join sep (y :: items)).
  rewrite !count_char_append, IH. simpl. lia.
Qed.

Lemma sum_list_with_bound {A} (f : A → nat) (l : list A) (k : nat) :
  (∀ x, x ∈ l → (f x ≤ k)%nat) → (sum_list_with f l ≤ length l * k)%nat.
Proof.
  induction l as [|x l IH]; intros Hf; simpl; [lia|].
  pose proof (Hf x ltac:(left)).
  pose proof (IH (λ y Hy, Hf y ltac:(by right))). lia.
Qed.

Lemma sum_list_with_zero {A} (f : A → nat) (l : list A) :
  (∀ x, x ∈ l → f x = 0%nat) → sum_list_with f l = 0%nat.
Proof.
  intros Hf. pose proof (sum_list_with_bound f l 0) as Hb.
  rewrite Nat.mul_0_r in Hb. apply Nat.le_0_r, Hb. intros x Hx.
  by rewrite Hf.
Qed.

Lemma sorted_Permutation (items : list string) : sorted items ≡ₚ items.
Proof. apply merge_sort_Permutation. Qed.

(** X13.  The key of a table entry, the prime row as a string, has exactly 25
    characters whatever the row: it fills the column [tone_row
    VARCHAR2(25)] and never overflows it. *)
Theorem prime_row_string_length (row : list Z) (toneRow : ToneRow.t) :
  ToneRow.init row = inr toneRow →
  String.length
    (CombinatorialTableEntry.prime_row_string
       (CombinatorialTableEntry.Build toneRow)) = TONE_ROW_SIZE.
Proof.
  intros [Hv Hm]%init_inv.
  unfold CombinatorialTableEntry.prime_row_string, ToneRow.prime_row.
  cbn [CombinatorialTableEntry.tone_row]. rewrite Hm.
  change (ToneRow.matrix_of row !!! 0%nat) with row.
  rewrite length_str_join, length_fmap, (valid_length row Hv).
  apply is_valid_tonerow_Permutation in Hv. rewrite Hv. reflexivity.
Qed.

Lemma prime_row_string_length_witness :
  String.length
    (CombinatorialTableEntry.prime_row_string
       (CombinatorialTableEntry.Build
          (ToneRow.Build (ToneRow.matrix_of webern_row)))) = 25%nat.
Proof.
  apply (prime_row_string_length webern_row). vm_compute. reflexivity.
Defined.

Lemma pretty_pitch_sep_inj (x y : Z) (a b : string) :
  0 ≤ x ≤ 11 → 0 ≤ y ≤ 11 →
  pretty x +:+ " " +:+ a = pretty y +:+ " " +:+ b → x = y ∧ a = b.
Proof.
  intros Hx Hy. cases12 x; cases12 y; vm_compute; intros Heq;
    first [discriminate Heq | (injection Heq as ->; done)].
Qed.

Lemma pretty_pitch_sep_ne (x y : Z) (b : string) :
  0 ≤ x ≤ 11 → 0 ≤ y ≤ 11 → pretty x ≠ pretty y +:+ " " +:+ b.
Proof. intros Hx Hy. cases12 x; cases12 y; vm_compute; discriminate. Qed.

Lemma pretty_pitch_nonempty (x : Z) : 0 ≤ x ≤ 11 → pretty x ≠ EmptyString.
Proof. intros Hx. cases12 x; vm_compute; discriminate. Qed.

Lemma str_join_pitches_inj (l l' : list Z) :
  (∀ x, x ∈ l → 0 ≤ x ≤ 11) → (∀ x, x ∈ l' → 0 ≤ x ≤ 11) →
  str_join " " (pretty <$> l) = str_join " " (pretty <$> l') → l = l'.
Proof.
  revert l'. induction l as [|x l IH]; intros l' Hl Hl' Heq.
  - destruct l' as [|y [|y' l']]; [done|..]; exfalso.
    + symmetry in Heq. apply (pretty_pitch_nonempty y); [|exact Heq].
      apply Hl'. left.
    + change (EmptyString = pretty y +:+ " " +:+ str_join " " (pretty <$> y' :: l'))
        in Heq.
      pose proof (pretty_pitch_nonempty y (Hl' y ltac:(left))) as Hne.
      destruct (pretty y); [done | discriminate Heq].
  - pose proof (Hl x ltac:(left)) as Hx.
    destruct l' as [|y l'].
    { exfalso. destruct l as [|x' l].
      - by apply (pretty_pitch_nonempty x).
      - change (pretty x +:+ " " +:+ str_join " " (pretty <$> x' :: l) = EmptyString)
          in Heq.
        pose proof (pretty_pitch_nonempty x Hx) as Hne.
        destruct (pretty x); [done | discriminate Heq]. }
    pose proof (Hl' y ltac:(left)) as Hy.
    destruct l as [|x' l], l' as [|y' l'].
    + simpl in Heq. by apply (inj pretty) in Heq as ->.
    + exfalso. by apply (pretty_pitch_sep_ne x y _ Hx Hy Heq).
    + exfalso. symmetry in Heq. by apply (pretty_pitch_sep_ne y x _ Hy Hx Heq).
    + change (pretty x +:+ " " +:+ str_join " " (pretty <$> x' :: l)
              = pretty y +:+ " " +:+ str_join " " (pretty <$> y' :: l')) in Heq.
      apply pretty_pitch_sep_inj in Heq as [-> Heq]; [|done..].
      f_equal. apply IH; [| |done].
      * intros z Hz. apply Hl. by right.
      * intros z Hz. apply Hl'. by right.
Qed.

(** X14.  Two tone rows with the same key are the same row: the string written
    into the primary-key column determines the row. *)
Theorem prime_row_string_inj (row row' : list Z) (toneRow toneRow' : ToneRow.t) :
  ToneRow.init row = inr toneRow →
  ToneRow.init row' = inr toneRow' →
  CombinatorialTableEntry.prime_row_string (CombinatorialTableEntry.Build toneRow)
  = CombinatorialTableEntry.prime_row_string (CombinatorialTableEntry.Build toneRow') →
  row = row' ∧ toneRow = toneRow'.
Proof.
  intros Hinit Hinit'.
  pose proof Hinit as [Hv Hm]%init_inv. pose proof Hinit' as [Hv' Hm']%init_inv.
  unfold CombinatorialTableEntry.prime_row_string, ToneRow.prime_row.
  cbn [CombinatorialTableEntry.tone_row]. rewrite Hm, Hm'.
  change (ToneRow.matrix_of row !!! 0%nat) with row.
  change (ToneRow.matrix_of row' !!! 0%nat) with row'.
  intros Heq. apply str_join_pitches_inj in Heq.
  - subst row'. split; [done|]. rewrite Hinit in Hinit'. by injection Hinit'.
  - intros x Hx. pose proof (valid_range row x Hv Hx). lia.
  - intros x Hx. pose proof (valid_range row' x Hv' Hx). lia.
Qed.

Lemma prime_row_string_inj_witness :
  webern_row = webern_row ∧
  ToneRow.Build (ToneRow.matrix_of webern_row)
  = ToneRow.Build (ToneRow.matrix_of webern_row).
Proof.
  apply (prime_row_string_inj webern_row webern_row);
    [vm_compute; reflexivity | vm_compute; reflexivity | reflexivity].
Defined.

Lemma label_length (K : kind) (t : Z) :
  0 ≤ t ≤ 11 → (String.length (label K t) ≤ 4)%nat.
Proof. intros Ht. cases12 t; destruct K; vm_compute; lia. Qed.

Lemma label_no_separator (c : Ascii.ascii) (K : kind) (t : Z) :
  0 ≤ t ≤ 11 → c = comma ∨ c = quote_char → count_char c (label K t) = 0%nat.
Proof.
  intros Ht [-> | ->]; cases12 t; destruct K; vm_compute; reflexivity.
Qed.

Lemma pretty_pitch_no_separator (c : Ascii.ascii) (t : Z) :
  0 ≤ t ≤ 11 → c = comma ∨ c = quote_char → count_char c (pretty t) = 0%nat.
Proof. intros Ht [-> | ->]; cases12 t; vm_compute; reflexivity. Qed.

(** A list of labels, sorted and joined by spaces, as the three
    [..._combinatorials_string] properties build it. *)
Lemma labels_string_length (labels : list string) (n : nat) :
  (length labels ≤ n)%nat →
  (∀ s, s ∈ labels → ∃ K t, 0 ≤ t ≤ 11 ∧ s = label K t) →
  (String.length (str_join " " (sorted labels)) ≤ 5 * n)%nat.
Proof.
  intros Hn Hlab. rewrite length_str_join, (sorted_Permutation labels).
  pose proof (sum_list_with_bound String.length labels 4) as Hsum.
  assert (∀ s, s ∈ labels → (String.length s ≤ 4)%nat) as Hlen.
  { intros s (K & t & Ht & ->)%Hlab. by apply label_length. }
  specialize (Hsum Hlen). simpl. lia.
Qed.

Lemma labels_string_no_separator (c : Ascii.ascii) (labels : list string) :
  c = comma ∨ c = quote_char →
  (∀ s, s ∈ labels → ∃ K t, 0 ≤ t ≤ 11 ∧ s = label K t) →
  count_char c (str_join " " (sorted labels)) = 0%nat.
Proof.
  intros Hc Hlab. rewrite count_char_str_join, (sorted_Permutation labels).
  rewrite sum_list_with_zero.
  - destruct Hc as [-> | ->]; reflexivity.
  - intros s (K & t & Ht & ->)%Hlab. by apply label_no_separator.
Qed.

Lemma all_labels_in_range (row : list Z) (toneRow : ToneRow.t) (s : string) :
  ToneRow.init row = inr toneRow →
  s ∈ CombinatorialHexachords.all_hexachordal_combinatorials toneRow
  ∨ s ∈ CombinatorialTetrachords.all_tetrachordal_combinatorials toneRow
  ∨ s ∈ CombinatorialTrichords.all_trichordal_combinatorials toneRow →
  ∃ K t, 0 ≤ t ≤ 11 ∧ s = label K t.
Proof.
  intros Hinit [Hs | Hs].
  - destruct (all_combinatorials_labels_aux_hex row toneRow s Hinit Hs)
      as (K & t & Ht & ->). exists K, t. split; [lia | done].
  - destruct (all_combinatorials_labels_aux_seg row toneRow s Hinit Hs)
      as (K & t & Ht & ->). exists K, t. split; [|done].
    unfold lowest_level in Ht. destruct (excludes_level_0 K); lia.
Qed.

(** X15.  Each of the three strings of combinatorials has at most 230 characters
    and so fits its column of 250. *)
Theorem combinatorials_strings_fit (row : list Z) (toneRow : ToneRow.t) :
  ToneRow.init row = inr toneRow →
  let entry := CombinatorialTableEntry.Build toneRow in
  (String.length (CombinatorialTableEntry.hexachordal_combinatorials_string entry)
     ≤ 220 ≤ COMBINATORIALS_SIZE)%nat ∧
  (String.length (CombinatorialTableEntry.tetrachordal_combinatorials_string entry)
     ≤ 230 ≤ COMBINATORIALS_SIZE)%nat ∧
  (String.length (CombinatorialTableEntry.trichordal_combinatorials_string entry)
     ≤ 230 ≤ COMBINATORIALS_SIZE)%nat.
Proof.
  intros Hinit entry.
  destruct (all_combinatorials_length_aux row toneRow Hinit) as (Hhex & Htet & Htri).
  unfold COMBINATORIALS_SIZE.
  split; [|split]; (split; [|lia]).
  - apply (labels_string_length _ 44); [done|].
    intros s Hs. apply (all_labels_in_range row toneRow); tauto.
  - apply (labels_string_length _ 46); [done|].
    intros s Hs. apply (all_labels_in_range row toneRow); tauto.
  - apply (labels_string_length _ 46); [done|].
    intros s Hs. apply (all_labels_in_range row toneRow); tauto.
Qed.

Lemma combinatorials_strings_fit_witness :
  (String.length
     (CombinatorialTableEntry.trichordal_combinatorials_string
        (CombinatorialTableEntry.Build
           (ToneRow.Build (ToneRow.matrix_of identity_row)))) ≤ 230)%nat.
Proof.
  destruct (combinatorials_strings_fit identity_row
              (ToneRow.Build (ToneRow.matrix_of identity_row)))
    as (_ & _ & [Htri _]); [vm_compute; reflexivity|].
  exact Htri.
Defined.

(** X16.  A CSV row has exactly three commas and eight double quotes: no field
    holds a comma or a quote, so the row splits at its commas into the four
    quoted fields, as many as the header has columns. *)
Theorem csv_row_well_formed (row : list Z) (toneRow : ToneRow.t) :
  ToneRow.init row = inr toneRow →
  let entry := CombinatorialTableEntry.Build toneRow in
  count_char comma (CombinatorialTableEntry.to_csv_row entry) = 3%nat ∧
  count_char quote_char (CombinatorialTableEntry.to_csv_row entry) = 8%nat ∧
  count_char comma (CombinatorialTableEntry.get_csv_header entry) = 3%nat.
Proof.
  intros Hinit entry. pose proof Hinit as [Hv Hm]%init_inv.
  assert (∀ c, c = comma ∨ c = quote_char →
            count_char c (CombinatorialTableEntry.prime_row_string entry) = 0%nat
            ∧ count_char c
                (CombinatorialTableEntry.hexachordal_combinatorials_string entry)
              = 0%nat
            ∧ count_char c
                (CombinatorialTableEntry.tetrachordal_combinatorials_string entry)
              = 0%nat
            ∧ count_char c
                (CombinatorialTableEntry.trichordal_combinatorials_string entry)
              = 0%nat) as Hfields.
  { intros c Hc. split; [|split; [|split]].
    - unfold CombinatorialTableEntry.prime_row_string. cbv zeta.
      rewrite count_char_str_join, sum_list_with_zero.
      + destruct Hc as [-> | ->]; reflexivity.
      + intros s (x & -> & Hx)%list_elem_of_fmap.
        apply pretty_pitch_no_separator; [|done].
        unfold entry, ToneRow.prime_row in Hx.
        cbn [CombinatorialTableEntry.tone_row] in Hx. rewrite Hm in Hx.
        pose proof (valid_range row x Hv Hx). lia.
    - apply labels_string_no_separator; [done|].
      intros s Hs. apply (all_labels_in_range row toneRow); tauto.
    - apply labels_string_no_separator; [done|].
      intros s Hs. apply (all_labels_in_range row toneRow); tauto.
    - apply labels_string_no_separator; [done|].
      intros s Hs. apply (all_labels_in_range row toneRow); tauto. }
  destruct (Hfields comma ltac:(by left)) as (Hc1 & Hc2 & Hc3 & Hc4).
  destruct (Hfields quote_char ltac:(by right)) as (Hq1 & Hq2 & Hq3 & Hq4).
  unfold CombinatorialTableEntry.to_csv_row. cbv zeta.
  rewrite !count_char_str_join. cbn [sum_list_with length].
  rewrite !count_char_append, Hc1, Hc2, Hc3, Hc4, Hq1, Hq2, Hq3, Hq4.
  split; [reflexivity|]. split; reflexivity.
Qed.

Lemma csv_row_well_formed_witness :
  count_char comma
    (CombinatorialTableEntry.to_csv_row
       (CombinatorialTableEntry.Build
          (ToneRow.Build (ToneRow.matrix_of identity_row)))) = 3%nat.
Proof.
  destruct (csv_row_well_formed identity_row
              (ToneRow.Build (ToneRow.matrix_of identity_row)))
    as (Hc & _); [vm_compute; reflexivity|].
  exact Hc.
Defined.


(** ** Levels *)

Lemma mod12_sub_add (a b : Z) : ((a mod 12) - b + 12) mod 12 = (a - b) mod 12.
Proof.
  replace (a mod 12 - b + 12) with ((12 - b) + a mod 12) by lia.
  rewrite Zplus_mod_idemp_r.
  replace (12 - b + a) with (a - b + 1 * 12) by lia.
  apply Z_mod_plus_full.
Qed.

(** The level of candidate [i], read off the prime row: P and R forms made
    from row [i] of the matrix are [R[0] - R[i]] above their reference
    form, I and RI forms made from column [i] are [R[i] - R[0]] above. *)
Lemma level_formula (K : kind) (row : list Z) (i : nat) :
  ToneRow.is_valid_tonerow row = true → (i < 12)%nat →
  level K (ToneRow.Build (ToneRow.matrix_of row)) i =
  match K with
  | Prime | Retrograde => (row !!! 0%nat - row !!! i) mod 12
  | Inversion | RetrogradeInversion => (row !!! i - row !!! 0%nat) mod 12
  end.
Proof.
  intros Hv Hi. pose proof (valid_length _ Hv) as Hlen.
  unfold level. cbn [ToneRow.matrix]. rewrite candidate_first_note by done.
  assert (∀ k j, (k < 12)%nat → (j < 12)%nat →
            ToneRow.column (ToneRow.matrix_of row) j !!! k
            = (row !!! j + row !!! 0%nat - row !!! k) mod 12) as Hcol.
  { intros k j Hk Hj.
    rewrite column_lookup_total by (rewrite length_matrix_of; lia).
    by apply matrix_of_entry_all. }
  destruct K; unfold first_notes, reference_form, ToneRow.prime_row,
    ToneRow.retrograde, ToneRow.inversion, ToneRow.retrograde_inversion;
    cbn [ToneRow.matrix].
  - rewrite Hcol by lia. change (ToneRow.matrix_of row !!! 0%nat) with row.
    rewrite mod12_sub_add. f_equal. lia.
  - rewrite Hcol by lia. change (ToneRow.matrix_of row !!! 0%nat) with row.
    rewrite first_note_reverse, Hlen by done.
    change (12 - 1)%nat with 11%nat.
    rewrite mod12_sub_add. f_equal. lia.
  - rewrite Hcol by lia. change (ToneRow.matrix_of row !!! 0%nat) with row.
    replace (row !!! i - (row !!! 0%nat + row !!! 0%nat - row !!! 0%nat) mod 12 + 12)
      with (row !!! i - row !!! 0%nat + 1 * 12).
    + apply Z_mod_plus_full.
    + pose proof (valid_lookup_total_range row 0 Hv ltac:(lia)).
      rewrite Z.mod_small; lia.
  - rewrite matrix_of_entry_all by (done || lia).
    rewrite fmap_reverse. fold (ToneRow.column (ToneRow.matrix_of row) 0).
    rewrite first_note_reverse by (by rewrite length_column, length_matrix_of).
    rewrite length_column, length_matrix_of.
    change (12 - 1)%nat with 11%nat.
    rewrite Hcol by lia.
    rewrite mod12_sub_add, Zminus_mod_idemp_r. f_equal. lia.
Qed.

(** ** Retrograde forms in the tetrachord and trichord detectors *)

Ltac same_set :=
  apply set_eq; intros ?;
  rewrite ?elem_of_union, ?elem_of_singleton, ?elem_of_empty; tauto.

(** Read backwards, a row of twelve has the same segments, in the opposite
    order. *)
Lemma Partition_reverse (x : list Z) :
  length x = 12%nat →
  Partition (reverse x) 4 ≡ₚ Partition x 4 ∧
  Partition (reverse x) 3 ≡ₚ Partition x 3.
Proof.
  intros Hlen.
  do 12 (destruct x as [|? x]; [discriminate Hlen|]).
  destruct x; [|discriminate Hlen]. clear Hlen.
  split.
  - match goal with |- ?L ≡ₚ ?R => assert (L = reverse R) as -> end;
      [|apply reverse_Permutation].
    unfold Partition. cbn.
    f_equal; [same_set | f_equal; [same_set | f_equal; same_set]].
  - match goal with |- ?L ≡ₚ ?R => assert (L = reverse R) as -> end;
      [|apply reverse_Permutation].
    unfold Partition. cbn.
    f_equal; [same_set | f_equal; [same_set
      | f_equal; [same_set | f_equal; same_set]]].
Qed.

(** Whether a label is in the output of a tetrachord or trichord detector. *)
Lemma segment_detector_elem_of (K : kind) (row : list Z) (t : Z) :
  ToneRow.is_valid_tonerow row = true →
  let toneRow := ToneRow.Build (ToneRow.matrix_of row) in
  let matches (size : nat) :=
    ∃ i : nat, (i < 12)%nat ∧
      Partition (candidate_form K (ToneRow.matrix_of row) i) size
        ≡ₚ Partition row size
      ∧ (excludes_level_0 K = true → t ≠ 0)
      ∧ t = level K toneRow i in
  (label K t ∈ tetrachord_detector K toneRow ↔ matches 4%nat) ∧
  (label K t ∈ trichord_detector K toneRow ↔ matches 3%nat).
Proof.
  intros Hv toneRow matches.
  pose proof (init_valid row Hv) as Hinit.
  assert (∀ size, label K t ∈ omap (segment_label size K toneRow) (seq 0 12)
                  ↔ matches size) as Hmem.
  { intros size. rewrite elem_of_omap_seq. unfold matches, segment_label.
    cbv zeta. cbn [ToneRow.matrix].
    change (ToneRow.matrix_of row !!! 0%nat) with row.
    split.
    - intros (i & Hi & Hlab). exists i. split; [done|].
      case_decide as Hd; [|done]. injection Hlab as Heq.
      apply label_inj in Heq. subst t. destruct Hd as [Hd1 Hd2]. done.
    - intros (i & Hi & Hp & Hex & ->). exists i. split; [done|].
      by rewrite decide_True. }
  split.
  - rewrite (tetrachord_detector_emit row toneRow K Hinit). apply Hmem.
  - rewrite (trichord_detector_emit row toneRow K Hinit). apply Hmem.
Qed.

Lemma length_candidate_form (K : kind) (row : list Z) (i : nat) :
  ToneRow.is_valid_tonerow row = true → (i < 12)%nat →
  length (candidate_form K (ToneRow.matrix_of row) i) = 12%nat.
Proof.
  intros Hv Hi. pose proof (valid_length _ Hv) as Hlen.
  destruct K; unfold candidate_form;
    rewrite ?length_reverse, ?length_column, ?length_matrix_of;
    first [reflexivity | by apply length_matrix_of_row].
Qed.

Lemma segment_detector_backwards (K : kind) (row : list Z) (toneRow : ToneRow.t)
    (t : Z) :
  ToneRow.init row = inr toneRow →
  (label K t ∈ tetrachord_detector K toneRow →
   label (backwards K) t ∈ tetrachord_detector (backwards K) toneRow) ∧
  (label K t ∈ trichord_detector K toneRow →
   label (backwards K) t ∈ trichord_detector (backwards K) toneRow).
Proof.
  intros [Hv Hm]%init_inv.
  assert (toneRow = ToneRow.Build (ToneRow.matrix_of row)) as Htr
    by (destruct toneRow; cbn [ToneRow.matrix] in Hm; by subst).
  destruct (segment_detector_elem_of K row t Hv) as [Htet Htri].
  destruct (segment_detector_elem_of (backwards K) row t Hv) as [Htet' Htri'].
  rewrite <- Htr in Htet, Htri, Htet', Htri'.
  assert (∀ i, (i < 12)%nat →
            level (backwards K) toneRow i = level K toneRow i) as Hlev.
  { intros i Hi. rewrite Htr, !level_formula by done.
    by destruct K. }
  assert (∀ i, (i < 12)%nat →
            Partition (candidate_form (backwards K) (ToneRow.matrix_of row) i) 4
              ≡ₚ Partition (candidate_form K (ToneRow.matrix_of row) i) 4
            ∧ Partition (candidate_form (backwards K) (ToneRow.matrix_of row) i) 3
                ≡ₚ Partition (candidate_form K (ToneRow.matrix_of row) i) 3)
    as Hpart.
  { intros i Hi.
    pose proof (length_candidate_form K row i Hv Hi) as HlenK.
    pose proof (length_candidate_form (backwards K) row i Hv Hi) as HlenK'.
    destruct K; cbn [backwards candidate_form] in *.
    - by apply Partition_reverse.
    - destruct (Partition_reverse (ToneRow.matrix_of row !!! i)) as [H4 H3];
        [by rewrite length_reverse in HlenK|]. by split.
    - by apply Partition_reverse.
    - destruct (Partition_reverse (ToneRow.column (ToneRow.matrix_of row) i))
        as [H4 H3]; [by rewrite length_reverse in HlenK|]. by split. }
  assert (excludes_level_0 (backwards K) = excludes_level_0 K) as Hex
    by (by destruct K).
  split.
  - rewrite Htet, Htet'. intros (i & Hi & Hp & Ht & Hl). exists i.
    rewrite Hex, Hlev by done. destruct (Hpart i Hi) as [-> _]. done.
  - rewrite Htri, Htri'. intros (i & Hi & Hp & Ht & Hl). exists i.
    rewrite Hex, Hlev by done. destruct (Hpart i Hi) as [_ ->]. done.
Qed.

(** X17.  In the tetrachord and trichord detectors a form and the same form read
    backwards go together: [R<t>] is in the output of the R detector exactly
    when [P<t>] is in the output of the P detector, and [RI<t>] exactly when
    [I<t>]. *)
Theorem retrograde_mirrors_prime (row : list Z) (toneRow : ToneRow.t) (t : Z) :
  ToneRow.init row = inr toneRow →
  ("R" +:+ pretty t ∈ CombinatorialTetrachords.retrograde_combinatorials toneRow ↔
   "P" +:+ pretty t ∈ CombinatorialTetrachords.prime_combinatorials toneRow) ∧
  ("RI" +:+ pretty t
     ∈ CombinatorialTetrachords.retrograde_inversion_combinatorials toneRow ↔
   "I" +:+ pretty t ∈ CombinatorialTetrachords.inversion_combinatorials toneRow) ∧
  ("R" +:+ pretty t ∈ CombinatorialTrichords.retrograde_combinatorials toneRow ↔
   "P" +:+ pretty t ∈ CombinatorialTrichords.prime_combinatorials toneRow) ∧
  ("RI" +:+ pretty t
     ∈ CombinatorialTrichords.retrograde_inversion_combinatorials toneRow ↔
   "I" +:+ pretty t ∈ CombinatorialTrichords.inversion_combinatorials toneRow).
Proof.
  intros Hinit.
  pose proof (λ K, segment_detector_backwards K row toneRow t Hinit) as Hb.
  destruct (Hb Prime) as [HP4 HP3]. destruct (Hb Retrograde) as [HR4 HR3].
  destruct (Hb Inversion) as [HI4 HI3].
  destruct (Hb RetrogradeInversion) as [HRI4 HRI3].
  unfold label in *.
  cbn [backwards tetrachord_detector trichord_detector prefix] in *.
  split; [split; [exact HR4 | exact HP4]|].
  split; [split; [exact HRI4 | exact HI4]|].
  split; [split; [exact HR3 | exact HP3]|].
  split; [exact HRI3 | exact HI3].
Qed.

Lemma retrograde_mirrors_prime_witness :
  "R" +:+ pretty 4
    ∈ CombinatorialTetrachords.retrograde_combinatorials
        (ToneRow.Build (ToneRow.matrix_of identity_row)).
Proof.
  destruct (retrograde_mirrors_prime identity_row
              (ToneRow.Build (ToneRow.matrix_of identity_row)) 4)
    as ([_ HR] & _); [vm_compute; reflexivity|].
  apply HR. vm_compute. apply list_elem_of_further, list_elem_of_here.
Defined.

(** ** Prime forms by level *)

(** Row [i] of the matrix is the prime row transposed by the level of its
    P label. *)
Lemma matrix_row_by_level (row : list Z) (i : nat) :
  ToneRow.is_valid_tonerow row = true → (i < 12)%nat →
  ToneRow.matrix_of row !!! i
  = transposed row (level Prime (ToneRow.Build (ToneRow.matrix_of row)) i).
Proof.
  intros Hv Hi. pose proof (valid_length _ Hv) as Hlen.
  rewrite level_formula by done.
  destruct (decide (i = 0%nat)) as [-> | Hne].
  - replace (row !!! 0%nat - row !!! 0%nat) with 0 by lia.
    change (0 mod 12) with 0. by rewrite transposed_0.
  - assert (1 ≤ i ≤ 11)%nat as Hi' by lia.
    rewrite (list_lookup_total_correct _ _ _ (matrix_of_lookup row i Hi')).
    rewrite !inversion_of_lookup_total by lia.
    rewrite <- Zminus_mod. f_equal. f_equal. lia.
Qed.

(** Every level is the level of one of the twelve rows. *)
Lemma level_Prime_surj (row : list Z) (t : Z) :
  ToneRow.is_valid_tonerow row = true → 0 ≤ t ≤ 11 →
  ∃ i : nat, (i < 12)%nat ∧
    level Prime (ToneRow.Build (ToneRow.matrix_of row)) i = t.
Proof.
  intros Hv Ht. pose proof (valid_length _ Hv) as Hlen.
  assert ((row !!! 0%nat - t) mod 12 ∈ row) as Hin.
  { pose proof (Z.mod_pos_bound (row !!! 0%nat - t) 12 ltac:(lia)) as Hb.
    generalize dependent ((row !!! 0%nat - t) mod 12). intros v Hb.
    apply is_valid_tonerow_Permutation in Hv. rewrite Hv.
    apply elem_of_seqZ. lia. }
  apply list_elem_of_lookup in Hin as [i Hi].
  pose proof (lookup_lt_Some _ _ _ Hi) as Hlt.
  exists i. split; [lia|]. rewrite level_formula by (done || lia).
  rewrite (list_lookup_total_correct _ _ _ Hi).
  rewrite Zminus_mod_idemp_r.
  replace (row !!! 0%nat - (row !!! 0%nat - t)) with t by lia.
  apply Z.mod_small. lia.
Qed.

Lemma hexachord_detector_elem_of (K : kind) (row : list Z) (toneRow : ToneRow.t)
    (t : Z) :
  ToneRow.init row = inr toneRow →
  label K t ∈ hexachord_detector K toneRow ↔
  ∃ i : nat, (i < 12)%nat ∧
    (list_to_set (take 6 (candidate_form K (ToneRow.matrix toneRow) i)) : gset Z)
      ## list_to_set (take 6 row)
    ∧ t ≠ 0 ∧ t = level K toneRow i.
Proof.
  intros Hinit. rewrite (hexachord_detector_emit row toneRow K Hinit).
  apply init_inv in Hinit as [Hv Hm].
  rewrite elem_of_omap_seq. unfold hexachord_label. cbv zeta.
  rewrite Hm. change (ToneRow.matrix_of row !!! 0%nat) with row.
  split.
  - intros (i & Hi & Hlab). exists i. split; [done|].
    case_decide as Hd; [|done]. injection Hlab as Heq.
    apply label_inj in Heq. subst t. by destruct Hd.
  - intros (i & Hi & Hd & Ht & ->). exists i. split; [done|].
    by rewrite decide_True.
Qed.

Lemma prime_labels_aux (row : list Z) (toneRow : ToneRow.t) (t : Z) :
  ToneRow.init row = inr toneRow →
  ("P" +:+ pretty t ∈ CombinatorialHexachords.prime_combinatorials toneRow ↔
     1 ≤ t ≤ 11 ∧
     (list_to_set (take 6 ((λ x, (x + t) mod 12) <$> row)) : gset Z)
       ## list_to_set (take 6 row)) ∧
  ("P" +:+ pretty t ∈ CombinatorialTetrachords.prime_combinatorials toneRow ↔
     1 ≤ t ≤ 11 ∧
     Partition ((λ x, (x + t) mod 12) <$> row) 4 ≡ₚ Partition row 4) ∧
  ("P" +:+ pretty t ∈ CombinatorialTrichords.prime_combinatorials toneRow ↔
     1 ≤ t ≤ 11 ∧
     Partition ((λ x, (x + t) mod 12) <$> row) 3 ≡ₚ Partition row 3).
Proof.
  intros Hinit.
  pose proof (hexachord_detector_elem_of Prime row toneRow t Hinit) as Hhex.
  pose proof Hinit as [Hv Hm]%init_inv.
  assert (toneRow = ToneRow.Build (ToneRow.matrix_of row)) as Htr
    by (destruct toneRow; cbn [ToneRow.matrix] in Hm; by subst).
  destruct (segment_detector_elem_of Prime row t Hv) as [Htet Htri].
  rewrite <- Htr in Htet, Htri.
  fold (transposed row t).
  assert (∀ i, (i < 12)%nat → t = level Prime toneRow i →
            candidate_form Prime (ToneRow.matrix toneRow) i = transposed row t
            ∧ 0 ≤ t ≤ 11) as Hcand.
  { intros i Hi ->. split; [|apply level_range].
    rewrite Htr. cbn [ToneRow.matrix candidate_form].
    by apply matrix_row_by_level. }
  assert (0 ≤ t ≤ 11 → ∃ i, (i < 12)%nat ∧ t = level Prime toneRow i) as Hsurj.
  { intros Ht. destruct (level_Prime_surj row t Hv Ht) as (i & Hi & Hl).
    exists i. by rewrite Htr. }
  split; [|split].
  - etrans; [exact Hhex|]. split.
    + intros (i & Hi & Hd & Ht & Hl).
      destruct (Hcand i Hi Hl) as [Hc Hr]. rewrite Hc in Hd.
      split; [lia | done].
    + intros [Ht Hd]. destruct Hsurj as (i & Hi & Hl); [lia|].
      exists i. destruct (Hcand i Hi Hl) as [-> _].
      split; [done|]. split; [done|]. split; [lia | done].
  - etrans; [exact Htet|]. split.
    + intros (i & Hi & Hp & Ht & Hl).
      destruct (Hcand i Hi Hl) as [Hc Hr]. rewrite Htr in Hc.
      cbn [ToneRow.matrix] in Hc. rewrite Hc in Hp.
      specialize (Ht eq_refl). split; [lia | done].
    + intros [Ht Hp]. destruct Hsurj as (i & Hi & Hl); [lia|].
      exists i. destruct (Hcand i Hi Hl) as [Hc _]. rewrite Htr in Hc.
      cbn [ToneRow.matrix] in Hc. rewrite Hc.
      split; [done|]. split; [done|]. split; [intros _; lia | done].
  - etrans; [exact Htri|]. split.
    + intros (i & Hi & Hp & Ht & Hl).
      destruct (Hcand i Hi Hl) as [Hc Hr]. rewrite Htr in Hc.
      cbn [ToneRow.matrix] in Hc. rewrite Hc in Hp.
      specialize (Ht eq_refl). split; [lia | done].
    + intros [Ht Hp]. destruct Hsurj as (i & Hi & Hl); [lia|].
      exists i. destruct (Hcand i Hi Hl) as [Hc _]. rewrite Htr in Hc.
      cbn [ToneRow.matrix] in Hc. rewrite Hc.
      split; [done|]. split; [done|]. split; [intros _; lia | done].
Qed.

(** X18.  The P labels, by what transposition does to the row.  [P<t>] is in the
    output of a P detector exactly when [t] is between 1 and 11 and the row
    transposed by [t] has a first hexachord disjoint from that of the row
    (hexachords), or the same tetrachords, or the same trichords, as the
    row, in any order. *)
Theorem prime_labels_by_transposition (row : list Z) (toneRow : ToneRow.t) (t : Z) :
  ToneRow.init row = inr toneRow →
  ("P" +:+ pretty t ∈ CombinatorialHexachords.prime_combinatorials toneRow ↔
     1 ≤ t ≤ 11 ∧
     (list_to_set (take 6 ((λ x, (x + t) mod 12) <$> row)) : gset Z)
       ## list_to_set (take 6 row)) ∧
  ("P" +:+ pretty t ∈ CombinatorialTetrachords.prime_combinatorials toneRow ↔
     1 ≤ t ≤ 11 ∧
     Partition ((λ x, (x + t) mod 12) <$> row) 4 ≡ₚ Partition row 4) ∧
  ("P" +:+ pretty t ∈ CombinatorialTrichords.prime_combinatorials toneRow ↔
     1 ≤ t ≤ 11 ∧
     Partition ((λ x, (x + t) mod 12) <$> row) 3 ≡ₚ Partition row 3).
Proof. apply prime_labels_aux. Qed.

Lemma prime_labels_by_transposition_witness :
  "P" +:+ pretty 6
    ∈ CombinatorialHexachords.prime_combinatorials
        (ToneRow.Build (ToneRow.matrix_of identity_row)).
Proof.
  destruct (prime_labels_by_transposition identity_row
              (ToneRow.Build (ToneRow.matrix_of identity_row)) 6)
    as ([_ Hhex] & _); [vm_compute; reflexivity|].
  apply Hhex. split; [lia|].
  apply (bool_decide_eq_true_1 _). vm_compute. reflexivity.
Defined.

(** ** The symmetry of the P labels *)

Lemma chunks_fmap (f : Z → Z) (size count : nat) (x : list Z) :
  chunks size count (f <$> x)
  = set_map (C := gset Z) (D := gset Z) f <$> chunks size count x.
Proof.
  revert x. induction count as [|count IH]; intros x; [reflexivity|].
  cbn [chunks fmap list_fmap].
  rewrite <- fmap_take, <- fmap_drop, IH.
  rewrite (list_to_set_fmap_L (C := gset Z) (D := gset Z)). reflexivity.
Qed.

Lemma Partition_transposed (x : list Z) (s : Z) (size : nat) :
  Partition (transposed x s) size
  = set_map (C := gset Z) (D := gset Z) (λ z, (z + s) mod 12)
      <$> Partition x size.
Proof. apply chunks_fmap. Qed.

Lemma transposed_back (row : list Z) (t : Z) :
  ToneRow.is_valid_tonerow row = true →
  transposed (transposed row t) (12 - t) = row.
Proof.
  intros Hv. rewrite transposed_transposed, transposed_mod.
  replace (t + (12 - t)) with 12 by lia. change (12 mod 12) with 0.
  by apply transposed_0.
Qed.

Lemma same_segments_symmetric (row : list Z) (t : Z) (size : nat) :
  ToneRow.is_valid_tonerow row = true →
  Partition (transposed row t) size ≡ₚ Partition row size →
  Partition (transposed row (12 - t)) size ≡ₚ Partition row size.
Proof.
  intros Hv Hp.
  apply (fmap_Permutation (set_map (C := gset Z) (D := gset Z)
                             (λ z, (z + (12 - t)) mod 12))) in Hp.
  rewrite <- !Partition_transposed, transposed_back in Hp by done.
  by symmetry.
Qed.

Lemma disjoint_hexachords_symmetric (row : list Z) (t : Z) :
  ToneRow.is_valid_tonerow row = true →
  (list_to_set (take 6 (transposed row t)) : gset Z) ## list_to_set (take 6 row) →
  (list_to_set (take 6 (transposed row (12 - t))) : gset Z)
    ## list_to_set (take 6 row).
Proof.
  intros Hv Hd. apply elem_of_disjoint. intros x Hx1 Hx2.
  apply elem_of_list_to_set in Hx1, Hx2.
  unfold transposed in Hx1. rewrite <- fmap_take in Hx1.
  apply list_elem_of_fmap in Hx1 as (a & -> & Ha).
  assert (0 ≤ a ≤ 11) as Hra.
  { pose proof (valid_range row a Hv) as Hr.
    specialize (Hr (subseteq_take 6 row a Ha)). lia. }
  apply (elem_of_disjoint (C := gset Z)) in Hd. apply (Hd a).
  - apply elem_of_list_to_set. unfold transposed. rewrite <- fmap_take.
    apply list_elem_of_fmap. exists ((a + (12 - t)) mod 12). split; [|done].
    rewrite Zplus_mod_idemp_l.
    replace (a + (12 - t) + t) with (a + 1 * 12) by lia.
    rewrite Z_mod_plus_full. symmetry. apply Z.mod_small. lia.
  - by apply elem_of_list_to_set.
Qed.

(** X19.  The P labels come in pairs: in each of the three P detectors [P<t>] is
    emitted exactly when [P<12 - t>] is. *)
Theorem prime_levels_symmetric (row : list Z) (toneRow : ToneRow.t) (t : Z) :
  ToneRow.init row = inr toneRow →
  1 ≤ t ≤ 11 →
  ("P" +:+ pretty t ∈ CombinatorialHexachords.prime_combinatorials toneRow ↔
   "P" +:+ pretty (12 - t) ∈ CombinatorialHexachords.prime_combinatorials toneRow) ∧
  ("P" +:+ pretty t ∈ CombinatorialTetrachords.prime_combinatorials toneRow ↔
   "P" +:+ pretty (12 - t) ∈ CombinatorialTetrachords.prime_combinatorials toneRow) ∧
  ("P" +:+ pretty t ∈ CombinatorialTrichords.prime_combinatorials toneRow ↔
   "P" +:+ pretty (12 - t) ∈ CombinatorialTrichords.prime_combinatorials toneRow).
Proof.
  intros Hinit Ht. pose proof Hinit as [Hv _]%init_inv.
  destruct (prime_labels_aux row toneRow t Hinit) as (Hhex & Htet & Htri).
  destruct (prime_labels_aux row toneRow (12 - t) Hinit) as (Hhex' & Htet' & Htri').
  fold (transposed row t) in Hhex, Htet, Htri.
  fold (transposed row (12 - t)) in Hhex', Htet', Htri'.
  pose proof (disjoint_hexachords_symmetric row t Hv) as Hd.
  pose proof (disjoint_hexachords_symmetric row (12 - t) Hv) as Hd'.
  pose proof (λ size, same_segments_symmetric row t size Hv) as Hs.
  pose proof (λ size, same_segments_symmetric row (12 - t) size Hv) as Hs'.
  replace (12 - (12 - t)) with t in Hd', Hs' by lia.
  rewrite Hhex, Hhex', Htet, Htet', Htri, Htri'.
  split; [|split]; split; intros [_ H]; (split; [lia|]); auto.
Qed.

Lemma prime_levels_symmetric_witness :
  "P" +:+ pretty 10
    ∈ CombinatorialHexachords.prime_combinatorials
        (ToneRow.Build (ToneRow.matrix_of row_6_20)).
Proof.
  destruct (prime_levels_symmetric row_6_20
              (ToneRow.Build (ToneRow.matrix_of row_6_20)) 2)
    as ([Hhex _] & _); [vm_compute; reflexivity | lia |].
  apply Hhex. vm_compute. do 2 apply list_elem_of_further. apply list_elem_of_here.
Defined.

(** X20.  The level of each candidate, read off the prime row: the P and R
    candidates made from row [i] of the matrix have level
    [(R[0] - R[i]) mod 12], the I and RI candidates made from column [i]
    have level [(R[i] - R[0]) mod 12]; so the twelve candidates of a kind
    have the twelve levels, each once. *)
Theorem candidate_levels (row : list Z) (toneRow : ToneRow.t) (K : kind) :
  ToneRow.init row = inr toneRow →
  (∀ i : nat, (i < 12)%nat →
     level K toneRow i =
     match K with
     | Prime | Retrograde => (row !!! 0%nat - row !!! i) mod 12
     | Inversion | RetrogradeInversion => (row !!! i - row !!! 0%nat) mod 12
     end) ∧
  (λ i, level K toneRow i) <$> seq 0 12 ≡ₚ seqZ 0 12.
Proof.
  intros [Hv Hm]%init_inv.
  assert (toneRow = ToneRow.Build (ToneRow.matrix_of row)) as ->
    by (destruct toneRow; cbn [ToneRow.matrix] in Hm; by subst).
  split; [intros i Hi; by apply level_formula|].
  apply submseteq_length_Permutation; [|by rewrite length_fmap].
  apply NoDup_submseteq.
  - apply NoDup_fmap_2_strong; [|apply NoDup_seq].
    intros i j Hi%elem_of_seq Hj%elem_of_seq Heq.
    apply (level_inj K row); [exact Hv | lia | lia | exact Heq].
  - intros t (i & -> & _)%list_elem_of_fmap. apply elem_of_seqZ.
    pose proof (level_range K (ToneRow.Build (ToneRow.matrix_of row)) i). lia.
Qed.

Lemma candidate_levels_witness :
  level Retrograde (ToneRow.Build (ToneRow.matrix_of webern_row)) 2 = 9.
Proof.
  destruct (candidate_levels webern_row
              (ToneRow.Build (ToneRow.matrix_of webern_row)) Retrograde)
    as [Hlev _]; [vm_compute; reflexivity|].
  rewrite Hlev by lia. reflexivity.
Defined.


(** ** The writer's loop *)

(** A call is not in a list of other calls. *)
Ltac no_such_call H :=
  repeat (apply elem_of_cons in H as [H | H]; [discriminate H|]);
  by apply elem_of_nil in H.

Lemma uncommitted_app (pending : nat) (a b : list DatabaseWriter.call) :
  uncommitted pending (a ++ b) = uncommitted (uncommitted pending a) b.
Proof. apply foldl_app. Qed.

Lemma inserted_keys_app (a b : list DatabaseWriter.call) :
  inserted_keys (a ++ b) = inserted_keys a ++ inserted_keys b.
Proof. apply omap_app. Qed.

Lemma entry_key (row : list Z) (toneRow : ToneRow.t) :
  ToneRow.init row = inr toneRow →
  CombinatorialTableEntry.prime_row_string (CombinatorialTableEntry.Build toneRow)
  = key_of row.
Proof.
  intros [Hv Hm]%init_inv.
  unfold CombinatorialTableEntry.prime_row_string, ToneRow.prime_row, key_of.
  cbn [CombinatorialTableEntry.tone_row]. by rewrite Hm.
Qed.

(** The loop, on a generator of valid rows. *)
Lemma populate_loop_spec (n : nat) (it : list (list Z)) (batchSize : Z)
    (pending : nat) (total_processed : Z) :
  Forall (λ row, ToneRow.is_valid_tonerow row = true) it →
  ∃ (outcome : DatabaseWriter.raised + Z * Z) (calls : list DatabaseWriter.call),
    DatabaseWriter.populate_loop n it batchSize (Z.of_nat pending) total_processed
    = (outcome, calls) ∧
    inserted_keys calls = key_of <$> take n it ∧
    (DatabaseWriter.Rollback ∉ calls) ∧
    ((n ≤ length it)%nat →
       outcome = inr (Z.of_nat (uncommitted pending calls),
                      total_processed + Z.of_nat n)) ∧
    ((length it < n)%nat → outcome = inl DatabaseWriter.StopIteration).
Proof.
  revert it pending total_processed.
  induction n as [|n IH]; intros it pending total_processed Hvalid.
  - eexists _, _. split; [reflexivity|]. cbn [take].
    split; [reflexivity|]. split; [apply not_elem_of_nil|].
    split; [intros _; simpl; do 2 f_equal; lia | simpl; lia].
  - destruct it as [|row it].
    { eexists _, _. split; [reflexivity|].
      split; [reflexivity|]. split; [apply not_elem_of_nil|].
      split; [simpl; lia | done]. }
    apply Forall_cons in Hvalid as [Hrow Hvalid].
    cbn [DatabaseWriter.populate_loop]. rewrite (init_valid row Hrow).
    cbv zeta.
    rewrite (entry_key row) by (by apply init_valid).
    set (commit := bool_decide (Z.of_nat pending + 1 >= batchSize)).
    assert ((if commit then 0 else Z.of_nat pending + 1)
            = Z.of_nat (if commit then O else S pending)) as ->
      by (destruct commit; lia).
    destruct (IH it (if commit then O else S pending) (total_processed + 1) Hvalid)
      as (outcome & calls & -> & Hkeys & Hroll & Hok & Hstop).
    eexists _, _. split; [reflexivity|].
    split; [|split; [|split]].
    + cbn [inserted_keys omap list_omap]. fold (inserted_keys
        ((if commit then [DatabaseWriter.Commit] else []) ++ calls)).
      rewrite inserted_keys_app, Hkeys. by destruct commit.
    + intros [Hin | Hin]%elem_of_cons; [done|].
      apply elem_of_app in Hin as [Hin | Hin]; [|done].
      destruct commit; [apply list_elem_of_singleton in Hin; done
                       | by apply elem_of_nil in Hin].
    + intros Hn. rewrite Hok by (simpl in Hn; lia). do 2 f_equal; [|lia].
      unfold uncommitted at 2. cbn [foldl].
      fold (uncommitted (S pending)
              ((if commit then [DatabaseWriter.Commit] else []) ++ calls)).
      rewrite uncommitted_app. by destruct commit.
    + intros Hn. apply Hstop. simpl in Hn. lia.
Qed.

Lemma iterator_facts :
  Forall (λ row, ToneRow.is_valid_tonerow row = true)
    ToneRow.tonerows_starting_with_zero_iterator ∧
  NoDup ToneRow.tonerows_starting_with_zero_iterator ∧
  Z.of_nat (length ToneRow.tonerows_starting_with_zero_iterator) = 39916800.
Proof.
  rewrite iterator_rows. split; [|split].
  - apply Forall_forall. intros row (perm & -> & Hperm)%list_elem_of_fmap.
    apply permutations_len_sound in Hperm; [|reflexivity].
    apply is_valid_tonerow_Permutation. rewrite Hperm. reflexivity.
  - apply (NoDup_fmap_2 _).
    apply (StronglySorted_irrefl_NoDup lex_lt); [apply lex_lt_irrefl|].
    apply permutations_len_sorted; [reflexivity|]. apply (seqZ_sorted 1 11).
  - rewrite length_fmap, length_permutations_len by reflexivity. reflexivity.
Qed.

Lemma key_of_inj (row row' : list Z) :
  ToneRow.is_valid_tonerow row = true → ToneRow.is_valid_tonerow row' = true →
  key_of row = key_of row' → row = row'.
Proof.
  intros Hv Hv' Heq. apply str_join_pitches_inj in Heq; [done|..].
  - intros x Hx. pose proof (valid_range row x Hv Hx). lia.
  - intros x Hx. pose proof (valid_range row' x Hv' Hx). lia.
Qed.

Lemma keys_NoDup (rows : list (list Z)) (n : nat) :
  Forall (λ row, ToneRow.is_valid_tonerow row = true) rows → NoDup rows →
  NoDup (key_of <$> take n rows).
Proof.
  intros Hvalid Hnd. rewrite Forall_forall in Hvalid.
  apply NoDup_fmap_2_strong.
  - intros a b Ha%subseteq_take Hb%subseteq_take. apply key_of_inj; auto.
  - eapply sublist_NoDup; [exact Hnd | apply sublist_take].
Qed.

Lemma commits_app (a b : list DatabaseWriter.call) :
  commits (a ++ b) = (commits a + commits b)%nat.
Proof. unfold commits. by rewrite List.filter_app, length_app. Qed.

(** Batching: with [B] the larger of [batchSize] and 1, the loop commits
    once per [B] rows and leaves the remainder pending. *)
Lemma populate_loop_batches (n : nat) (it : list (list Z)) (batchSize : Z)
    (pending : nat) (total_processed : Z) :
  Forall (λ row, ToneRow.is_valid_tonerow row = true) it →
  Z.of_nat pending < Z.max 1 batchSize →
  let calls :=
    (DatabaseWriter.populate_loop n it batchSize (Z.of_nat pending)
       total_processed).2 in
  let m := Z.of_nat (n `min` length it) in
  Z.of_nat (commits calls) = (Z.of_nat pending + m) / Z.max 1 batchSize ∧
  Z.of_nat (uncommitted pending calls)
  = (Z.of_nat pending + m) mod Z.max 1 batchSize.
Proof.
  revert it pending total_processed.
  induction n as [|n IH]; intros it pending total_processed Hvalid Hpending.
  { cbn [DatabaseWriter.populate_loop snd Nat.min]. cbv zeta.
    change (commits []) with O. change (uncommitted pending []) with pending.
    rewrite Z.add_0_r, Z.div_small, Z.mod_small by lia. done. }
  destruct it as [|row it].
  { cbn [DatabaseWriter.populate_loop snd length]. rewrite Nat.min_0_r.
    cbv zeta.
    change (commits []) with O. change (uncommitted pending []) with pending.
    rewrite Z.add_0_r, Z.div_small, Z.mod_small by lia. done. }
  apply Forall_cons in Hvalid as [Hrow Hvalid].
  cbn [DatabaseWriter.populate_loop length]. rewrite (init_valid row Hrow).
  cbv zeta. rewrite <- Nat.succ_min_distr.
  assert (Z.of_nat (S (n `min` length it))
          = 1 + Z.of_nat (n `min` length it)) as -> by lia.
  case_bool_decide as Hcommit.
  - assert (Z.of_nat pending + 1 = Z.max 1 batchSize) as Hfull by lia.
    destruct (IH it O (total_processed + 1) Hvalid ltac:(lia)) as [IHc IHu].
    change (Z.of_nat O) with 0 in IHc, IHu.
    destruct (DatabaseWriter.populate_loop n it batchSize 0 _)
      as [outcome calls].
    cbn [snd] in IHc, IHu |- *.
    change (Z.of_nat (commits (?c :: [DatabaseWriter.Commit] ++ calls)))
      with (Z.of_nat (S (commits calls))).
    change (uncommitted pending (?c :: [DatabaseWriter.Commit] ++ calls))
      with (uncommitted O calls).
    rewrite Nat2Z.inj_succ, IHc, IHu.
    replace (Z.of_nat pending + (1 + Z.of_nat (n `min` length it)))
      with (0 + Z.of_nat (n `min` length it) + 1 * Z.max 1 batchSize) by lia.
    rewrite Z.div_add, Z_mod_plus_full by lia. split; [lia | reflexivity].
  - destruct (IH it (S pending) (total_processed + 1) Hvalid ltac:(lia))
      as [IHc IHu].
    replace (Z.of_nat pending + 1) with (Z.of_nat (S pending)) by lia.
    destruct (DatabaseWriter.populate_loop n it batchSize _ _)
      as [outcome calls].
    cbn [snd] in IHc, IHu |- *.
    change (commits (?c :: [] ++ calls)) with (commits calls).
    change (uncommitted pending (?c :: [] ++ calls))
      with (uncommitted (S pending) calls).
    rewrite IHc, IHu.
    replace (Z.of_nat (S pending) + Z.of_nat (n `min` length it))
      with (Z.of_nat pending + (1 + Z.of_nat (n `min` length it))) by lia.
    done.
Qed.

Lemma iteration_range_spec (limitForTesting : Z) :
  DatabaseWriter.iteration_range limitForTesting
  = if decide (limitForTesting = 0) then 39916800 else limitForTesting.
Proof.
  unfold DatabaseWriter.iteration_range.
  case_bool_decide; destruct (decide _); done.
Qed.

Lemma populate_returns_aux (batchSize limitForTesting : Z) :
  0 ≤ limitForTesting ≤ 39916800 →
  ∃ calls : list DatabaseWriter.call,
    DatabaseWriter.populate_combinatorials_table batchSize limitForTesting
    = (None,
       DatabaseWriter.create_combinatorials_table ++ [DatabaseWriter.Connect]
       ++ calls
       ++ (if bool_decide (Z.of_nat (uncommitted 0 calls) > 0)
           then [DatabaseWriter.Commit] else [])
       ++ [DatabaseWriter.Close]) ∧
    inserted_keys calls
    = key_of <$> take (Z.to_nat (DatabaseWriter.iteration_range limitForTesting))
                   ToneRow.tonerows_starting_with_zero_iterator ∧
    (DatabaseWriter.Rollback ∉ calls) ∧
    Z.of_nat (commits calls)
    = DatabaseWriter.iteration_range limitForTesting / Z.max 1 batchSize ∧
    Z.of_nat (uncommitted 0 calls)
    = DatabaseWriter.iteration_range limitForTesting mod Z.max 1 batchSize.
Proof.
  intros Hlimit. destruct iterator_facts as (Hvalid & _ & Hlen).
  pose proof (iteration_range_spec limitForTesting) as Hrange.
  unfold DatabaseWriter.populate_combinatorials_table. cbv zeta.
  revert Hvalid Hlen. generalize ToneRow.tonerows_starting_with_zero_iterator.
  generalize dependent (DatabaseWriter.iteration_range limitForTesting).
  intros range Hrange rows Hvalid Hlen.
  assert (Z.to_nat range ≤ length rows)%nat as Hn
    by (destruct (decide _); lia).
  destruct (populate_loop_spec (Z.to_nat range) rows batchSize 0 0 Hvalid)
    as (outcome & calls & Heq & Hkeys & Hroll & Hok & _).
  pose proof (populate_loop_batches (Z.to_nat range) rows batchSize 0 0 Hvalid
                ltac:(lia)) as Hbatches.
  change (Z.of_nat 0) with 0 in Heq, Hbatches. rewrite Heq in Hbatches |- *.
  cbn [snd] in Hbatches. cbv zeta in Hbatches.
  rewrite Nat.min_l, Z.add_0_l, Z2Nat.id in Hbatches
    by (try done; destruct (decide _); lia).
  rewrite (Hok Hn). exists calls. done.
Qed.

Lemma populate_stops_aux (batchSize limitForTesting : Z) :
  39916800 < limitForTesting →
  ∃ calls : list DatabaseWriter.call,
    DatabaseWriter.populate_combinatorials_table batchSize limitForTesting
    = (Some DatabaseWriter.StopIteration,
       DatabaseWriter.create_combinatorials_table ++ [DatabaseWriter.Connect]
       ++ calls ++ [DatabaseWriter.Rollback] ++ [DatabaseWriter.Close]) ∧
    inserted_keys calls
    = key_of <$> ToneRow.tonerows_starting_with_zero_iterator ∧
    (DatabaseWriter.Rollback ∉ calls) ∧
    Z.of_nat (uncommitted 0 calls) = 39916800 mod Z.max 1 batchSize.
Proof.
  intros Hlimit. destruct iterator_facts as (Hvalid & _ & Hlen).
  pose proof (iteration_range_spec limitForTesting) as Hrange.
  unfold DatabaseWriter.populate_combinatorials_table. cbv zeta.
  revert Hvalid Hlen. generalize ToneRow.tonerows_starting_with_zero_iterator.
  generalize dependent (DatabaseWriter.iteration_range limitForTesting).
  intros range Hrange rows Hvalid Hlen.
  assert (length rows < Z.to_nat range)%nat as Hn
    by (destruct (decide _); lia).
  destruct (populate_loop_spec (Z.to_nat range) rows batchSize 0 0 Hvalid)
    as (outcome & calls & Heq & Hkeys & Hroll & _ & Hstop).
  pose proof (populate_loop_batches (Z.to_nat range) rows batchSize 0 0 Hvalid
                ltac:(lia)) as Hbatches.
  change (Z.of_nat 0) with 0 in Heq, Hbatches. rewrite Heq in Hbatches |- *.
  cbn [snd] in Hbatches. cbv zeta in Hbatches.
  rewrite Nat.min_r, Z.add_0_l, Hlen in Hbatches by lia.
  rewrite (Hstop Hn). exists calls.
  rewrite take_ge in Hkeys by lia. by destruct Hbatches.
Qed.

(** X21.  [populate_combinatorials_table] with a limit of 0 (every row) or
    between 1 and 11! returns normally.  It inserts exactly the keys of the
    first rows of the generator, in the generator's order: all 39916800 of
    them when the limit is 0, [limitForTesting] of them otherwise.  No two
    inserted keys are equal, nothing is rolled back, no inserted row is left
    uncommitted, and the last call closes the connection. *)
Theorem populate_inserts_rows (batchSize limitForTesting : Z) :
  0 ≤ limitForTesting ≤ 39916800 →
  ∃ calls : list DatabaseWriter.call,
    DatabaseWriter.populate_combinatorials_table batchSize limitForTesting
    = (None, calls) ∧
    inserted_keys calls
    = key_of <$> take (Z.to_nat (DatabaseWriter.iteration_range limitForTesting))
                   ToneRow.tonerows_starting_with_zero_iterator ∧
    Z.of_nat (length (inserted_keys calls))
    = (if decide (limitForTesting = 0) then 39916800 else limitForTesting) ∧
    NoDup (inserted_keys calls) ∧
    (DatabaseWriter.Rollback ∉ calls) ∧
    uncommitted 0 calls = O ∧
    last calls = Some DatabaseWriter.Close.
Proof.
  intros Hlimit.
  destruct (populate_returns_aux batchSize limitForTesting Hlimit)
    as (calls & -> & Hkeys & Hroll & _ & _).
  destruct iterator_facts as (Hvalid & Hnd & Hlen).
  pose proof (iteration_range_spec limitForTesting) as Hrange.
  revert Hkeys Hvalid Hnd Hlen.
  generalize ToneRow.tonerows_starting_with_zero_iterator.
  generalize dependent (DatabaseWriter.iteration_range limitForTesting).
  intros range Hrange rows Hkeys Hvalid Hnd Hlen.
  eexists. split; [reflexivity|].
  assert (inserted_keys
            (DatabaseWriter.create_combinatorials_table ++ [DatabaseWriter.Connect]
             ++ calls
             ++ (if bool_decide (Z.of_nat (uncommitted 0 calls) > 0)
                 then [DatabaseWriter.Commit] else [])
             ++ [DatabaseWriter.Close])
          = key_of <$> take (Z.to_nat range) rows) as Hall.
  { rewrite !inserted_keys_app, Hkeys.
    change (inserted_keys DatabaseWriter.create_combinatorials_table) with (@nil string).
    change (inserted_keys [DatabaseWriter.Connect]) with (@nil string).
    change (inserted_keys [DatabaseWriter.Close]) with (@nil string).
    case_bool_decide; cbn [inserted_keys omap list_omap app];
      by rewrite app_nil_r. }
  rewrite Hall. split; [reflexivity|]. split; [|split; [|split; [|split]]].
  - rewrite length_fmap, length_take. destruct (decide _); lia.
  - by apply keys_NoDup.
  - rewrite !elem_of_app. intros [Hin | [Hin | [Hin | [Hin | Hin]]]].
    + unfold DatabaseWriter.create_combinatorials_table in Hin.
      no_such_call Hin.
    + no_such_call Hin.
    + done.
    + case_bool_decide; no_such_call Hin.
    + no_such_call Hin.
  - rewrite !uncommitted_app.
    change (uncommitted 0 DatabaseWriter.create_combinatorials_table) with O.
    change (uncommitted 0 [DatabaseWriter.Connect]) with O.
    case_bool_decide as Hpending.
    + reflexivity.
    + cbn [uncommitted foldl]. fold (uncommitted 0 calls). lia.
  - rewrite !app_assoc. apply last_snoc.
Qed.

Lemma populate_inserts_rows_witness :
  0 ≤ 3 ≤ 39916800 ∧
  ∃ calls : list DatabaseWriter.call,
    DatabaseWriter.populate_combinatorials_table 100 3 = (None, calls) ∧
    inserted_keys calls
    = key_of <$> take (Z.to_nat (DatabaseWriter.iteration_range 3))
                   ToneRow.tonerows_starting_with_zero_iterator ∧
    Z.of_nat (length (inserted_keys calls))
    = (if decide (3 = 0) then 39916800 else 3) ∧
    NoDup (inserted_keys calls) ∧
    (DatabaseWriter.Rollback ∉ calls) ∧
    uncommitted 0 calls = O ∧
    last calls = Some DatabaseWriter.Close.
Proof. split; [lia | apply (populate_inserts_rows 100 3); lia]. Defined.

(** X22.  Batching.  On a run that returns, with [B] the larger of
    [batchSize] and 1 and [n] the number of rows asked for, the writer
    commits ceil(n / B) times after the commit that creates the table: once
    per full batch and once more for a last partial batch.  A [batchSize] of
    1 or less commits every row on its own. *)
Theorem populate_commit_count (batchSize limitForTesting : Z) :
  0 ≤ limitForTesting ≤ 39916800 →
  ∃ calls : list DatabaseWriter.call,
    DatabaseWriter.populate_combinatorials_table batchSize limitForTesting
    = (None, calls) ∧
    Z.of_nat (commits calls)
    = 1 + (DatabaseWriter.iteration_range limitForTesting + Z.max 1 batchSize - 1)
          / Z.max 1 batchSize.
Proof.
  intros Hlimit.
  destruct (populate_returns_aux batchSize limitForTesting Hlimit)
    as (calls & -> & _ & _ & Hcommits & Hpending).
  pose proof (iteration_range_spec limitForTesting) as Hrange.
  generalize dependent (DatabaseWriter.iteration_range limitForTesting).
  intros range Hcommits Hpending Hrange.
  eexists. split; [reflexivity|].
  rewrite !commits_app, !Nat2Z.inj_add, Hcommits, Hpending.
  change (commits DatabaseWriter.create_combinatorials_table) with 1%nat.
  change (commits [DatabaseWriter.Connect]) with O.
  change (commits [DatabaseWriter.Close]) with O.
  assert (0 ≤ range) by (destruct (decide _); lia).
  assert (1 ≤ Z.max 1 batchSize) by lia.
  generalize dependent (Z.max 1 batchSize). intros B Hcommits Hpending HB.
  pose proof (Z.div_mod range B ltac:(lia)) as Hdm.
  pose proof (Z.mod_pos_bound range B ltac:(lia)) as Hmod.
  case_bool_decide as Hrem.
  - change (commits [DatabaseWriter.Commit]) with 1%nat.
    replace (range + B - 1) with ((range mod B - 1) + (range / B + 1) * B)
      by lia.
    rewrite Z.div_add, (Z.div_small (range mod B - 1)) by lia. lia.
  - change (commits []) with O.
    replace (range + B - 1) with ((B - 1) + (range / B) * B) by lia.
    rewrite Z.div_add, (Z.div_small (B - 1)) by lia. lia.
Qed.

Lemma populate_commit_count_witness :
  0 ≤ 250 ≤ 39916800 ∧
  ∃ calls : list DatabaseWriter.call,
    DatabaseWriter.populate_combinatorials_table 100 250 = (None, calls) ∧
    Z.of_nat (commits calls)
    = 1 + (DatabaseWriter.iteration_range 250 + Z.max 1 100 - 1) / Z.max 1 100.
Proof. split; [lia | apply (populate_commit_count 100 250); lia]. Defined.

(** X23.  A limit above 11! exhausts the generator: [next] raises
    [StopIteration] after every one of the 39916800 rows has been inserted,
    the writer rolls back and closes the connection, and the exception is
    passed on.  The rows inserted since the last batch commit, 11! mod [B] of
    them with [B] the larger of [batchSize] and 1, are the ones the rollback
    discards. *)
Theorem populate_limit_beyond_rows (batchSize limitForTesting : Z) :
  39916800 < limitForTesting →
  ∃ calls : list DatabaseWriter.call,
    DatabaseWriter.populate_combinatorials_table batchSize limitForTesting
    = (Some DatabaseWriter.StopIteration,
       calls ++ [DatabaseWriter.Rollback; DatabaseWriter.Close]) ∧
    inserted_keys calls
    = key_of <$> ToneRow.tonerows_starting_with_zero_iterator ∧
    (DatabaseWriter.Rollback ∉ calls) ∧
    Z.of_nat (uncommitted 0 calls) = 39916800 mod Z.max 1 batchSize.
Proof.
  intros Hlimit.
  destruct (populate_stops_aux batchSize limitForTesting Hlimit)
    as (calls & -> & Hkeys & Hroll & Hpending).
  exists (DatabaseWriter.create_combinatorials_table ++ [DatabaseWriter.Connect]
          ++ calls).
  generalize dependent (key_of <$> ToneRow.tonerows_starting_with_zero_iterator).
  intros keys Hkeys.
  split; [by rewrite <- !app_assoc|]. split; [|split].
  - rewrite !inserted_keys_app, Hkeys. reflexivity.
  - rewrite !elem_of_app. intros [Hin | [Hin | Hin]]; [| |done].
    + unfold DatabaseWriter.create_combinatorials_table in Hin.
      no_such_call Hin.
    + no_such_call Hin.
  - rewrite !uncommitted_app. exact Hpending.
Qed.

Lemma populate_limit_beyond_rows_witness :
  39916800 < 39916801 ∧
  ∃ calls : list DatabaseWriter.call,
    DatabaseWriter.populate_combinatorials_table 7 39916801
    = (Some DatabaseWriter.StopIteration,
       calls ++ [DatabaseWriter.Rollback; DatabaseWriter.Close]) ∧
    inserted_keys calls
    = key_of <$> ToneRow.tonerows_starting_with_zero_iterator ∧
    (DatabaseWriter.Rollback ∉ calls) ∧
    Z.of_nat (uncommitted 0 calls) = 39916800 mod Z.max 1 7.
Proof. split; [lia | apply (populate_limit_beyond_rows 7 39916801); lia]. Defined.

(** X24.  A negative limit is not read as "every row": [range] of a
    negative number is empty, so the table is dropped and created again and
    nothing is inserted. *)
Theorem populate_negative_limit (batchSize limitForTesting : Z) :
  limitForTesting < 0 →
  DatabaseWriter.populate_combinatorials_table batchSize limitForTesting
  = (None,
     DatabaseWriter.create_combinatorials_table
     ++ [DatabaseWriter.Connect; DatabaseWriter.Close]).
Proof.
  intros Hlimit.
  pose proof (iteration_range_spec limitForTesting) as Hrange.
  unfold DatabaseWriter.populate_combinatorials_table. cbv zeta.
  generalize ToneRow.tonerows_starting_with_zero_iterator.
  generalize dependent (DatabaseWriter.iteration_range limitForTesting).
  intros range Hrange rows.
  assert (Z.to_nat range = O) as -> by (destruct (decide _); lia).
  reflexivity.
Qed.

Lemma populate_negative_limit_witness :
  -1 < 0 ∧
  DatabaseWriter.populate_combinatorials_table 100 (-1)
  = (None,
     DatabaseWriter.create_combinatorials_table
     ++ [DatabaseWriter.Connect; DatabaseWriter.Close]).
Proof. split; [lia | apply (populate_negative_limit 100 (-1)); lia]. Defined.
